(** * Clio: a shallow embedding of the argument-parsing library

    The development follows the layout of the C source: utility functions,
    Map, Options, ArgStream, ArgList, ArgParser (registration, queries,
    parsing) and the public [ap_*] interface.  Heap-allocated objects
    ([Option], [ArgParser]) live in an explicit store and are referred to
    by address, so that several keys of a Map alias one object exactly as
    the C pointers do.  [exit] is an outcome of its own, carrying the exit
    status and the text printed just before it. *)

From Stdlib Require Import ZArith Lia Ascii String List Bool.
From stdpp Require Import base tactics option list strings pretty.

Open Scope string_scope.
Open Scope Z_scope.
Open Scope nat_scope.

(* ------------------------------------------------------------------------- *)
(** ** Outcomes of a C call *)
(* ------------------------------------------------------------------------- *)

Inductive Channel : Type := stdout | stderr.

(** A call either returns, or terminates the process through [exit] after
    printing [text] on [chan], or has undefined behaviour ([Fault]: a NULL
    or dangling dereference, a read outside an array). *)
Inductive Outcome (A : Type) : Type :=
| Ret (a : A)
| Exit (status : Z) (chan : Channel) (text : string)
| Fault.

Arguments Ret {A} a.
Arguments Exit {A} status chan text.
Arguments Fault {A}.

Definition bind {A B : Type} (m : Outcome A) (k : A -> Outcome B) : Outcome B :=
  match m with
  | Ret a => k a
  | Exit st ch txt => Exit st ch txt
  | Fault => Fault
  end.

(** Loops are unrolled against a bound; [None] says the bound was too small. *)
Definition M (A : Type) : Type := option (Outcome A).

Definition bindM {A B : Type} (m : M A) (k : A -> M B) : M B :=
  match m with
  | Some (Ret a) => k a
  | Some (Exit st ch txt) => Some (Exit st ch txt)
  | Some Fault => Some Fault
  | None => None
  end.

Definition lift {A : Type} (m : Outcome A) : M A := Some m.

Declare Scope clio_scope.
Delimit Scope clio_scope with clio.
Notation "x <- m ;; k" := (bind m (fun x => k))
  (at level 20, m at level 99, k at level 200) : clio_scope.
Notation "' p <- m ;; k" := (bind m (fun x => match x with p => k end))
  (at level 20, p pattern, m at level 99, k at level 200) : clio_scope.
Notation "x <~ m ;; k" := (bindM m (fun x => k))
  (at level 20, m at level 99, k at level 200) : clio_scope.
Notation "' p <~ m ;; k" := (bindM m (fun x => match x with p => k end))
  (at level 20, p pattern, m at level 99, k at level 200) : clio_scope.
Open Scope clio_scope.

(* ------------------------------------------------------------------------- *)
(** ** The C library *)
(* ------------------------------------------------------------------------- *)

Definition newline : string := String (ascii_of_nat 10) EmptyString.

(** [isdigit] and [isspace] on the value of a character as an
    [unsigned char].  The code hands them a plain [char]; where [char] is
    signed a byte from 128 on is a negative argument, for which C leaves the
    call undefined, and the functions below answer no there.  [ascii_text]
    in the vocabulary names the texts on which the two agree. *)
Definition isdigit (c : ascii) : bool :=
  let n := nat_of_ascii c in (48 <=? n) && (n <=? 57).

Definition isspace (c : ascii) : bool :=
  let n := nat_of_ascii c in (n =? 32) || ((9 <=? n) && (n <=? 13)).

(** Value of a character as a digit in base 36, as [strtol] reads it. *)
Definition digit_value (c : ascii) : option Z :=
  let n := Z.of_nat (nat_of_ascii c) in
  if ((48 <=? n) && (n <=? 57))%Z then Some (n - 48)%Z
  else if ((97 <=? n) && (n <=? 122))%Z then Some (n - 87)%Z
  else if ((65 <=? n) && (n <=? 90))%Z then Some (n - 55)%Z
  else None.

Definition is_digit_in (base : Z) (c : ascii) : bool :=
  match digit_value c with
  | Some d => (d <? base)%Z
  | None => false
  end.

Definition INT_MAX : Z := 2147483647.
Definition INT_MIN : Z := -2147483648.
(** [long] is taken to be 64 bits wide (LP64). *)
Definition LONG_MAX : Z := 9223372036854775807.
Definition LONG_MIN : Z := -9223372036854775808.

(** [s[i]]; the terminating NUL when [i] is the length of [s]. *)
Definition char_at (s : string) (i : nat) : ascii :=
  match String.get i s with
  | Some c => c
  | None => zero
  end.

(** [s + n], for [n] at most the length of [s]. *)
Fixpoint offset (s : string) (n : nat) : string :=
  match n, s with
  | S n', String _ s' => offset s' n'
  | _, _ => s
  end.

(** [strncmp(arg, pre, strlen(pre)) == 0] *)
Fixpoint has_prefix (pre arg : string) : bool :=
  match pre, arg with
  | EmptyString, _ => true
  | String a pre', String b arg' => Ascii.eqb a b && has_prefix pre' arg'
  | String _ _, EmptyString => false
  end.

(** [strlen] *)
Definition strlen (s : string) : nat := String.length s.

Fixpoint skip_space (s : string) : string :=
  match s with
  | String c s' => if isspace c then skip_space s' else s
  | EmptyString => s
  end.

(** The longest run of digits of [base] at the head of [s], accumulated
    exactly; [any] records whether a digit was read. *)
Fixpoint strtol_digits (base : Z) (acc : Z) (any : bool) (s : string)
  : Z * bool * string :=
  match s with
  | String c s' =>
      match digit_value c with
      | Some d =>
          if (d <? base)%Z then strtol_digits base (acc * base + d)%Z true s'
          else (acc, any, s)
      | None => (acc, any, s)
      end
  | EmptyString => (acc, any, s)
  end.

(** [strtol(nptr, &endptr, 0)]: the result, the text at [endptr], and
    whether [errno] was set to [ERANGE].  With base 0 the numeral is
    hexadecimal after [0x]/[0X], octal after [0], decimal otherwise. *)
Definition strtol (nptr : string) : Z * string * bool :=
  let s := skip_space nptr in
  let '(neg, s) :=
    match s with
    | String "-" t => (true, t)
    | String "+" t => (false, t)
    | _ => (false, s)
    end in
  let '(base, s) :=
    match s with
    | String "0" (String x (String d t)) =>
        if (Ascii.eqb x "x" || Ascii.eqb x "X") && is_digit_in 16 d
        then (16%Z, String d t) else (8%Z, s)
    | String "0" _ => (8%Z, s)
    | _ => (10%Z, s)
    end in
  let '(acc, any, rest) := strtol_digits base 0 false s in
  if negb any then (0%Z, nptr, false)
  else
    let v := if neg : bool then (- acc)%Z else acc in
    if (LONG_MAX <? v)%Z then (LONG_MAX, rest, true)
    else if (v <? LONG_MIN)%Z then (LONG_MIN, rest, true)
    else (v, rest, false).

(** [strtod] and the type [double] are taken from the platform. *)
Class Libc : Type := {
  double : Type;
  strtod : string -> double * string * bool;
}.

(* ------------------------------------------------------------------------- *)
(** ** Utility functions *)
(* ------------------------------------------------------------------------- *)

(** Print a message to stderr and exit with a non-zero error code. *)
Definition err {A : Type} (msg : string) : Outcome A :=
  Exit 1 stderr ("Error: " ++ msg ++ "." ++ newline).

(** Attempt to parse a string as an integer value, exiting on failure. *)
Definition try_str_to_int (arg : string) : Outcome Z :=
  let '(result, endptr, erange) := strtol arg in
  if erange || (INT_MAX <? result)%Z || (result <? INT_MIN)%Z then
    err ("'" ++ arg ++ "' is out of range")
  else if negb (String.eqb endptr "") then
    err ("cannot parse '" ++ arg ++ "' as an integer")
  else Ret result.

Section Clio.

Context `{libc : Libc}.

(** Attempt to parse a string as a double value, exiting on failure. *)
Definition try_str_to_double (arg : string) : Outcome double :=
  let '(result, endptr, erange) := strtod arg in
  if erange : bool then
    err ("'" ++ arg ++ "' is out of range")
  else if negb (String.eqb endptr "") then
    err ("cannot parse '" ++ arg ++ "' as a float")
  else Ret result.

(* ------------------------------------------------------------------------- *)
(** ** Map *)
(* ------------------------------------------------------------------------- *)

(** A Map instance maps string keys to pointer values: its entries, in
    insertion order.  The capacity and its doubling are storage management
    and are not represented. *)
Definition Map (V : Type) : Type := list (string * V).

Definition map_new {V : Type} : Map V := [].

(** Add a key-value pair to a map. *)
Definition map_add {V : Type} (map : Map V) (key : string) (value : V) : Map V :=
  (map ++ [(key, value)])%list.

(** The successive results of [strtok_r(_, " ", _)] on [keystr]; [key] is
    the token being read. *)
Fixpoint strtok (keystr : string) (key : string) : list string :=
  match keystr with
  | EmptyString => if String.eqb key "" then [] else [key]
  | String c rest =>
      if Ascii.eqb c " " then
        if String.eqb key "" then strtok rest "" else key :: strtok rest ""
      else strtok rest (key ++ String c "")
  end.

(** Split the specified keystring into multiple keys and add a separate
    key-value pair to the map for each key. *)
Definition map_add_splitkey {V : Type} (map : Map V) (keystr : string) (value : V)
  : Map V :=
  fold_left (fun m key => map_add m key value) (strtok keystr "") map.

(** Test if a Map instance contains the specified key. *)
Fixpoint map_contains {V : Type} (map : Map V) (key : string) : bool :=
  match map with
  | [] => false
  | (k, _) :: rest => if String.eqb key k then true else map_contains rest key
  end.

(** Retrieve a value from a Map instance; [None] is the NULL of a key that
    is not found. *)
Fixpoint map_get {V : Type} (map : Map V) (key : string) : option V :=
  match map with
  | [] => None
  | (k, v) :: rest => if String.eqb key k then Some v else map_get rest key
  end.

(* ------------------------------------------------------------------------- *)
(** ** Options *)
(* ------------------------------------------------------------------------- *)

Inductive OptionType : Type := FLAG | STRING | INTEGER | FLOAT.

(** Union combining all four valid types of option value; the constructor
    records the member that was written.  A string value is a text: a NULL
    pointer stored as a string value is not a value of this type. *)
Inductive OptionValue : Type :=
| bool_val (b : bool)
| str_val (s : string)
| int_val (i : Z)
| float_val (d : double).

(** An Option instance represents an option registered on a parser.  [len]
    is the length of [opt_values]. *)
Record Option : Type := {
  opt_type : OptionType;
  opt_found : bool;
  opt_greedy : bool;
  opt_values : list OptionValue;
}.

Definition ptr : Type := nat.

(** A callback is known by its code address. *)
Definition CmdCB : Type := nat.

Definition ArgList : Type := list string.

Record ArgParser : Type := {
  helptext : option string;
  version : option string;
  options : Map ptr;
  commands : Map ptr;
  callbacks : Map (option CmdCB);
  arguments : ArgList;
  cmd_name : option string;
  cmd_parser : option ptr;
  parent : option ptr;
}.

(** The store: every [Option] and every [ArgParser] allocated so far, at
    the address that is its index. *)
Record Heap : Type := {
  heap_options : list Option;
  heap_parsers : list ArgParser;
}.

Definition empty_heap : Heap := {| heap_options := []; heap_parsers := [] |}.

Definition load_opt (h : Heap) (opt : ptr) : Outcome Option :=
  match heap_options h !! opt with
  | Some o => Ret o
  | None => Fault
  end.

Definition heap_set_opt (h : Heap) (opt : ptr) (o : Option) : Heap :=
  {| heap_options := <[opt := o]> (heap_options h);
     heap_parsers := heap_parsers h |}.

Definition store_opt (h : Heap) (opt : ptr) (o : Option) : Outcome Heap :=
  match heap_options h !! opt with
  | Some _ => Ret (heap_set_opt h opt o)
  | None => Fault
  end.

Definition load_parser (h : Heap) (parser : ptr) : Outcome ArgParser :=
  match heap_parsers h !! parser with
  | Some p => Ret p
  | None => Fault
  end.

Definition heap_set_parser (h : Heap) (parser : ptr) (p : ArgParser) : Heap :=
  {| heap_options := heap_options h;
     heap_parsers := <[parser := p]> (heap_parsers h) |}.

Definition store_parser (h : Heap) (parser : ptr) (p : ArgParser) : Outcome Heap :=
  match heap_parsers h !! parser with
  | Some _ => Ret (heap_set_parser h parser p)
  | None => Fault
  end.

Definition alloc_opt (h : Heap) (o : Option) : Heap * ptr :=
  ({| heap_options := (heap_options h ++ [o])%list; heap_parsers := heap_parsers h |},
   length (heap_options h)).

Definition alloc_parser (h : Heap) (p : ArgParser) : Heap * ptr :=
  ({| heap_options := heap_options h; heap_parsers := (heap_parsers h ++ [p])%list |},
   length (heap_parsers h)).

(** What a callback does when it is called on a parser. *)
Class Callbacks : Type := {
  invoke : CmdCB -> ptr -> Heap -> Outcome Heap;
}.

Context `{cbs : Callbacks}.

Definition with_type (o : Option) (t : OptionType) : Option :=
  {| opt_type := t; opt_found := opt_found o;
     opt_greedy := opt_greedy o; opt_values := opt_values o |}.

Definition with_found (o : Option) (b : bool) : Option :=
  {| opt_type := opt_type o; opt_found := b;
     opt_greedy := opt_greedy o; opt_values := opt_values o |}.

Definition with_greedy (o : Option) (b : bool) : Option :=
  {| opt_type := opt_type o; opt_found := opt_found o;
     opt_greedy := b; opt_values := opt_values o |}.

Definition with_values (o : Option) (vs : list OptionValue) : Option :=
  {| opt_type := opt_type o; opt_found := opt_found o;
     opt_greedy := opt_greedy o; opt_values := vs |}.

(** [opt->type = t], [opt->found = b], [opt->greedy = b] and the update of
    the value list. *)
Definition set_type (h : Heap) (opt : ptr) (t : OptionType) : Outcome Heap :=
  o <- load_opt h opt;;
  store_opt h opt (with_type o t).

Definition set_found (h : Heap) (opt : ptr) (b : bool) : Outcome Heap :=
  o <- load_opt h opt;;
  store_opt h opt (with_found o b).

Definition set_greedy (h : Heap) (opt : ptr) (b : bool) : Outcome Heap :=
  o <- load_opt h opt;;
  store_opt h opt (with_greedy o b).

Definition set_values (h : Heap) (opt : ptr) (vs : list OptionValue) : Outcome Heap :=
  o <- load_opt h opt;;
  store_opt h opt (with_values o vs).

(** Clear an Option instance's internal list of values. *)
Definition option_clear (h : Heap) (opt : ptr) : Outcome Heap :=
  set_values h opt [].

(** Append a value to an Option instance's internal list of values. *)
Definition option_append (h : Heap) (opt : ptr) (value : OptionValue) : Outcome Heap :=
  o <- load_opt h opt;;
  set_values h opt (opt_values o ++ [value])%list.

Definition option_set_flag (h : Heap) (opt : ptr) (value : bool) : Outcome Heap :=
  option_append h opt (bool_val value).

Definition option_set_str (h : Heap) (opt : ptr) (value : string) : Outcome Heap :=
  option_append h opt (str_val value).

Definition option_set_int (h : Heap) (opt : ptr) (value : Z) : Outcome Heap :=
  option_append h opt (int_val value).

Definition option_set_float (h : Heap) (opt : ptr) (value : double) : Outcome Heap :=
  option_append h opt (float_val value).

(** Try setting an option by parsing the value of a string argument. Exits
    with an error message on failure. *)
Definition option_try_set (h : Heap) (opt : ptr) (arg : string) : Outcome Heap :=
  o <- load_opt h opt;;
  match opt_type o with
  | STRING => option_set_str h opt arg
  | INTEGER => v <- try_str_to_int arg;; option_set_int h opt v
  | FLOAT => v <- try_str_to_double arg;; option_set_float h opt v
  | FLAG => Ret h
  end.

(** Initialize a new Option instance.  The [type] field is indeterminate
    until the caller assigns it; [FLAG] stands for that. *)
Definition option_new (h : Heap) : Heap * ptr :=
  alloc_opt h {| opt_type := FLAG; opt_found := false; opt_greedy := false;
                 opt_values := [] |}.

Definition option_new_flag (h : Heap) : Outcome (Heap * ptr) :=
  let '(h, opt) := option_new h in
  h <- set_type h opt FLAG;;
  h <- option_set_flag h opt false;;
  Ret (h, opt).

Definition option_new_str (h : Heap) (value : string) : Outcome (Heap * ptr) :=
  let '(h, opt) := option_new h in
  h <- set_type h opt STRING;;
  h <- option_set_str h opt value;;
  Ret (h, opt).

Definition option_new_int (h : Heap) (value : Z) : Outcome (Heap * ptr) :=
  let '(h, opt) := option_new h in
  h <- set_type h opt INTEGER;;
  h <- option_set_int h opt value;;
  Ret (h, opt).

Definition option_new_float (h : Heap) (value : double) : Outcome (Heap * ptr) :=
  let '(h, opt) := option_new h in
  h <- set_type h opt FLOAT;;
  h <- option_set_float h opt value;;
  Ret (h, opt).

Definition option_new_flag_list (h : Heap) : Outcome (Heap * ptr) :=
  let '(h, opt) := option_new h in
  h <- set_type h opt FLAG;;
  Ret (h, opt).

Definition option_new_str_list (h : Heap) (greedy : bool) : Outcome (Heap * ptr) :=
  let '(h, opt) := option_new h in
  h <- set_type h opt STRING;;
  h <- set_greedy h opt greedy;;
  Ret (h, opt).

Definition option_new_int_list (h : Heap) (greedy : bool) : Outcome (Heap * ptr) :=
  let '(h, opt) := option_new h in
  h <- set_type h opt INTEGER;;
  h <- set_greedy h opt greedy;;
  Ret (h, opt).

Definition option_new_float_list (h : Heap) (greedy : bool) : Outcome (Heap * ptr) :=
  let '(h, opt) := option_new h in
  h <- set_type h opt FLOAT;;
  h <- set_greedy h opt greedy;;
  Ret (h, opt).

(** The scalar getters read [values[len - 1]]: outside the array when the
    list is empty, and through the member of the union that was not the
    one written when the types disagree. *)
Definition option_get_flag (h : Heap) (opt : ptr) : Outcome bool :=
  o <- load_opt h opt;;
  match last (opt_values o) with
  | Some (bool_val b) => Ret b
  | _ => Fault
  end.

Definition option_get_str (h : Heap) (opt : ptr) : Outcome string :=
  o <- load_opt h opt;;
  match last (opt_values o) with
  | Some (str_val s) => Ret s
  | _ => Fault
  end.

Definition option_get_int (h : Heap) (opt : ptr) : Outcome Z :=
  o <- load_opt h opt;;
  match last (opt_values o) with
  | Some (int_val i) => Ret i
  | _ => Fault
  end.

Definition option_get_float (h : Heap) (opt : ptr) : Outcome double :=
  o <- load_opt h opt;;
  match last (opt_values o) with
  | Some (float_val d) => Ret d
  | _ => Fault
  end.

(** The list getters return NULL ([None]) for an empty list, and otherwise
    a fresh array with the values read through one member of the union. *)
Fixpoint bool_vals (vs : list OptionValue) : Outcome (list bool) :=
  match vs with
  | [] => Ret []
  | bool_val b :: vs => l <- bool_vals vs;; Ret (b :: l)
  | _ :: _ => Fault
  end.

Fixpoint str_vals (vs : list OptionValue) : Outcome (list string) :=
  match vs with
  | [] => Ret []
  | str_val s :: vs => l <- str_vals vs;; Ret (s :: l)
  | _ :: _ => Fault
  end.

Fixpoint int_vals (vs : list OptionValue) : Outcome (list Z) :=
  match vs with
  | [] => Ret []
  | int_val i :: vs => l <- int_vals vs;; Ret (i :: l)
  | _ :: _ => Fault
  end.

Fixpoint float_vals (vs : list OptionValue) : Outcome (list double) :=
  match vs with
  | [] => Ret []
  | float_val d :: vs => l <- float_vals vs;; Ret (d :: l)
  | _ :: _ => Fault
  end.

Definition option_get_flag_list (h : Heap) (opt : ptr) : Outcome (option (list bool)) :=
  o <- load_opt h opt;;
  if length (opt_values o) =? 0 then Ret None
  else l <- bool_vals (opt_values o);; Ret (Some l).

Definition option_get_str_list (h : Heap) (opt : ptr)
  : Outcome (option (list string)) :=
  o <- load_opt h opt;;
  if length (opt_values o) =? 0 then Ret None
  else l <- str_vals (opt_values o);; Ret (Some l).

Definition option_get_int_list (h : Heap) (opt : ptr) : Outcome (option (list Z)) :=
  o <- load_opt h opt;;
  if length (opt_values o) =? 0 then Ret None
  else l <- int_vals (opt_values o);; Ret (Some l).

Definition option_get_float_list (h : Heap) (opt : ptr)
  : Outcome (option (list double)) :=
  o <- load_opt h opt;;
  if length (opt_values o) =? 0 then Ret None
  else l <- float_vals (opt_values o);; Ret (Some l).

(* ------------------------------------------------------------------------- *)
(** ** ArgStream *)
(* ------------------------------------------------------------------------- *)

(** An ArgStream instance is a wrapper for an array of string pointers,
    allowing it to be accessed as a stream. *)
Record ArgStream : Type := {
  len : nat;
  index : nat;
  args : list string;
}.

Definition argstream_new (len : nat) (args : list string) : ArgStream :=
  {| len := len; index := 0; args := args |}.

(** Returns the next argument from the stream. *)
Definition argstream_next (stream : ArgStream) : Outcome (string * ArgStream) :=
  match args stream !! index stream with
  | Some arg => Ret (arg, {| len := len stream; index := S (index stream);
                             args := args stream |})
  | None => Fault
  end.

(** Returns the next argument from the stream without consuming it. *)
Definition argstream_peek (stream : ArgStream) : Outcome string :=
  match args stream !! index stream with
  | Some arg => Ret arg
  | None => Fault
  end.

(** Returns true if the stream contains at least one more element. *)
Definition argstream_has_next (stream : ArgStream) : bool :=
  index stream <? len stream.

(** Returns true if the stream contains at least one more element and that
    element has the form of an option value. *)
Definition argstream_has_next_value (stream : ArgStream) : Outcome bool :=
  if argstream_has_next stream then
    next <- argstream_peek stream;;
    if Ascii.eqb (char_at next 0) "-" then
      if (strlen next =? 1) || isdigit (char_at next 1) then Ret true
      else Ret false
    else Ret true
  else Ret false.

(* ------------------------------------------------------------------------- *)
(** ** ArgList *)
(* ------------------------------------------------------------------------- *)

Definition arglist_new : ArgList := [].

(** Append an argument to the list. *)
Definition arglist_append (list : ArgList) (arg : string) : ArgList :=
  (list ++ [arg])%list.

(* ------------------------------------------------------------------------- *)
(** ** ArgParser *)
(* ------------------------------------------------------------------------- *)

Definition set_options (p : ArgParser) (m : Map ptr) : ArgParser :=
  {| helptext := helptext p; version := version p; options := m;
     commands := commands p; callbacks := callbacks p; arguments := arguments p;
     cmd_name := cmd_name p; cmd_parser := cmd_parser p; parent := parent p |}.

Definition set_commands (p : ArgParser) (m : Map ptr) : ArgParser :=
  {| helptext := helptext p; version := version p; options := options p;
     commands := m; callbacks := callbacks p; arguments := arguments p;
     cmd_name := cmd_name p; cmd_parser := cmd_parser p; parent := parent p |}.

Definition set_callbacks (p : ArgParser) (m : Map (option CmdCB)) : ArgParser :=
  {| helptext := helptext p; version := version p; options := options p;
     commands := commands p; callbacks := m; arguments := arguments p;
     cmd_name := cmd_name p; cmd_parser := cmd_parser p; parent := parent p |}.

Definition set_arguments (p : ArgParser) (l : ArgList) : ArgParser :=
  {| helptext := helptext p; version := version p; options := options p;
     commands := commands p; callbacks := callbacks p; arguments := l;
     cmd_name := cmd_name p; cmd_parser := cmd_parser p; parent := parent p |}.

Definition set_cmd (p : ArgParser) (name : string) (cmd : ptr) : ArgParser :=
  {| helptext := helptext p; version := version p; options := options p;
     commands := commands p; callbacks := callbacks p; arguments := arguments p;
     cmd_name := Some name; cmd_parser := Some cmd; parent := parent p |}.

Definition set_parent (p : ArgParser) (up : ptr) : ArgParser :=
  {| helptext := helptext p; version := version p; options := options p;
     commands := commands p; callbacks := callbacks p; arguments := arguments p;
     cmd_name := cmd_name p; cmd_parser := cmd_parser p; parent := Some up |}.

(** Initialize a new ArgParser instance. Supplying help text activates the
    automatic --help flag, supplying a version string activates the
    automatic --version flag. NULL ([None]) can be passed for either. *)
Definition argparser_new (h : Heap) (helptext version : option string) : Heap * ptr :=
  alloc_parser h {| helptext := helptext; version := version;
                    options := map_new; commands := map_new; callbacks := map_new;
                    arguments := arglist_new;
                    cmd_name := None; cmd_parser := None; parent := None |}.

(** *** Register options *)

Definition add_option (h : Heap) (parser : ptr) (name : string) (opt : ptr)
  : Outcome Heap :=
  p <- load_parser h parser;;
  store_parser h parser (set_options p (map_add_splitkey (options p) name opt)).

Definition argparser_add_flag (h : Heap) (parser : ptr) (name : string) : Outcome Heap :=
  '(h, opt) <- option_new_flag h;;
  add_option h parser name opt.

Definition argparser_add_str (h : Heap) (parser : ptr) (name value : string)
  : Outcome Heap :=
  '(h, opt) <- option_new_str h value;;
  add_option h parser name opt.

Definition argparser_add_int (h : Heap) (parser : ptr) (name : string) (value : Z)
  : Outcome Heap :=
  '(h, opt) <- option_new_int h value;;
  add_option h parser name opt.

Definition argparser_add_float (h : Heap) (parser : ptr) (name : string)
  (value : double) : Outcome Heap :=
  '(h, opt) <- option_new_float h value;;
  add_option h parser name opt.

Definition argparser_add_flag_list (h : Heap) (parser : ptr) (name : string)
  : Outcome Heap :=
  '(h, opt) <- option_new_flag_list h;;
  add_option h parser name opt.

Definition argparser_add_str_list (h : Heap) (parser : ptr) (name : string)
  (greedy : bool) : Outcome Heap :=
  '(h, opt) <- option_new_str_list h greedy;;
  add_option h parser name opt.

Definition argparser_add_int_list (h : Heap) (parser : ptr) (name : string)
  (greedy : bool) : Outcome Heap :=
  '(h, opt) <- option_new_int_list h greedy;;
  add_option h parser name opt.

Definition argparser_add_float_list (h : Heap) (parser : ptr) (name : string)
  (greedy : bool) : Outcome Heap :=
  '(h, opt) <- option_new_float_list h greedy;;
  add_option h parser name opt.

(** *** Retrieve option values *)

(** Retrieve a registered Option instance. *)
Definition argparser_get_opt (h : Heap) (parser : ptr) (name : string) : Outcome ptr :=
  p <- load_parser h parser;;
  match map_get (options p) name with
  | Some opt => Ret opt
  | None =>
      Exit 1 stderr ("Abort: '" ++ name ++ "' is not a registered option." ++ newline)
  end.

Definition argparser_found (h : Heap) (parser : ptr) (name : string) : Outcome bool :=
  opt <- argparser_get_opt h parser name;;
  o <- load_opt h opt;;
  Ret (opt_found o).

Definition argparser_get_flag (h : Heap) (parser : ptr) (name : string) : Outcome bool :=
  opt <- argparser_get_opt h parser name;;
  option_get_flag h opt.

Definition argparser_get_str (h : Heap) (parser : ptr) (name : string)
  : Outcome string :=
  opt <- argparser_get_opt h parser name;;
  option_get_str h opt.

Definition argparser_get_int (h : Heap) (parser : ptr) (name : string) : Outcome Z :=
  opt <- argparser_get_opt h parser name;;
  option_get_int h opt.

Definition argparser_get_float (h : Heap) (parser : ptr) (name : string)
  : Outcome double :=
  opt <- argparser_get_opt h parser name;;
  option_get_float h opt.

Definition argparser_len_list (h : Heap) (parser : ptr) (name : string) : Outcome nat :=
  opt <- argparser_get_opt h parser name;;
  o <- load_opt h opt;;
  Ret (length (opt_values o)).

Definition argparser_get_flag_list (h : Heap) (parser : ptr) (name : string)
  : Outcome (option (list bool)) :=
  opt <- argparser_get_opt h parser name;;
  option_get_flag_list h opt.

Definition argparser_get_str_list (h : Heap) (parser : ptr) (name : string)
  : Outcome (option (list string)) :=
  opt <- argparser_get_opt h parser name;;
  option_get_str_list h opt.

Definition argparser_get_int_list (h : Heap) (parser : ptr) (name : string)
  : Outcome (option (list Z)) :=
  opt <- argparser_get_opt h parser name;;
  option_get_int_list h opt.

Definition argparser_get_float_list (h : Heap) (parser : ptr) (name : string)
  : Outcome (option (list double)) :=
  opt <- argparser_get_opt h parser name;;
  option_get_float_list h opt.

(** *** Set option values *)

Definition argparser_clear_list (h : Heap) (parser : ptr) (name : string)
  : Outcome Heap :=
  opt <- argparser_get_opt h parser name;;
  option_clear h opt.

Definition argparser_set_flag (h : Heap) (parser : ptr) (name : string) (value : bool)
  : Outcome Heap :=
  opt <- argparser_get_opt h parser name;;
  option_set_flag h opt value.

Definition argparser_set_str (h : Heap) (parser : ptr) (name value : string)
  : Outcome Heap :=
  opt <- argparser_get_opt h parser name;;
  option_set_str h opt value.

Definition argparser_set_int (h : Heap) (parser : ptr) (name : string) (value : Z)
  : Outcome Heap :=
  opt <- argparser_get_opt h parser name;;
  option_set_int h opt value.

Definition argparser_set_float (h : Heap) (parser : ptr) (name : string)
  (value : double) : Outcome Heap :=
  opt <- argparser_get_opt h parser name;;
  option_set_float h opt value.

(** *** Positional arguments *)

Definition argparser_has_args (h : Heap) (parser : ptr) : Outcome bool :=
  p <- load_parser h parser;;
  Ret (0 <? length (arguments p)).

Definition argparser_len_args (h : Heap) (parser : ptr) : Outcome nat :=
  p <- load_parser h parser;;
  Ret (length (arguments p)).

Definition argparser_get_arg (h : Heap) (parser : ptr) (index : nat) : Outcome string :=
  p <- load_parser h parser;;
  match arguments p !! index with
  | Some arg => Ret arg
  | None => Fault
  end.

Definition argparser_get_args (h : Heap) (parser : ptr) : Outcome (list string) :=
  p <- load_parser h parser;;
  Ret (arguments p).

(** The loop of [argparser_get_args_as_ints] over the positional
    arguments, first to last. *)
Fixpoint args_as_ints (args : list string) : Outcome (list Z) :=
  match args with
  | [] => Ret []
  | arg :: rest =>
      i <- try_str_to_int arg;;
      ints <- args_as_ints rest;;
      Ret (i :: ints)
  end.

Definition argparser_get_args_as_ints (h : Heap) (parser : ptr) : Outcome (list Z) :=
  p <- load_parser h parser;;
  args_as_ints (arguments p).

Fixpoint args_as_floats (args : list string) : Outcome (list double) :=
  match args with
  | [] => Ret []
  | arg :: rest =>
      d <- try_str_to_double arg;;
      ds <- args_as_floats rest;;
      Ret (d :: ds)
  end.

Definition argparser_get_args_as_floats (h : Heap) (parser : ptr)
  : Outcome (list double) :=
  p <- load_parser h parser;;
  args_as_floats (arguments p).

(** *** Commands *)

(** Register a command and its associated callback. *)
Definition argparser_add_cmd (h : Heap) (parser : ptr) (name : string)
  (helptext : option string) (callback : option CmdCB) : Outcome (Heap * ptr) :=
  let '(h, cmd_parser) := argparser_new h helptext None in
  c <- load_parser h cmd_parser;;
  h <- store_parser h cmd_parser (set_parent c parser);;
  p <- load_parser h parser;;
  h <- store_parser h parser
         (set_commands p (map_add_splitkey (commands p) name cmd_parser));;
  p <- load_parser h parser;;
  h <- store_parser h parser
         (set_callbacks p (map_add_splitkey (callbacks p) name callback));;
  Ret (h, cmd_parser).

Definition argparser_has_cmd (h : Heap) (parser : ptr) : Outcome bool :=
  p <- load_parser h parser;;
  Ret (match cmd_name p with Some _ => true | None => false end).

Definition argparser_get_cmd_name (h : Heap) (parser : ptr) : Outcome (option string) :=
  p <- load_parser h parser;;
  Ret (cmd_name p).

Definition argparser_get_cmd_parser (h : Heap) (parser : ptr) : Outcome (option ptr) :=
  p <- load_parser h parser;;
  Ret (cmd_parser p).

Definition argparser_get_parent (h : Heap) (parser : ptr) : Outcome (option ptr) :=
  p <- load_parser h parser;;
  Ret (parent p).

(** *** Parse arguments *)

(** [strchr_split s c] cuts [s] at the first occurrence of [c]: the text
    before it and the text after it.  [None] when [strchr(s, c)] is NULL. *)
Fixpoint strchr_split (s : string) (c : ascii) : option (string * string) :=
  match s with
  | EmptyString => None
  | String a s' =>
      if Ascii.eqb a c then Some (EmptyString, s')
      else match strchr_split s' c with
           | Some (before, after) => Some (String a before, after)
           | None => None
           end
  end.

(** [strstr(arg, "=") != NULL] *)
Definition has_equals (arg : string) : bool :=
  match strchr_split arg "=" with
  | Some _ => true
  | None => false
  end.

Definition append_argument (h : Heap) (parser : ptr) (arg : string) : Outcome Heap :=
  p <- load_parser h parser;;
  store_parser h parser (set_arguments p (arglist_append (arguments p) arg)).

(** Parse an option of the form --name=value or -n=value. *)
Definition argparser_parse_equals_option (h : Heap) (parser : ptr)
  (prefix arg : string) : Outcome Heap :=
  match strchr_split arg "=" with
  | None => Fault
  | Some (name, value) =>
      p <- load_parser h parser;;
      match map_get (options p) name with
      | None => err (prefix ++ name ++ " is not a recognised option")
      | Some opt =>
          h <- set_found h opt true;;
          o <- load_opt h opt;;
          match opt_type o with
          | FLAG => err ("invalid format for boolean flag " ++ prefix ++ name)
          | _ =>
              if strlen value =? 0 then
                err ("missing argument for the " ++ prefix ++ name ++ " option")
              else option_try_set h opt value
          end
      end
  end.

(** The loop of a greedy list: keep trying to parse values until we run out
    of arguments. *)
Fixpoint greedy_loop (fuel : nat) (h : Heap) (opt : ptr) (stream : ArgStream)
  {struct fuel} : M (Heap * ArgStream) :=
  more <~ lift (argstream_has_next_value stream);;
  if more : bool then
    match fuel with
    | 0 => None
    | S fuel =>
        '(arg, stream) <~ lift (argstream_next stream);;
        h <~ lift (option_try_set h opt arg);;
        greedy_loop fuel h opt stream
    end
  else lift (Ret (h, stream)).

(** Parse a long-form option, i.e. an option beginning with a double dash. *)
Definition argparser_parse_long_option (fuel : nat) (h : Heap) (parser : ptr)
  (arg : string) (stream : ArgStream) : M (Heap * ArgStream) :=
  if has_equals arg then
    h <~ lift (argparser_parse_equals_option h parser "--" arg);;
    lift (Ret (h, stream))
  else
    p <~ lift (load_parser h parser);;
    if map_contains (options p) arg then
      match map_get (options p) arg with
      | None => lift Fault
      | Some opt =>
          h <~ lift (set_found h opt true);;
          o <~ lift (load_opt h opt);;
          match opt_type o with
          | FLAG =>
              h <~ lift (option_set_flag h opt true);;
              lift (Ret (h, stream))
          | _ =>
              more <~ lift (argstream_has_next_value stream);;
              if more : bool then
                '(value, stream) <~ lift (argstream_next stream);;
                h <~ lift (option_try_set h opt value);;
                o <~ lift (load_opt h opt);;
                if opt_greedy o then greedy_loop fuel h opt stream
                else lift (Ret (h, stream))
              else lift (err ("missing argument for the --" ++ arg ++ " option"))
          end
      end
    else
      match (if String.eqb arg "help" then helptext p else None) with
      | Some text => lift (Exit 0 stdout (text ++ newline))
      | None =>
          match (if String.eqb arg "version" then version p else None) with
          | Some text => lift (Exit 0 stdout (text ++ newline))
          | None => lift (err ("--" ++ arg ++ " is not a recognised option"))
          end
      end.

(** The loop of [argparser_parse_short_option] over the characters of
    [arg], from the character at [i] on. *)
Fixpoint short_option_loop (fuel : nat) (h : Heap) (parser : ptr) (arg : string)
  (stream : ArgStream) {struct arg} : M (Heap * ArgStream) :=
  match arg with
  | EmptyString => lift (Ret (h, stream))
  | String c rest =>
      let key := String c EmptyString in
      p <~ lift (load_parser h parser);;
      match map_get (options p) key with
      | None => lift (err ("-" ++ key ++ " is not a recognised option"))
      | Some opt =>
          h <~ lift (set_found h opt true);;
          o <~ lift (load_opt h opt);;
          '(h, stream) <~
            match opt_type o with
            | FLAG =>
                h <~ lift (option_set_flag h opt true);;
                lift (Ret (h, stream))
            | _ =>
                more <~ lift (argstream_has_next_value stream);;
                if more : bool then
                  '(value, stream) <~ lift (argstream_next stream);;
                  h <~ lift (option_try_set h opt value);;
                  o <~ lift (load_opt h opt);;
                  if opt_greedy o then greedy_loop fuel h opt stream
                  else lift (Ret (h, stream))
                else lift (err ("missing argument for the -" ++ key ++ " option"))
            end;;
          short_option_loop fuel h parser rest stream
      end
  end.

(** Parse a short-form option, i.e. an option beginning with a single dash. *)
Definition argparser_parse_short_option (fuel : nat) (h : Heap) (parser : ptr)
  (arg : string) (stream : ArgStream) : M (Heap * ArgStream) :=
  if has_equals arg then
    h <~ lift (argparser_parse_equals_option h parser "-" arg);;
    lift (Ret (h, stream))
  else short_option_loop fuel h parser arg stream.

(** The body of the loop of [argparser_parse_stream], for the argument
    [arg] just fetched from the stream.  [parsing] is the switch that a
    double dash turns off; [recurse] is the recursive call that parses the
    rest of the stream with the parser of a command. *)
Definition parse_argument
  (recurse : Heap -> ptr -> ArgStream -> M (Heap * ArgStream))
  (fuel : nat) (h : Heap) (parser : ptr) (arg : string) (stream : ArgStream)
  (parsing : bool) : M (Heap * ArgStream * bool) :=
  if negb parsing then
    h <~ lift (append_argument h parser arg);;
    lift (Ret (h, stream, parsing))
  else if String.eqb arg "--" then
    lift (Ret (h, stream, false))
  else if has_prefix "--" arg then
    '(h, stream) <~ argparser_parse_long_option fuel h parser (offset arg 2) stream;;
    lift (Ret (h, stream, parsing))
  else if Ascii.eqb (char_at arg 0) "-" then
    if (strlen arg =? 1) || isdigit (char_at arg 1) then
      h <~ lift (append_argument h parser arg);;
      lift (Ret (h, stream, parsing))
    else
      '(h, stream) <~ argparser_parse_short_option fuel h parser (offset arg 1) stream;;
      lift (Ret (h, stream, parsing))
  else
    p <~ lift (load_parser h parser);;
    if map_contains (commands p) arg then
      match map_get (commands p) arg with
      | None => lift Fault
      | Some cmd_parser =>
          let cmd_callback := mjoin (map_get (callbacks p) arg) in
          h <~ lift (store_parser h parser (set_cmd p arg cmd_parser));;
          '(h, stream) <~ recurse h cmd_parser stream;;
          match cmd_callback with
          | Some cb =>
              h <~ lift (invoke cb cmd_parser h);;
              lift (Ret (h, stream, parsing))
          | None => lift (Ret (h, stream, parsing))
          end
      end
    else if String.eqb arg "help" then
      if argstream_has_next stream then
        '(name, stream) <~ lift (argstream_next stream);;
        if map_contains (commands p) name then
          match map_get (commands p) name with
          | None => lift Fault
          | Some cmd_parser =>
              c <~ lift (load_parser h cmd_parser);;
              match helptext c with
              | Some text => lift (Exit 0 stdout (text ++ newline))
              | None => lift Fault
              end
          end
        else lift (err ("'" ++ name ++ "' is not a recognised command"))
      else lift (err "the help command requires an argument")
    else
      h <~ lift (append_argument h parser arg);;
      lift (Ret (h, stream, parsing)).

(** Parse a stream of string arguments: loop while we have arguments to
    process.  [fuel] bounds the number of arguments read. *)
Fixpoint argparser_parse_stream (fuel : nat) (h : Heap) (parser : ptr)
  (stream : ArgStream) (parsing : bool) {struct fuel} : M (Heap * ArgStream) :=
  if argstream_has_next stream then
    match fuel with
    | 0 => None
    | S fuel =>
        '(arg, stream) <~ lift (argstream_next stream);;
        '(h, stream, parsing) <~
          parse_argument
            (fun h cmd_parser stream =>
               argparser_parse_stream fuel h cmd_parser stream true)
            fuel h parser arg stream parsing;;
        argparser_parse_stream fuel h parser stream parsing
    end
  else lift (Ret (h, stream)).

(** Parse an array of string arguments. *)
Definition argparser_parse (h : Heap) (parser : ptr) (len : nat) (args : list string)
  : M Heap :=
  let stream := argstream_new len args in
  '(h, _) <~ argparser_parse_stream len h parser stream true;;
  lift (Ret h).

(* ------------------------------------------------------------------------- *)
(** ** Public interface *)
(* ------------------------------------------------------------------------- *)

Definition ap_new := argparser_new.

(** The first element of [argv] is the program name and is ignored. *)
Definition ap_parse (h : Heap) (parser : ptr) (argc : nat) (argv : list string)
  : M Heap :=
  argparser_parse h parser (argc - 1) (tail argv).

Definition ap_add_flag := argparser_add_flag.
Definition ap_add_str := argparser_add_str.
Definition ap_add_int := argparser_add_int.
Definition ap_add_float := argparser_add_float.
Definition ap_add_flag_list := argparser_add_flag_list.
Definition ap_add_str_list := argparser_add_str_list.
Definition ap_add_int_list := argparser_add_int_list.
Definition ap_add_float_list := argparser_add_float_list.
Definition ap_add_cmd := argparser_add_cmd.
Definition ap_found := argparser_found.
Definition ap_get_flag := argparser_get_flag.
Definition ap_get_str := argparser_get_str.
Definition ap_get_int := argparser_get_int.
Definition ap_get_float := argparser_get_float.
Definition ap_get_flag_list := argparser_get_flag_list.
Definition ap_get_str_list := argparser_get_str_list.
Definition ap_get_int_list := argparser_get_int_list.
Definition ap_get_float_list := argparser_get_float_list.
Definition ap_len_list := argparser_len_list.
Definition ap_clear_list := argparser_clear_list.
Definition ap_set_flag := argparser_set_flag.
Definition ap_set_str := argparser_set_str.
Definition ap_set_int := argparser_set_int.
Definition ap_set_float := argparser_set_float.
Definition ap_has_args := argparser_has_args.
Definition ap_len_args := argparser_len_args.
Definition ap_get_arg := argparser_get_arg.
Definition ap_get_args := argparser_get_args.
Definition ap_get_args_as_ints := argparser_get_args_as_ints.
Definition ap_get_args_as_floats := argparser_get_args_as_floats.
Definition ap_has_cmd := argparser_has_cmd.
Definition ap_get_cmd_name := argparser_get_cmd_name.
Definition ap_get_cmd_parser := argparser_get_cmd_parser.
Definition ap_get_parent := argparser_get_parent.

(* ------------------------------------------------------------------------- *)
(** ** Vocabulary of the specification *)
(* ------------------------------------------------------------------------- *)

(** A token is value-shaped unless it begins with a dash, is longer than one
    character and its second character is not a digit. *)
Definition spec_value_shaped (tok : string) : bool :=
  negb (Ascii.eqb (char_at tok 0) "-"
        && (1 <? strlen tok)
        && negb (isdigit (char_at tok 1))).

(** The bare dash, and a dash followed by a digit. *)
Definition dash_or_dash_digit (tok : string) : bool :=
  String.eqb tok "-"
  || (Ascii.eqb (char_at tok 0) "-" && isdigit (char_at tok 1)).

(** The stream with its cursor moved past one argument. *)
Definition advance (stream : ArgStream) : ArgStream :=
  {| len := len stream; index := S (index stream); args := args stream |}.

Fixpoint advance_by (n : nat) (stream : ArgStream) : ArgStream :=
  match n with
  | 0 => stream
  | S n => advance_by n (advance stream)
  end.

(** [tok] is the argument under the cursor. *)
Definition next_is (stream : ArgStream) (tok : string) : Prop :=
  index stream < len stream /\ args stream !! index stream = Some tok.

(** The arguments from the cursor on start with [toks]. *)
Fixpoint next_are (stream : ArgStream) (toks : list string) : Prop :=
  match toks with
  | [] => True
  | tok :: toks => next_is stream tok /\ next_are (advance stream) toks
  end.

(** The value that [option_try_set] stores for a text, by option type;
    [None] for a flag, which stores nothing. *)
Definition coerce (t : OptionType) (arg : string) : Outcome (option OptionValue) :=
  match t with
  | STRING => Ret (Some (str_val arg))
  | INTEGER => v <- try_str_to_int arg;; Ret (Some (int_val v))
  | FLOAT => v <- try_str_to_double arg;; Ret (Some (float_val v))
  | FLAG => Ret None
  end.

Definition push_value (o : Option) (v : OptionValue) : Option :=
  with_values o (opt_values o ++ [v])%list.

(** The option after it was matched on the command line with value [v]. *)
Definition matched (o : Option) (v : OptionValue) : Option :=
  push_value (with_found o true) v.

(** Every option of [h] is still there in [h'], with its type and with
    its values extended at the end. *)
Definition grows (h h' : Heap) : Prop :=
  forall opt o, load_opt h opt = Ret o ->
    exists o', load_opt h' opt = Ret o'
      /\ opt_type o' = opt_type o
      /\ opt_values o `prefix_of` opt_values o'.

(** A scalar option to register: its type, with its default. *)
Inductive Scalar : Type :=
| scalar_str (default : string)
| scalar_int (default : Z)
| scalar_float (default : double).

Definition scalar_type (c : Scalar) : OptionType :=
  match c with
  | scalar_str _ => STRING
  | scalar_int _ => INTEGER
  | scalar_float _ => FLOAT
  end.

Definition ap_add_scalar (h : Heap) (parser : ptr) (name : string) (c : Scalar)
  : Outcome Heap :=
  match c with
  | scalar_str default => ap_add_str h parser name default
  | scalar_int default => ap_add_int h parser name default
  | scalar_float default => ap_add_float h parser name default
  end.

(** The current value of an option, read by the getter of its type. *)
Definition ap_get_scalar (h : Heap) (parser : ptr) (name : string) (t : OptionType)
  : Outcome OptionValue :=
  match t with
  | FLAG => b <- ap_get_flag h parser name;; Ret (bool_val b)
  | STRING => s <- ap_get_str h parser name;; Ret (str_val s)
  | INTEGER => i <- ap_get_int h parser name;; Ret (int_val i)
  | FLOAT => d <- ap_get_float h parser name;; Ret (float_val d)
  end.

(** A token that is neither option syntax nor the help command: a bare
    dash, a dash followed by a digit, or a text without a leading dash
    other than [help]. *)
Definition plain_positional (tok : string) : bool :=
  dash_or_dash_digit tok
  || (negb (Ascii.eqb (char_at tok 0) "-") && negb (String.eqb tok "help")).

(** A text that cannot continue a numeral: it is empty or starts with
    a character that is not a digit. *)
Definition no_digit_start (tail : string) : bool :=
  match tail with
  | EmptyString => true
  | String c _ => negb (isdigit c)
  end.

(** A text that would turn a leading zero into a hexadecimal prefix. *)
Definition starts_with_x (tail : string) : bool :=
  match tail with
  | EmptyString => false
  | String c _ => Ascii.eqb c "x" || Ascii.eqb c "X"
  end.

(** What [strtol] returns for a numeral of value [z] followed by [tail]:
    the value brought into the range of [long], the text left, the range
    error. *)
Definition clamp_long (z : Z) (tail : string) : Z * string * bool :=
  if (LONG_MAX <? z)%Z then (LONG_MAX, tail, true)
  else if (z <? LONG_MIN)%Z then (LONG_MIN, tail, true)
  else (z, tail, false).

(** An option as its constructor leaves it. *)
Definition fresh_option (t : OptionType) (greedy : bool) (vs : list OptionValue)
  : Option :=
  {| opt_type := t; opt_found := false; opt_greedy := greedy; opt_values := vs |}.

(** The cursor of [s'] is at or after the cursor of [s], on the same
    arguments. *)
Definition stream_le (s s' : ArgStream) : Prop :=
  len s' = len s /\ args s' = args s /\ index s <= index s'.

(** The bound was large enough for the computation [m] started on the
    stream [s], and what it returns is a stream further on. *)
Definition total_on {A : Type} (s : ArgStream) (proj : A -> ArgStream) (m : M A)
  : Prop :=
  exists o, m = Some o /\ forall a, o = Ret a -> stream_le s (proj a).

(** The callbacks of the program leave the values of the options in
    place. *)
Definition callbacks_grow : Prop :=
  forall cb parser h h', invoke cb parser h = Ret h' -> grows h h'.

(** The calls of the public interface that build or change a parser.  The
    queries are functions of the store and return none. *)
Inductive PublicOp : Type :=
| op_new (helptext version : option string)
| op_parse (parser : ptr) (argc : nat) (argv : list string)
| op_add_flag (parser : ptr) (name : string)
| op_add_str (parser : ptr) (name value : string)
| op_add_int (parser : ptr) (name : string) (value : Z)
| op_add_float (parser : ptr) (name : string) (value : double)
| op_add_flag_list (parser : ptr) (name : string)
| op_add_str_list (parser : ptr) (name : string) (greedy : bool)
| op_add_int_list (parser : ptr) (name : string) (greedy : bool)
| op_add_float_list (parser : ptr) (name : string) (greedy : bool)
| op_add_cmd (parser : ptr) (name : string) (helptext : option string)
    (callback : option CmdCB)
| op_set_flag (parser : ptr) (name : string) (value : bool)
| op_set_str (parser : ptr) (name value : string)
| op_set_int (parser : ptr) (name : string) (value : Z)
| op_set_float (parser : ptr) (name : string) (value : double)
| op_clear_list (parser : ptr) (name : string).

Definition is_clear_list (op : PublicOp) : bool :=
  match op with
  | op_clear_list _ _ => true
  | _ => false
  end.

Definition run_op (h : Heap) (op : PublicOp) : M Heap :=
  match op with
  | op_new helptext version => lift (Ret (fst (ap_new h helptext version)))
  | op_parse parser argc argv => ap_parse h parser argc argv
  | op_add_flag parser name => lift (ap_add_flag h parser name)
  | op_add_str parser name value => lift (ap_add_str h parser name value)
  | op_add_int parser name value => lift (ap_add_int h parser name value)
  | op_add_float parser name value => lift (ap_add_float h parser name value)
  | op_add_flag_list parser name => lift (ap_add_flag_list h parser name)
  | op_add_str_list parser name greedy => lift (ap_add_str_list h parser name greedy)
  | op_add_int_list parser name greedy => lift (ap_add_int_list h parser name greedy)
  | op_add_float_list parser name greedy =>
      lift (ap_add_float_list h parser name greedy)
  | op_add_cmd parser name helptext callback =>
      lift ('(h, _) <- ap_add_cmd h parser name helptext callback;; Ret h)
  | op_set_flag parser name value => lift (ap_set_flag h parser name value)
  | op_set_str parser name value => lift (ap_set_str h parser name value)
  | op_set_int parser name value => lift (ap_set_int h parser name value)
  | op_set_float parser name value => lift (ap_set_float h parser name value)
  | op_clear_list parser name => lift (ap_clear_list h parser name)
  end.

(** *** Stores of the examples *)

(** A parser without help text, commands or arguments, with the options
    [opts]. *)
Definition plain_parser (opts : Map ptr) : ArgParser :=
  {| helptext := None; version := None; options := opts;
     commands := map_new; callbacks := map_new; arguments := arglist_new;
     cmd_name := None; cmd_parser := None; parent := None |}.

(** The store of one such parser, at address 0, and of its options. *)
Definition plain_heap (os : list Option) (opts : Map ptr) : Heap :=
  {| heap_options := os; heap_parsers := [plain_parser opts] |}.

End Clio.

(** A platform without floating-point conversions and a program without
    callbacks, to run the library on concrete command lines that use
    neither. *)
Definition no_float : Libc :=
  {| double := unit; strtod := fun s => (tt, s, false) |}.

Definition no_callbacks : @Callbacks no_float :=
  {| invoke := fun _ _ h => Ret h |}.

(* ------------------------------------------------------------------------- *)
(** ** Teardown *)
(* ------------------------------------------------------------------------- *)

Section Teardown.

Context `{libc : Libc} `{cbs : !Callbacks}.

(** The [Option]s and the [ArgParser]s that were passed to [free] so far,
    by address.  The other blocks (keys, arrays of entries, arrays of
    values, the maps and the list of a parser) belong to one object each and
    go with it. *)
Record Freed : Type := {
  freed_options : list ptr;
  freed_parsers : list ptr;
}.

Definition nothing_freed : Freed := {| freed_options := []; freed_parsers := [] |}.

(** Free the memory occupied by an Option instance: [opt->values] is read,
    then the two blocks are freed.  A second [free] of a block is undefined. *)
Definition option_free (h : Heap) (f : Freed) (opt : ptr) : Outcome Freed :=
  if bool_decide (opt ∈ freed_options f) then Fault
  else
    _ <- load_opt h opt;;
    Ret {| freed_options := (freed_options f ++ [opt])%list;
           freed_parsers := freed_parsers f |}.

(** Callback for freeing an Option instance stored in a Map. *)
Definition option_free_cb (h : Heap) (f : Freed) (opt : ptr) : M Freed :=
  lift (option_free h f opt).

(** The loop of [map_free] over the entries; [freed_values] is the list of
    values freed so far, which the inner loop searches. *)
Fixpoint map_free_loop {V : Type} `{EqDecision V}
  (free_cb : option (Freed -> V -> M Freed)) (entries : Map V)
  (freed_values : list V) (f : Freed) : M Freed :=
  match entries with
  | [] => lift (Ret f)
  | (key, value) :: entries =>
      let freed := bool_decide (value ∈ freed_values) in
      if freed then map_free_loop free_cb entries freed_values f
      else
        f <~ match free_cb with
             | Some cb => cb f value
             | None => lift (Ret f)
             end;;
        map_free_loop free_cb entries (freed_values ++ [value])%list f
  end.

(** Free the memory occupied by a Map instance and all its values. *)
Definition map_free {V : Type} `{EqDecision V}
  (free_cb : option (Freed -> V -> M Freed)) (map : Map V) (f : Freed) : M Freed :=
  map_free_loop free_cb map [] f.

(** Free the memory associated with an ArgParser instance.  [fuel] bounds
    the nesting of the commands. *)
Fixpoint argparser_free (fuel : nat) (h : Heap) (f : Freed) (parser : ptr)
  {struct fuel} : M Freed :=
  match fuel with
  | 0 => None
  | S fuel =>
      if bool_decide (parser ∈ freed_parsers f) then lift Fault
      else
        p <~ lift (load_parser h parser);;
        f <~ map_free (Some (option_free_cb h)) (options p) f;;
        f <~ map_free (Some (argparser_free fuel h)) (commands p) f;;
        f <~ map_free None (callbacks p) f;;
        lift (Ret {| freed_options := freed_options f;
                     freed_parsers := (freed_parsers f ++ [parser])%list |})
  end.

(** A command parser is allocated after its parent, so that the number of
    parsers bounds the nesting. *)
Definition ap_free (h : Heap) (parser : ptr) : M Freed :=
  argparser_free (length (heap_parsers h)) h nothing_freed parser.

End Teardown.

(* ------------------------------------------------------------------------- *)
(** ** The program [en] *)
(* ------------------------------------------------------------------------- *)

(** What [err.h] prints: the name of the program before a message, and
    after the message of [err] the text of [errno]. *)
Class ErrH : Type := {
  progname : string;
  strerror_errno : string;
}.

Section En.

Context `{libc : Libc} `{errh : ErrH}.

Definition errh_err {A : Type} (status : Z) (msg : string) : Outcome A :=
  Exit status stderr (progname ++ ": " ++ msg ++ ": " ++ strerror_errno ++ newline).

Definition errx {A : Type} (status : Z) (msg : string) : Outcome A :=
  Exit status stderr (progname ++ ": " ++ msg ++ newline).

(** [snprintf(cmd, size, ...)] stores the formatted text cut to [size - 1]
    characters. *)
Definition snprintf (size : nat) (formatted : string) : string :=
  String.substring 0 (size - 1) formatted.

(** [system] hands the command to a shell and returns; what the command
    does is outside the program. *)
Definition system (cmd : string) (h : Heap) : Outcome Heap := Ret h.

(** The command that [ip_show] builds in its buffer of 256 characters. *)
Definition ip_show_cmd (h : Heap) (ap : ptr) : Outcome string :=
  has_args <- ap_has_args h ap;;
  if has_args : bool then
    arg <- ap_get_arg h ap 0;;
    Ret (snprintf 256 ("ifconfig " ++ arg))
  else Ret "ifconfig".

Definition ip_show (h : Heap) (ap : ptr) : Outcome Heap :=
  cmd <- ip_show_cmd h ap;;
  system cmd h.

(** [ip_show] is the one callback of the program. *)
Definition ip_show_address : CmdCB := 0.

Definition en_callbacks : Callbacks :=
  {| invoke := fun _ ap h => ip_show h ap |}.

(** [ap_add_cmd] returns the address of the parser it allocates, which is
    not NULL: the result is 0. *)
Definition ip_init (h : Heap) (ap : ptr) : Outcome (Heap * Z) :=
  '(h, _) <- ap_add_cmd h ap "show" (Some "Command!") (Some ip_show_address);;
  Ret (h, 0%Z).

(** [ap_new] returns the address of the parser it allocates, which is not
    NULL. *)
Definition main (argc : nat) (argv : list string) : M Z :=
  let '(h, ap) := ap_new empty_heap (Some "Help!") (Some "Version!") in
  '(h, failed) <~ lift (ip_init h ap);;
  if negb (failed =? 0)%Z then lift (errh_err 1 "Failed ip init")
  else
    h <~ ap_parse (cbs := en_callbacks) h ap argc argv;;
    has_cmd <~ lift (ap_has_cmd h ap);;
    if negb has_cmd then lift (errx 1 "Missing cmd")
    else
      _ <~ ap_free h ap;;
      lift (Ret 0%Z).

End En.

Section EnStore.
Context `{libc : Libc}.

(** The store that [main] has built when it parses: the parser of the
    program at address 0, the parser of the command [show] at address 1. *)
Definition en_root : ArgParser :=
  {| helptext := Some "Help!"; version := Some "Version!"; options := map_new;
     commands := [("show", 1)]; callbacks := [("show", Some ip_show_address)];
     arguments := arglist_new; cmd_name := None; cmd_parser := None; parent := None |}.

Definition en_show : ArgParser :=
  {| helptext := Some "Command!"; version := None; options := map_new;
     commands := map_new; callbacks := map_new;
     arguments := arglist_new; cmd_name := None; cmd_parser := None; parent := Some 0 |}.

Definition en_heap : Heap :=
  {| heap_options := []; heap_parsers := [en_root; en_show] |}.

End EnStore.

(** The program [en] as the shell starts it. *)
Definition en_errh : ErrH := {| progname := "en"; strerror_errno := "Success" |}.

(* ------------------------------------------------------------------------- *)
(** ** Vocabulary of the properties *)
(* ------------------------------------------------------------------------- *)

Section Vocabulary.

Context `{libc : Libc} `{cbs : !Callbacks}.

(** The registrations of the interface: the kind of option, with its
    default or its greediness. *)
Inductive Registration : Type :=
| reg_flag
| reg_str (value : string)
| reg_int (value : Z)
| reg_float (value : double)
| reg_flag_list
| reg_str_list (greedy : bool)
| reg_int_list (greedy : bool)
| reg_float_list (greedy : bool).

Definition ap_add (h : Heap) (parser : ptr) (name : string) (r : Registration)
  : Outcome Heap :=
  match r with
  | reg_flag => ap_add_flag h parser name
  | reg_str value => ap_add_str h parser name value
  | reg_int value => ap_add_int h parser name value
  | reg_float value => ap_add_float h parser name value
  | reg_flag_list => ap_add_flag_list h parser name
  | reg_str_list greedy => ap_add_str_list h parser name greedy
  | reg_int_list greedy => ap_add_int_list h parser name greedy
  | reg_float_list greedy => ap_add_float_list h parser name greedy
  end.

(** The option that a registration allocates. *)
Definition registered (r : Registration) : Option :=
  match r with
  | reg_flag => fresh_option FLAG false [bool_val false]
  | reg_str value => fresh_option STRING false [str_val value]
  | reg_int value => fresh_option INTEGER false [int_val value]
  | reg_float value => fresh_option FLOAT false [float_val value]
  | reg_flag_list => fresh_option FLAG false []
  | reg_str_list greedy => fresh_option STRING greedy []
  | reg_int_list greedy => fresh_option INTEGER greedy []
  | reg_float_list greedy => fresh_option FLOAT greedy []
  end.

(** The member of the union that a value was written through. *)
Definition value_type (v : OptionValue) : OptionType :=
  match v with
  | bool_val _ => FLAG
  | str_val _ => STRING
  | int_val _ => INTEGER
  | float_val _ => FLOAT
  end.

(** The setter of the interface for a value. *)
Definition ap_set (h : Heap) (parser : ptr) (name : string) (v : OptionValue)
  : Outcome Heap :=
  match v with
  | bool_val b => ap_set_flag h parser name b
  | str_val s => ap_set_str h parser name s
  | int_val i => ap_set_int h parser name i
  | float_val d => ap_set_float h parser name d
  end.

(** The text printed for a name that is not registered. *)
Definition abort_text (name : string) : string :=
  "Abort: '" ++ name ++ "' is not a registered option." ++ newline.

(** [n] times the character [c]. *)
Fixpoint repeat_char (n : nat) (c : ascii) : string :=
  match n with
  | 0 => EmptyString
  | S n => String c (repeat_char n c)
  end.

(** A name without a space in it, and not empty. *)
Fixpoint no_space (s : string) : bool :=
  match s with
  | EmptyString => true
  | String c s => negb (Ascii.eqb c " ") && no_space s
  end.

Definition is_word (s : string) : bool :=
  negb (String.eqb s "") && no_space s.

(** The parser that [argparser_new] allocates for a command: the help text
    of the command, no version, nothing registered. *)
Definition plain_parser_with (help : option string) : ArgParser :=
  {| helptext := help; version := None; options := map_new; commands := map_new;
     callbacks := map_new; arguments := arglist_new;
     cmd_name := None; cmd_parser := None; parent := None |}.

(** The value of the numeral that the characters of [s] write in [base],
    the most significant digit first. *)
Definition numeral (base : Z) (s : string) : Z :=
  fold_left (fun acc c => (acc * base + default 0 (digit_value c))%Z)
    (list_ascii_of_string s) 0%Z.

(** Every character of [s] is a digit of [base]. *)
Definition all_digits (base : Z) (s : string) : bool :=
  forallb (is_digit_in base) (list_ascii_of_string s).

(** The sign of a numeral, as a text. *)
Definition sign_text (neg : bool) : string := if neg then "-" else "".

Definition signed (neg : bool) (v : Z) : Z := if neg then (- v)%Z else v.

(** What parsing may do to an option: mark it as found and append values
    of its type. *)
Definition option_kept (o o' : Option) : Prop :=
  opt_type o' = opt_type o
  /\ opt_greedy o' = opt_greedy o
  /\ (opt_found o = true -> opt_found o' = true)
  /\ exists new,
       opt_values o' = (opt_values o ++ new)%list
       /\ Forall (fun v => value_type v = opt_type o) new.

(** What parsing may do to a parser: append positional arguments and
    record the command that was found. *)
Definition parser_kept (p p' : ArgParser) : Prop :=
  helptext p' = helptext p
  /\ version p' = version p
  /\ options p' = options p
  /\ commands p' = commands p
  /\ callbacks p' = callbacks p
  /\ parent p' = parent p
  /\ arguments p `prefix_of` arguments p'.

(** Nothing is allocated, and every option and every parser of [h] is
    kept in [h']. *)
Definition keeps (h h' : Heap) : Prop :=
  length (heap_options h') = length (heap_options h)
  /\ length (heap_parsers h') = length (heap_parsers h)
  /\ (forall opt o, load_opt h opt = Ret o ->
        exists o', load_opt h' opt = Ret o' /\ option_kept o o')
  /\ (forall parser p, load_parser h parser = Ret p ->
        exists p', load_parser h' parser = Ret p' /\ parser_kept p p').

(** The callbacks of the program do to the store no more than parsing
    does. *)
Definition callbacks_keep : Prop :=
  forall cb parser h h', invoke cb parser h = Ret h' -> keeps h h'.

(** Every name of every parser refers to an option or to a parser of the
    store, and every command has a help text. *)
Definition wf_heap (h : Heap) : Prop :=
  forall parser p, load_parser h parser = Ret p ->
    (forall key opt, map_get (options p) key = Some opt ->
       opt < length (heap_options h))
    /\ (forall key c, map_get (commands p) key = Some c ->
          exists pc, load_parser h c = Ret pc /\ helptext pc <> None).

(** The array of the stream holds the [len] arguments. *)
Definition wf_stream (s : ArgStream) : Prop := len s <= length (args s).

(** The callbacks of the program have no undefined behaviour on such a
    store. *)
Definition callbacks_safe : Prop :=
  forall cb parser h,
    wf_heap h -> parser < length (heap_parsers h) -> invoke cb parser h <> Fault.



(** The values of an option are of its type. *)
Definition typed (o : Option) : Prop :=
  Forall (fun v => value_type v = opt_type o) (opt_values o).

(** The options of a store hold values of their type. *)
Definition typed_heap (h : Heap) : Prop :=
  forall opt o, load_opt h opt = Ret o -> typed o.



(** [opt] is the value of an entry of the options of [parser]; [c] is the
    value of an entry of its commands. *)
Definition owns (h : Heap) (parser opt : ptr) : Prop :=
  exists p k, load_parser h parser = Ret p /\ (k, opt) ∈ options p.

Definition child (h : Heap) (parser c : ptr) : Prop :=
  exists p k, load_parser h parser = Ret p /\ (k, c) ∈ commands p.

(** [x] is [parser] or the parser of a command under it, at any depth. *)
Inductive below (h : Heap) : ptr -> ptr -> Prop :=
| below_refl x : below h x x
| below_step x c y : child h x c -> below h c y -> below h x y.

(** The parsers of the store form trees: every option of a parser is in the
    store, every command parser is in the store and was allocated after its
    parent, and no option and no command parser is shared by two parsers. *)
Definition tree (h : Heap) : Prop :=
  (forall parser opt, owns h parser opt -> opt < length (heap_options h))
  /\ (forall parser c, child h parser c -> parser < c < length (heap_parsers h))
  /\ (forall parser1 parser2 opt,
        owns h parser1 opt -> owns h parser2 opt -> parser1 = parser2)
  /\ (forall parser1 parser2 c,
        child h parser1 c -> child h parser2 c -> parser1 = parser2).

(** What [argparser_free] needs of the blocks freed so far, and what it
    leaves: the subtree of [c] and its options are added, each once. *)
Definition free_pre (h : Heap) (c : ptr) (f : Freed) : Prop :=
  NoDup (freed_options f) /\ NoDup (freed_parsers f)
  /\ (forall x, below h c x -> x ∉ freed_parsers f)
  /\ (forall x opt, below h c x -> owns h x opt -> opt ∉ freed_options f).

Definition free_post (h : Heap) (c : ptr) (f f' : Freed) : Prop :=
  NoDup (freed_options f') /\ NoDup (freed_parsers f')
  /\ (forall x, x ∈ freed_parsers f' <-> x ∈ freed_parsers f \/ below h c x)
  /\ (forall opt, opt ∈ freed_options f' <->
        opt ∈ freed_options f \/ exists x, below h c x /\ owns h x opt).



(** *** Vocabulary of the claims as the code has them *)

(** The call is an [ap_clear_list] whose name refers to the option [opt]. *)
Definition clears_option (h : Heap) (op : PublicOp) (opt : ptr) : Prop :=
  match op with
  | op_clear_list parser name => argparser_get_opt h parser name = Ret opt
  | _ => False
  end.

(** *** Numerals, as [strtol] reads them with base 0 *)

(** White space only. *)
Definition all_space (ws : string) : bool :=
  forallb isspace (list_ascii_of_string ws).

(** No sign, a plus or a minus. *)
Definition is_sign (sg : string) : bool :=
  String.eqb sg "" || String.eqb sg "+" || String.eqb sg "-".

Definition negative (sg : string) : bool := String.eqb sg "-".

Definition is_x (c : ascii) : bool := Ascii.eqb c "x" || Ascii.eqb c "X".

(** The digits of a decimal numeral, which does not start with a zero; the
    digits after the leading zero of an octal numeral; the letter and the
    digits after the zero of a hexadecimal numeral. *)
Inductive Numeral : Type :=
| decimal (ds : string)
| octal (ds : string)
| hexadecimal (x : ascii) (ds : string).

Definition numeral_text (n : Numeral) : string :=
  match n with
  | decimal ds => ds
  | octal ds => String "0" ds
  | hexadecimal x ds => String "0" (String x ds)
  end.

Definition numeral_value (n : Numeral) : Z :=
  match n with
  | decimal ds => numeral 10 ds
  | octal ds => numeral 8 ds
  | hexadecimal _ ds => numeral 16 ds
  end.

Definition numeral_ok (n : Numeral) : bool :=
  match n with
  | decimal ds =>
      all_digits 10 ds
      && match ds with
         | String d _ => negb (Ascii.eqb d "0")
         | EmptyString => false
         end
  | octal ds => all_digits 8 ds
  | hexadecimal x ds => is_x x && all_digits 16 ds && negb (String.eqb ds "")
  end.

(** The text after a numeral does not go on with a digit of its base. *)
Definition ends_numeral (base : Z) (tail : string) : bool :=
  match tail with
  | EmptyString => true
  | String c _ => negb (is_digit_in base c)
  end.

(** The text after a lone zero that makes it a hexadecimal prefix. *)
Definition looks_hexadecimal (tail : string) : bool :=
  match tail with
  | String x (String d _) => is_x x && is_digit_in 16 d
  | _ => false
  end.

(** [tail] is what [strtol] leaves of the text after the numeral [n]: the
    numeral is the longest one at that place. *)
Definition numeral_ends (n : Numeral) (tail : string) : bool :=
  match n with
  | decimal _ => ends_numeral 10 tail
  | octal ds => ends_numeral 8 tail && negb (String.eqb ds "" && looks_hexadecimal tail)
  | hexadecimal _ _ => ends_numeral 16 tail
  end.

(** After white space and the sign [sg] the text [tail] starts no numeral:
    no digit, and without a sign before it no white space and no sign. *)
Definition no_numeral (sg tail : string) : bool :=
  match tail with
  | EmptyString => true
  | String c _ =>
      negb (isdigit c)
      && (negb (String.eqb sg "")
          || negb (isspace c || Ascii.eqb c "+" || Ascii.eqb c "-"))
  end.

(** [strtol] after the white space and the sign. *)
Definition strtol_from (nptr : string) (neg : bool) (s : string) : Z * string * bool :=
  let '(base, s) :=
    match s with
    | String "0" (String x (String d t)) =>
        if (Ascii.eqb x "x" || Ascii.eqb x "X") && is_digit_in 16 d
        then (16%Z, String d t) else (8%Z, s)
    | String "0" _ => (8%Z, s)
    | _ => (10%Z, s)
    end in
  let '(acc, any, rest) := strtol_digits base 0 false s in
  if negb any then (0%Z, nptr, false)
  else
    let v := if neg : bool then (- acc)%Z else acc in
    if (LONG_MAX <? v)%Z then (LONG_MAX, rest, true)
    else if (v <? LONG_MIN)%Z then (LONG_MIN, rest, true)
    else (v, rest, false).




(** The characters of a text are of the basic character set, for which
    [isdigit] is defined on a plain [char]. *)
Definition ascii_text (s : string) : bool :=
  forallb (fun c => nat_of_ascii c <? 128) (list_ascii_of_string s).

End Vocabulary.

(* ------------------------------------------------------------------------- *)
(** ** Printing *)
(* ------------------------------------------------------------------------- *)

(** The conversion ["%f"] of [printf] is taken from the platform; it
    writes at least one character.  [malloc_ok] tells whether [malloc]
    returns a block or NULL. *)
Class Stdio `{libc : Libc} : Type := {
  format_f : double -> string;
  format_f_not_empty : forall d, format_f d <> "";
  malloc_ok : bool;
}.

Section Printing.

Context `{libc : Libc} `{stdio : !Stdio}.

(** Print to an automatically-allocated string; NULL ([None]) when the
    formatted text is empty or memory cannot be allocated.  [formatted] is
    the text that [vsnprintf] makes of the format and its arguments. *)
Definition str (formatted : string) : option string :=
  if strlen formatted <? 1 then None
  else if malloc_ok then Some formatted
  else None.

(** Duplicate a string, automatically allocating memory for the copy; NULL
    when there is none. *)
Definition str_dup (arg : string) : option string :=
  if malloc_ok then Some arg else None.

(** The argument of a ["%s"]: a NULL pointer is undefined. *)
Definition percent_s (arg : option string) : Outcome string :=
  match arg with
  | Some s => Ret s
  | None => Fault
  end.

(** [valstr] in [option_str]: the text of one value, read through the
    member of the union that the type of the option names. *)
Definition value_str (t : OptionType) (v : OptionValue) : Outcome (option string) :=
  match t, v with
  | FLAG, bool_val b => Ret (str_dup (if b then "true" else "false"))
  | STRING, str_val s => Ret (str_dup s)
  | INTEGER, int_val i => Ret (str (pretty i))
  | FLOAT, float_val d => Ret (str (format_f d))
  | _, _ => Fault
  end.

(** The loop of [option_str] from the index [i] on. *)
Fixpoint option_str_loop (t : OptionType) (values : list OptionValue) (i : nat)
  (tmpstr : option string) : Outcome (option string) :=
  match values with
  | [] => Ret tmpstr
  | v :: values =>
      valstr <- value_str t v;;
      tmpstr_old <- percent_s tmpstr;;
      valstr <- percent_s valstr;;
      option_str_loop t values (S i)
        (str (if i =? 0 then tmpstr_old ++ valstr
              else tmpstr_old ++ ", " ++ valstr))
  end.

(** Returns a freshly-allocated string representing an Option instance. *)
Definition option_str (h : Heap) (opt : ptr) : Outcome (option string) :=
  o <- load_opt h opt;;
  tmpstr <- option_str_loop (opt_type o) (opt_values o) 0 (str_dup "[");;
  tmpstr <- percent_s tmpstr;;
  Ret (str (tmpstr ++ "]")).

(** Returns the key, and the value, at the specified index. *)
Definition map_key_at_index {V : Type} (map : Map V) (i : nat) : Outcome string :=
  match map !! i with
  | Some (key, _) => Ret key
  | None => Fault
  end.

Definition map_value_at_index {V : Type} (map : Map V) (i : nat) : Outcome V :=
  match map !! i with
  | Some (_, value) => Ret value
  | None => Fault
  end.

(** Print the ArgList instance to stdout: the text printed. *)
Definition arglist_print (list : ArgList) : string :=
  "Arguments:" ++ newline
  ++ (if 0 <? length list
      then fold_left (fun out arg => out ++ "  " ++ arg ++ newline) list ""
      else "  [none]" ++ newline).

(** The loop of [argparser_print] over the options from the index [i] on,
    [n] entries; the text printed. *)
Fixpoint print_options (h : Heap) (map : Map ptr) (i n : nat) : Outcome string :=
  match n with
  | 0 => Ret ""
  | S n =>
      name <- map_key_at_index map i;;
      opt <- map_value_at_index map i;;
      optstr <- option_str h opt;;
      optstr <- percent_s optstr;;
      rest <- print_options h map (S i) n;;
      Ret ("  " ++ name ++ ": " ++ optstr ++ newline ++ rest)
  end.

(** Print a parser instance to stdout: the text printed. *)
Definition argparser_print (h : Heap) (parser : ptr) : Outcome string :=
  p <- load_parser h parser;;
  opts <- (if 0 <? length (options p)
           then print_options h (options p) 0 (length (options p))
           else Ret ("  [none]" ++ newline));;
  has_cmd <- argparser_has_cmd h parser;;
  cmd <- (if has_cmd : bool then
            name <- argparser_get_cmd_name h parser;;
            name <- percent_s name;;
            Ret ("  " ++ name ++ newline)
          else Ret ("  [none]" ++ newline));;
  Ret ("Options:" ++ newline ++ opts ++ newline
       ++ arglist_print (arguments p)
       ++ newline ++ "Command:" ++ newline ++ cmd).

Definition ap_print := argparser_print.

(** The text of a value, and the texts of a list with [", "] between
    them. *)
Definition value_text (v : OptionValue) : string :=
  match v with
  | bool_val b => if b then "true" else "false"
  | str_val s => s
  | int_val i => pretty i
  | float_val d => format_f d
  end.

Fixpoint comma_separated (texts : list string) : string :=
  match texts with
  | [] => ""
  | [text] => text
  | text :: texts => text ++ ", " ++ comma_separated texts
  end.

(** The text of an option: its values between brackets. *)
Definition option_text (o : Option) : string :=
  "[" ++ comma_separated (map value_text (opt_values o)) ++ "]".

(** The line that [argparser_print] prints for an entry of the options. *)
Definition option_line (h : Heap) (entry : string * ptr) (line : string) : Prop :=
  exists o,
    load_opt h (snd entry) = Ret o
    /\ line = "  " ++ fst entry ++ ": " ++ option_text o ++ newline.

(** Lines one after another. *)
Definition lines_text (lines : list string) : string :=
  foldr String.append "" lines.

End Printing.

(** The conversion on the platform without floating-point numbers, with
    memory to allocate. *)
Definition no_stdio : @Stdio no_float :=
  {| format_f := fun _ => "0.000000";
     format_f_not_empty := fun _ => ltac:(discriminate);
     malloc_ok := true |}.

(* ------------------------------------------------------------------------- *)
(** ** Basic facts *)
(* ------------------------------------------------------------------------- *)

Section Facts.

Context `{libc : Libc} `{cbs : !Callbacks}.

Lemma bind_ret {A B : Type} (a : A) (k : A -> Outcome B) : bind (Ret a) k = k a.
Proof. reflexivity. Qed.

Lemma bind_assoc {A B C : Type} (m : Outcome A) (k : A -> Outcome B)
  (k' : B -> Outcome C) :
  bind (bind m k) k' = bind m (fun a => bind (k a) k').
Proof. destruct m; reflexivity. Qed.

Lemma bindM_assoc {A B C : Type} (m : M A) (k : A -> M B) (k' : B -> M C) :
  bindM (bindM m k) k' = bindM m (fun a => bindM (k a) k').
Proof. destruct m as [[]|]; reflexivity. Qed.

Lemma bindM_ret_r {A : Type} (m : M A) : bindM m (fun a => lift (Ret a)) = m.
Proof. destruct m as [[]|]; reflexivity. Qed.

Lemma bindM_ext {A B : Type} (m : M A) (k k' : A -> M B) :
  (forall a, k a = k' a) -> bindM m k = bindM m k'.
Proof. intros E. destruct m as [[]|]; simpl; auto. Qed.

(** *** The store *)

Lemma store_opt_ok h opt o o' :
  load_opt h opt = Ret o -> store_opt h opt o' = Ret (heap_set_opt h opt o').
Proof.
  unfold load_opt, store_opt. destruct (heap_options h !! opt); [reflexivity|discriminate].
Qed.

Lemma load_set_opt_same h opt o o' :
  load_opt h opt = Ret o -> load_opt (heap_set_opt h opt o') opt = Ret o'.
Proof.
  unfold load_opt. simpl. intros H.
  destruct (heap_options h !! opt) eqn:E; [|discriminate].
  rewrite list_lookup_insert_eq; [reflexivity|].
  eapply lookup_lt_Some; eassumption.
Qed.

Lemma load_set_opt_other h opt opt' o' :
  opt <> opt' -> load_opt (heap_set_opt h opt o') opt' = load_opt h opt'.
Proof.
  intros N. unfold load_opt. simpl. rewrite list_lookup_insert_ne; auto.
Qed.

Lemma load_parser_set_opt h opt o parser :
  load_parser (heap_set_opt h opt o) parser = load_parser h parser.
Proof. reflexivity. Qed.

Lemma store_parser_ok h parser p p' :
  load_parser h parser = Ret p ->
  store_parser h parser p' = Ret (heap_set_parser h parser p').
Proof.
  unfold load_parser, store_parser.
  destruct (heap_parsers h !! parser); [reflexivity|discriminate].
Qed.

Lemma load_set_parser_same h parser p p' :
  load_parser h parser = Ret p ->
  load_parser (heap_set_parser h parser p') parser = Ret p'.
Proof.
  unfold load_parser. simpl. intros H.
  destruct (heap_parsers h !! parser) eqn:E; [|discriminate].
  rewrite list_lookup_insert_eq; [reflexivity|].
  eapply lookup_lt_Some; eassumption.
Qed.

Lemma load_set_parser_other h parser parser' p' :
  parser <> parser' ->
  load_parser (heap_set_parser h parser p') parser' = load_parser h parser'.
Proof.
  intros N. unfold load_parser, heap_set_parser. simpl.
  by rewrite list_lookup_insert_ne.
Qed.

Lemma load_opt_set_parser h parser p opt :
  load_opt (heap_set_parser h parser p) opt = load_opt h opt.
Proof. reflexivity. Qed.

Lemma heap_set_opt_twice h opt o o' :
  heap_set_opt (heap_set_opt h opt o) opt o' = heap_set_opt h opt o'.
Proof. unfold heap_set_opt. simpl. by rewrite list_insert_insert_eq. Qed.

Lemma set_found_ok h opt o b :
  load_opt h opt = Ret o ->
  set_found h opt b = Ret (heap_set_opt h opt (with_found o b)).
Proof. intros H. unfold set_found. rewrite H. simpl. eapply store_opt_ok, H. Qed.

Lemma option_append_ok h opt o v :
  load_opt h opt = Ret o ->
  option_append h opt v = Ret (heap_set_opt h opt (push_value o v)).
Proof.
  intros H. unfold option_append, set_values. rewrite H. simpl. rewrite ?H. simpl.
  eapply store_opt_ok, H.
Qed.

Lemma option_try_set_ok h opt o arg :
  load_opt h opt = Ret o ->
  option_try_set h opt arg =
    (v <- coerce (opt_type o) arg;;
     match v with
     | Some v => Ret (heap_set_opt h opt (push_value o v))
     | None => Ret h
     end).
Proof.
  intros H. unfold option_try_set. rewrite H. simpl.
  destruct (opt_type o); simpl.
  - reflexivity.
  - unfold option_set_str. by apply option_append_ok.
  - destruct (try_str_to_int arg); simpl; try reflexivity.
    unfold option_set_int. by apply option_append_ok.
  - destruct (try_str_to_double arg); simpl; try reflexivity.
    unfold option_set_float. by apply option_append_ok.
Qed.

(** *** The stream *)

Lemma next_is_has_next s tok : next_is s tok -> argstream_has_next s = true.
Proof. intros [H _]. unfold argstream_has_next. by apply Nat.ltb_lt. Qed.

Lemma next_is_next s tok : next_is s tok -> argstream_next s = Ret (tok, advance s).
Proof. intros [_ H]. unfold argstream_next. by rewrite H. Qed.

Lemma next_is_peek s tok : next_is s tok -> argstream_peek s = Ret tok.
Proof. intros [_ H]. unfold argstream_peek. by rewrite H. Qed.

Lemma value_shaped_eq next :
  (if Ascii.eqb (char_at next 0) "-" then
     if (strlen next =? 1) || isdigit (char_at next 1) then true else false
   else true) = spec_value_shaped next.
Proof.
  unfold spec_value_shaped.
  destruct next as [|c rest]; [reflexivity|].
  unfold char_at at 1 3. simpl String.get.
  destruct (Ascii.eqb c "-"); [|reflexivity].
  destruct rest as [|d rest]; [reflexivity|].
  simpl. unfold char_at. simpl. by destruct (isdigit d).
Qed.

Lemma next_is_has_next_value s tok :
  next_is s tok -> argstream_has_next_value s = Ret (spec_value_shaped tok).
Proof.
  intros H. unfold argstream_has_next_value.
  rewrite (next_is_has_next _ _ H), (next_is_peek _ _ H). simpl.
  rewrite <- value_shaped_eq.
  destruct (Ascii.eqb (char_at tok 0) "-"); [|reflexivity].
  by destruct ((strlen tok =? 1) || isdigit (char_at tok 1)).
Qed.

Lemma no_next_has_next_value s :
  argstream_has_next s = false -> argstream_has_next_value s = Ret false.
Proof. intros H. unfold argstream_has_next_value. by rewrite H. Qed.

(** *** Maps and strings *)

Lemma map_contains_get {V : Type} (m : Map V) (key : string) :
  map_contains m key = match map_get m key with Some _ => true | None => false end.
Proof.
  induction m as [|[k v] m IH]; simpl; [reflexivity|].
  destruct (String.eqb key k); auto.
Qed.

Lemma strchr_split_app name v :
  has_equals name = false ->
  strchr_split (name ++ String "=" v) "=" = Some (name, v).
Proof.
  unfold has_equals. induction name as [|a name IH]; simpl; [reflexivity|].
  destruct (Ascii.eqb a "="); [discriminate|].
  destruct (strchr_split name "=") as [[]|]; [discriminate|].
  intros _. by rewrite IH.
Qed.

Lemma has_equals_app name v : has_equals (name ++ String "=" v) = true.
Proof.
  unfold has_equals. induction name as [|a name IH]; simpl; [reflexivity|].
  destruct (Ascii.eqb a "="); [reflexivity|].
  by destruct (strchr_split (name ++ String "=" v) "=") as [[]|].
Qed.

Lemma append_assoc (a b c : string) : (a ++ b) ++ c = a ++ (b ++ c).
Proof.
  induction a as [|x a IH]; [reflexivity|].
  change (String x ((a ++ b) ++ c) = String x (a ++ (b ++ c))). by rewrite IH.
Qed.

Lemma append_empty_r (a : string) : a ++ "" = a.
Proof.
  induction a as [|x a IH]; [reflexivity|].
  change (String x (a ++ "") = String x a). by rewrite IH.
Qed.

Lemma strlen_nonempty v : v <> "" -> (strlen v =? 0) = false.
Proof. destruct v; [congruence|reflexivity]. Qed.

Lemma coerce_some_not_flag t v val : coerce t v = Ret (Some val) -> t <> FLAG.
Proof. destruct t; simpl; congruence. Qed.

(** *** The loop of [argparser_parse_stream] *)

Lemma parse_stream_done fuel h parser s parsing :
  argstream_has_next s = false ->
  argparser_parse_stream fuel h parser s parsing = lift (Ret (h, s)).
Proof. intros H. destruct fuel; simpl; by rewrite H. Qed.

Lemma parse_stream_step fuel h parser s parsing tok :
  next_is s tok ->
  argparser_parse_stream (S fuel) h parser s parsing =
    ('(h', s', parsing') <~
       parse_argument
         (fun h cmd_parser stream => argparser_parse_stream fuel h cmd_parser stream true)
         fuel h parser tok (advance s) parsing;;
     argparser_parse_stream fuel h' parser s' parsing').
Proof.
  intros H. simpl.
  rewrite (next_is_has_next _ _ H), (next_is_next _ _ H). reflexivity.
Qed.

(** The text after the dashes of a long option, and the tests that lead to
    [argparser_parse_long_option]. *)
Lemma long_token name :
  name <> "" ->
  String.eqb ("--" ++ name) "--" = false
  /\ has_prefix "--" ("--" ++ name) = true
  /\ offset ("--" ++ name) 2 = name.
Proof. destruct name; [congruence|]. intros _. repeat split. Qed.

Lemma isdigit_dash : isdigit "-" = false.
Proof. reflexivity. Qed.

(** The tests of the loop on a bare dash or a dash followed by a digit. *)
Lemma dash_token_tests tok :
  dash_or_dash_digit tok = true ->
  String.eqb tok "--" = false
  /\ has_prefix "--" tok = false
  /\ Ascii.eqb (char_at tok 0) "-" = true
  /\ (strlen tok =? 1) || isdigit (char_at tok 1) = true.
Proof.
  unfold dash_or_dash_digit. intros D.
  apply orb_true_iff in D as [D|D].
  - apply String.eqb_eq in D. subst. repeat split.
  - apply andb_true_iff in D as [D0 D1].
    destruct tok as [|c tok]; [discriminate D0|].
    change (char_at (String c tok) 0) with c in *.
    apply Ascii.eqb_eq in D0. subst c.
    destruct tok as [|d tok]; [discriminate D1|].
    change (char_at (String "-" (String d tok)) 1) with d in *.
    assert (d <> "-"%char) as N.
    { intros ->. rewrite isdigit_dash in D1. discriminate. }
    rewrite D1, orb_true_r.
    repeat split.
    + apply String.eqb_neq. intros E. inversion E. congruence.
    + cbn [has_prefix]. apply Ascii.eqb_neq in N.
      rewrite (Ascii.eqb_sym "-" d), N. reflexivity.
Qed.

(** Whatever the switch says, a bare dash or a dash followed by a digit
    takes the branch that appends to the positional arguments. *)
Lemma parse_argument_dash recurse fuel h parser tok stream parsing :
  dash_or_dash_digit tok = true ->
  parse_argument recurse fuel h parser tok stream parsing =
    (h' <~ lift (append_argument h parser tok);; lift (Ret (h', stream, parsing))).
Proof.
  intros D. unfold parse_argument.
  destruct parsing; simpl negb; cbv iota; [|reflexivity].
  destruct (dash_token_tests _ D) as (-> & -> & -> & ->). reflexivity.
Qed.

(** *** The option handlers *)

Lemma opt_type_not_flag {A : Type} (t : OptionType) (x y : A) :
  t <> FLAG ->
  match t with FLAG => x | _ => y end = y.
Proof. destruct t; congruence. Qed.

(** The equals form stores the text after the sign, and nothing else. *)
Lemma equals_option_ok h parser p prefix name v opt o :
  load_parser h parser = Ret p ->
  map_get (options p) name = Some opt ->
  load_opt h opt = Ret o ->
  opt_type o <> FLAG ->
  has_equals name = false ->
  v <> "" ->
  argparser_parse_equals_option h parser prefix (name ++ "=" ++ v) =
    option_try_set (heap_set_opt h opt (with_found o true)) opt v.
Proof.
  intros L G O T E V. unfold argparser_parse_equals_option.
  change (name ++ "=" ++ v) with (name ++ String "=" v).
  rewrite (strchr_split_app _ _ E), L. cbn [bind]. rewrite G.
  rewrite (set_found_ok _ _ _ _ O). cbn [bind].
  rewrite (load_set_opt_same _ _ _ _ O). cbn [bind].
  change (opt_type (with_found o true)) with (opt_type o).
  rewrite (opt_type_not_flag _ _ _ T), (strlen_nonempty _ V). reflexivity.
Qed.

(** The space form of a long option that is not greedy takes the argument
    under the cursor, which has to be value-shaped. *)
Lemma long_option_space_form fuel h parser p name opt o v s :
  load_parser h parser = Ret p ->
  map_get (options p) name = Some opt ->
  load_opt h opt = Ret o ->
  opt_type o <> FLAG ->
  opt_greedy o = false ->
  has_equals name = false ->
  next_is s v ->
  spec_value_shaped v = true ->
  argparser_parse_long_option fuel h parser name s =
    (h' <~ lift (option_try_set (heap_set_opt h opt (with_found o true)) opt v);;
     lift (Ret (h', advance s))).
Proof.
  intros L G O T Gr E N V. unfold argparser_parse_long_option.
  rewrite E, L. cbn [bindM lift]. rewrite map_contains_get, G.
  rewrite (set_found_ok _ _ _ _ O). cbn [bindM lift].
  rewrite (load_set_opt_same _ _ _ _ O). cbn [bindM lift].
  change (opt_type (with_found o true)) with (opt_type o).
  rewrite (opt_type_not_flag _ _ _ T).
  rewrite (next_is_has_next_value _ _ N), V. cbn [bindM lift].
  rewrite (next_is_next _ _ N). cbn [bindM lift].
  rewrite (option_try_set_ok _ _ _ _ (load_set_opt_same _ _ _ _ O)).
  destruct (coerce _ v) as [[val|]| |]; cbn [bind bindM lift]; try reflexivity.
  - rewrite (load_set_opt_same _ _ _ (push_value (with_found o true) val)
               (load_set_opt_same _ _ _ (with_found o true) O)).
    cbn [bindM lift]. change (opt_greedy (push_value (with_found o true) val))
      with (opt_greedy o). rewrite Gr. reflexivity.
  - rewrite (load_set_opt_same _ _ _ _ O). cbn [bindM lift].
    change (opt_greedy (with_found o true)) with (opt_greedy o).
    rewrite Gr. reflexivity.
Qed.

(** What [option_try_set] stores in a matched option. *)
Lemma try_set_matched h opt o v val :
  load_opt h opt = Ret o ->
  coerce (opt_type o) v = Ret (Some val) ->
  option_try_set (heap_set_opt h opt (with_found o true)) opt v =
    Ret (heap_set_opt h opt (matched o val)).
Proof.
  intros O C.
  rewrite (option_try_set_ok _ _ _ _ (load_set_opt_same _ _ _ _ O)).
  change (opt_type (with_found o true)) with (opt_type o). rewrite C. cbn [bind].
  by rewrite heap_set_opt_twice.
Qed.

(** The loop over a bundle of short options goes through the characters
    one after the other. *)
Lemma short_option_loop_app fuel h parser a b s :
  short_option_loop fuel h parser (a ++ b) s =
    ('(h', s') <~ short_option_loop fuel h parser a s;;
     short_option_loop fuel h' parser b s').
Proof.
  revert h s. induction a as [|c a IH]; intros h s; [reflexivity|].
  change (String c a ++ b) with (String c (a ++ b)).
  cbn [short_option_loop].
  destruct (load_parser h parser) as [p| |]; cbn [bindM lift]; try reflexivity.
  destruct (map_get (options p) (String c "")) as [opt|]; [|reflexivity].
  destruct (set_found h opt true) as [h1| |]; cbn [bindM lift]; try reflexivity.
  destruct (load_opt h1 opt) as [o| |]; cbn [bindM lift]; try reflexivity.
  rewrite bindM_assoc. apply bindM_ext. intros [h2 s2]. apply IH.
Qed.

(** One character of a bundle: a flag stores [true]; an option that is
    not a flag and not greedy takes the value-shaped argument under the
    cursor.  The loop then goes on with the rest of the bundle. *)
Lemma short_option_loop_flag fuel h parser p c rest s opt o :
  load_parser h parser = Ret p ->
  map_get (options p) (String c "") = Some opt ->
  load_opt h opt = Ret o ->
  opt_type o = FLAG ->
  short_option_loop fuel h parser (String c rest) s =
    short_option_loop fuel (heap_set_opt h opt (matched o (bool_val true)))
      parser rest s.
Proof.
  intros L G O T. cbn [short_option_loop]. rewrite L. cbn [bindM lift]. rewrite G.
  rewrite (set_found_ok _ _ _ _ O). cbn [bindM lift].
  rewrite (load_set_opt_same _ _ _ _ O). cbn [bindM lift].
  change (opt_type (with_found o true)) with (opt_type o). rewrite T.
  unfold option_set_flag.
  rewrite (option_append_ok _ _ _ _ (load_set_opt_same _ _ _ _ O)).
  cbn [bindM lift]. by rewrite heap_set_opt_twice.
Qed.

Lemma short_option_loop_value fuel h parser p c rest s opt o v val :
  load_parser h parser = Ret p ->
  map_get (options p) (String c "") = Some opt ->
  load_opt h opt = Ret o ->
  opt_greedy o = false ->
  next_is s v ->
  spec_value_shaped v = true ->
  coerce (opt_type o) v = Ret (Some val) ->
  short_option_loop fuel h parser (String c rest) s =
    short_option_loop fuel (heap_set_opt h opt (matched o val)) parser rest (advance s).
Proof.
  intros L G O Gr N Sh C. cbn [short_option_loop]. rewrite L. cbn [bindM lift].
  rewrite G, (set_found_ok _ _ _ _ O). cbn [bindM lift].
  rewrite (load_set_opt_same _ _ _ _ O). cbn [bindM lift].
  change (opt_type (with_found o true)) with (opt_type o).
  rewrite (opt_type_not_flag _ _ _ (coerce_some_not_flag _ _ _ C)).
  rewrite (next_is_has_next_value _ _ N), Sh. cbn [bindM lift].
  rewrite (next_is_next _ _ N). cbn [bindM lift].
  rewrite (try_set_matched _ _ _ _ _ O C). cbn [bindM lift].
  rewrite (load_set_opt_same _ _ _ _ O). cbn [bindM lift].
  change (opt_greedy (matched o val)) with (opt_greedy o). rewrite Gr.
  reflexivity.
Qed.

(** *** Runs of arguments *)

Lemma next_are_app s a b :
  next_are s (a ++ b)%list <-> next_are s a /\ next_are (advance_by (length a) s) b.
Proof.
  revert s. induction a as [|x a IH]; intros s; simpl.
  - tauto.
  - rewrite IH. tauto.
Qed.

Lemma advance_by_fields n s :
  len (advance_by n s) = len s
  /\ index (advance_by n s) = n + index s
  /\ args (advance_by n s) = args s.
Proof.
  revert s. induction n as [|n IH]; intros s; simpl; [done|].
  destruct (IH (advance s)) as (-> & -> & ->). simpl. repeat split. lia.
Qed.

Lemma advance_by_app n m s : advance_by (n + m) s = advance_by m (advance_by n s).
Proof. revert s. induction n as [|n IH]; intros s; simpl; [done|apply IH]. Qed.

Lemma next_are_from pre toks :
  next_are {| len := length (pre ++ toks)%list; index := length pre;
              args := (pre ++ toks)%list |} toks.
Proof.
  revert pre. induction toks as [|t toks IH]; intros pre; simpl; [exact I|].
  split.
  - split; simpl.
    + rewrite length_app. simpl. lia.
    + rewrite lookup_app_r by lia. by rewrite Nat.sub_diag.
  - unfold advance. simpl.
    specialize (IH (pre ++ [t])%list).
    rewrite <- !app_assoc in IH. simpl in IH.
    replace (length (pre ++ [t])%list) with (S (length pre)) in IH
      by (rewrite length_app; simpl; lia).
    exact IH.
Qed.

Lemma next_are_new toks : next_are (argstream_new (length toks) toks) toks.
Proof. apply (next_are_from [] toks). Qed.

Lemma new_stream_end toks :
  argstream_has_next (advance_by (length toks) (argstream_new (length toks) toks))
  = false.
Proof.
  unfold argstream_has_next.
  destruct (advance_by_fields (length toks) (argstream_new (length toks) toks))
    as (-> & -> & _).
  simpl. apply Nat.ltb_ge. lia.
Qed.

Lemma heap_set_opt_id h opt o : load_opt h opt = Ret o -> heap_set_opt h opt o = h.
Proof.
  unfold load_opt, heap_set_opt. intros H.
  destruct (heap_options h !! opt) eqn:E; [|discriminate].
  injection H as ->. rewrite list_insert_id by exact E. by destruct h.
Qed.

Lemma heap_set_parser_id h parser p :
  load_parser h parser = Ret p -> heap_set_parser h parser p = h.
Proof.
  unfold load_parser, heap_set_parser. intros H.
  destruct (heap_parsers h !! parser) eqn:E; [|discriminate].
  injection H as ->. rewrite list_insert_id by exact E. by destruct h.
Qed.

Lemma heap_set_parser_twice h parser p p' :
  heap_set_parser (heap_set_parser h parser p) parser p' = heap_set_parser h parser p'.
Proof. unfold heap_set_parser. simpl. by rewrite list_insert_insert_eq. Qed.

(** A greedy list of strings takes the whole run of value-shaped arguments
    under the cursor. *)
Lemma greedy_loop_strings vs : forall fuel h opt o s,
  load_opt h opt = Ret o ->
  opt_type o = STRING ->
  next_are s vs ->
  forallb spec_value_shaped vs = true ->
  argstream_has_next_value (advance_by (length vs) s) = Ret false ->
  length vs <= fuel ->
  greedy_loop fuel h opt s =
    Some (Ret (heap_set_opt h opt (with_values o (opt_values o ++ map str_val vs)%list),
               advance_by (length vs) s)).
Proof.
  induction vs as [|v vs IH]; intros fuel h opt o s O T N V E F.
  - simpl in *. assert (greedy_loop fuel h opt s = Some (Ret (h, s))) as ->.
    { destruct fuel; simpl; by rewrite E. }
    rewrite app_nil_r.
    replace (with_values o (opt_values o)) with o by (by destruct o).
    by rewrite (heap_set_opt_id _ _ _ O).
  - destruct fuel as [|fuel]; [simpl in F; lia|].
    destruct N as [N N']. simpl in V. apply andb_true_iff in V as [V V'].
    cbn [greedy_loop]. rewrite (next_is_has_next_value _ _ N), V. cbn [bindM lift].
    rewrite (next_is_next _ _ N). cbn [bindM lift].
    rewrite (option_try_set_ok _ _ _ _ O), T. cbn [coerce bind bindM lift].
    rewrite (IH fuel _ opt (push_value o (str_val v)) (advance s)
               (load_set_opt_same _ _ _ _ O) T N' V' E ltac:(simpl in F; lia)).
    rewrite heap_set_opt_twice. cbn [length advance_by].
    do 4 f_equal. unfold with_values, push_value. simpl.
    by rewrite <- app_assoc.
Qed.

(** Once a double dash has turned option parsing off, every argument left
    becomes a positional argument. *)
Lemma parse_stream_positionals ws : forall fuel h parser p s,
  load_parser h parser = Ret p ->
  next_are s ws ->
  argstream_has_next (advance_by (length ws) s) = false ->
  length ws <= fuel ->
  argparser_parse_stream fuel h parser s false =
    Some (Ret (heap_set_parser h parser (set_arguments p (arguments p ++ ws)%list),
               advance_by (length ws) s)).
Proof.
  induction ws as [|w ws IH]; intros fuel h parser p s L N E F.
  - simpl in *. rewrite (parse_stream_done _ _ _ _ _ E). rewrite app_nil_r.
    replace (set_arguments p (arguments p)) with p by (by destruct p).
    by rewrite (heap_set_parser_id _ _ _ L).
  - destruct fuel as [|fuel]; [simpl in F; lia|].
    destruct N as [N N'].
    rewrite (parse_stream_step _ _ _ _ _ _ N). unfold parse_argument. cbn [negb].
    unfold append_argument. rewrite L. cbn [bind].
    rewrite (store_parser_ok _ _ _ _ L). cbn [bindM lift].
    rewrite (IH fuel _ parser _ (advance s) (load_set_parser_same _ _ _ _ L) N' E
               ltac:(simpl in F; lia)).
    rewrite heap_set_parser_twice. cbn [length advance_by].
    do 4 f_equal. unfold set_arguments, arglist_append. simpl.
    by rewrite <- app_assoc.
Qed.

Lemma str_vals_map vs : str_vals (map str_val vs) = Ret vs.
Proof. induction vs as [|v vs IH]; simpl; [done|]. by rewrite IH. Qed.

(** The space form of a greedy list of strings takes the argument under
    the cursor and the run of value-shaped arguments after it. *)
Lemma long_option_greedy_strings fuel h parser p name opt o v vs s :
  load_parser h parser = Ret p ->
  map_get (options p) name = Some opt ->
  load_opt h opt = Ret o ->
  opt_type o = STRING ->
  opt_greedy o = true ->
  has_equals name = false ->
  next_are s (v :: vs) ->
  forallb spec_value_shaped (v :: vs) = true ->
  argstream_has_next_value (advance_by (S (length vs)) s) = Ret false ->
  length vs <= fuel ->
  argparser_parse_long_option fuel h parser name s =
    Some (Ret (heap_set_opt h opt
                 (with_values (with_found o true)
                    (opt_values o ++ map str_val (v :: vs))%list),
               advance_by (S (length vs)) s)).
Proof.
  intros L G O T Gr E [N N'] V End F.
  simpl in V. apply andb_true_iff in V as [V V'].
  unfold argparser_parse_long_option.
  rewrite E, L. cbn [bindM lift]. rewrite map_contains_get, G.
  rewrite (set_found_ok _ _ _ _ O). cbn [bindM lift].
  rewrite (load_set_opt_same _ _ _ _ O). cbn [bindM lift].
  change (opt_type (with_found o true)) with (opt_type o). rewrite T.
  rewrite (next_is_has_next_value _ _ N), V. cbn [bindM lift].
  rewrite (next_is_next _ _ N). cbn [bindM lift].
  rewrite (option_try_set_ok _ _ _ _ (load_set_opt_same _ _ _ _ O)).
  change (opt_type (with_found o true)) with (opt_type o). rewrite T.
  cbn [coerce bind bindM lift]. rewrite heap_set_opt_twice.
  rewrite (load_set_opt_same _ _ _ _ O). cbn [bindM lift].
  change (opt_greedy (push_value (with_found o true) (str_val v)))
    with (opt_greedy o). rewrite Gr.
  rewrite (greedy_loop_strings vs fuel _ opt _ (advance s)
             (load_set_opt_same h opt o
                (push_value (with_found o true) (str_val v)) O) T N' V' End F).
  rewrite heap_set_opt_twice. do 4 f_equal.
  unfold with_values, push_value, with_found. simpl. by rewrite <- app_assoc.
Qed.

(** *** Options only gain values *)

Ltac bind_inv H :=
  repeat match type of H with
    | bind ?m _ = Ret _ =>
        let E := fresh "E" in destruct m eqn:E; cbn [bind] in H; try discriminate H
    | bindM (lift ?m) _ = Some (Ret _) =>
        let E := fresh "E" in
        destruct m eqn:E; cbn [bindM lift] in H; try discriminate H
    | bindM ?m _ = Some (Ret _) =>
        let E := fresh "E" in
        destruct m as [[?| |]|] eqn:E; cbn [bindM] in H; try discriminate H
    | match ?m with _ => _ end = _ =>
        lazymatch type of m with
        | Outcome _ =>
            let E := fresh "E" in destruct m eqn:E; try discriminate H
        | prod _ _ => destruct m
        end
    | lift _ = Some _ => unfold lift in H
    end.

Lemma grows_refl h : grows h h.
Proof. intros opt o O. exists o. repeat split; done. Qed.

Lemma grows_trans h1 h2 h3 : grows h1 h2 -> grows h2 h3 -> grows h1 h3.
Proof.
  intros G1 G2 opt o O.
  destruct (G1 _ _ O) as (o2 & O2 & T2 & P2).
  destruct (G2 _ _ O2) as (o3 & O3 & T3 & P3).
  exists o3. repeat split; [done|congruence|by etrans].
Qed.

Lemma grows_set_opt h opt o o' :
  load_opt h opt = Ret o ->
  opt_type o' = opt_type o ->
  opt_values o `prefix_of` opt_values o' ->
  grows h (heap_set_opt h opt o').
Proof.
  intros O T P opt2 o2 O2. destruct (decide (opt = opt2)) as [<-|N].
  - rewrite O in O2. injection O2 as <-. exists o'.
    split; [by eapply load_set_opt_same|done].
  - exists o2. by rewrite load_set_opt_other.
Qed.

Lemma grows_set_parser h parser p : grows h (heap_set_parser h parser p).
Proof. intros opt o O. exists o. by rewrite load_opt_set_parser. Qed.

Lemma grows_store_parser h parser p h' :
  store_parser h parser p = Ret h' -> grows h h'.
Proof.
  unfold store_parser. destruct (heap_parsers h !! parser); [|discriminate].
  intros [= <-]. apply grows_set_parser.
Qed.

Lemma grows_set_found h opt b h' : set_found h opt b = Ret h' -> grows h h'.
Proof.
  unfold set_found. intros H. bind_inv H.
  rewrite (store_opt_ok _ _ _ _ E) in H. injection H as <-.
  by eapply grows_set_opt.
Qed.

Lemma grows_option_append h opt v h' : option_append h opt v = Ret h' -> grows h h'.
Proof.
  unfold option_append. intros H. bind_inv H.
  fold (option_append h opt v) in *.
  assert (option_append h opt v = Ret h') as H'.
  { unfold option_append. by rewrite E. }
  rewrite (option_append_ok _ _ _ _ E) in H'. injection H' as <-.
  eapply grows_set_opt; [done|done|]. by apply prefix_app_r.
Qed.

Lemma grows_option_try_set h opt arg h' :
  option_try_set h opt arg = Ret h' -> grows h h'.
Proof.
  unfold option_try_set. intros H. bind_inv H.
  destruct (opt_type a).
  - injection H as <-. apply grows_refl.
  - by eapply grows_option_append.
  - bind_inv H. by eapply grows_option_append.
  - bind_inv H. by eapply grows_option_append.
Qed.

Lemma grows_append_argument h parser arg h' :
  append_argument h parser arg = Ret h' -> grows h h'.
Proof. unfold append_argument. intros H. bind_inv H. by eapply grows_store_parser. Qed.

(** Turn what is known of the calls made so far into facts of [grows], and
    chain them. *)
Ltac grows_leaf :=
  repeat match goal with
    | H : set_found _ _ _ = Ret _ |- _ => apply grows_set_found in H
    | H : option_append _ _ _ = Ret _ |- _ => apply grows_option_append in H
    | H : option_set_flag _ _ _ = Ret _ |- _ => apply grows_option_append in H
    | H : option_try_set _ _ _ = Ret _ |- _ => apply grows_option_try_set in H
    | H : append_argument _ _ _ = Ret _ |- _ => apply grows_append_argument in H
    | H : store_parser _ _ _ = Ret _ |- _ => apply grows_store_parser in H
    end.

Ltac grows_chain :=
  repeat match goal with
    | H : grows ?a ?b |- grows ?a ?c => first [exact H | apply (grows_trans a b c H)]
    end;
  try apply grows_refl.

Lemma grows_equals_option h parser prefix arg h' :
  argparser_parse_equals_option h parser prefix arg = Ret h' -> grows h h'.
Proof.
  unfold argparser_parse_equals_option. intros H.
  destruct (strchr_split arg "=") as [[name value]|]; [|discriminate].
  bind_inv H. destruct (map_get (options _) name) as [opt|]; [|discriminate].
  bind_inv H.
  match type of H with
  | match ?t with _ => _ end = _ =>
      assert (option_try_set a0 opt value = Ret h') as H'
        by (destruct t; try discriminate;
            destruct (strlen value =? 0); try discriminate; exact H)
  end.
  grows_leaf. grows_chain.
Qed.

Lemma grows_greedy_loop fuel : forall h opt s h' s',
  greedy_loop fuel h opt s = Some (Ret (h', s')) -> grows h h'.
Proof.
  induction fuel as [|fuel IH]; intros h opt s h' s' H; cbn [greedy_loop] in H;
    bind_inv H;
    match type of H with (if ?b then _ else _) = _ => destruct b end;
    try discriminate; try (injection H as <- <-; apply grows_refl).
  bind_inv H. apply IH in H. grows_leaf. grows_chain.
Qed.

(** The part that the long and the short form share: a flag stores [true],
    any other option takes its value, or its values, from the stream. *)
Lemma grows_take_values fuel h opt (t : OptionType) s key h' s' :
  match t with
  | FLAG => h <~ lift (option_set_flag h opt true);; lift (Ret (h, s))
  | _ =>
      more <~ lift (argstream_has_next_value s);;
      if more : bool then
        '(value, s) <~ lift (argstream_next s);;
        h <~ lift (option_try_set h opt value);;
        o <~ lift (load_opt h opt);;
        if opt_greedy o then greedy_loop fuel h opt s else lift (Ret (h, s))
      else lift (err key)
  end = Some (Ret (h', s')) ->
  grows h h'.
Proof.
  intros H.
  assert (forall m, m = Some (Ret (h', s')) ->
            m = (more <~ lift (argstream_has_next_value s);;
                 if more : bool then
                   '(value, s) <~ lift (argstream_next s);;
                   h <~ lift (option_try_set h opt value);;
                   o <~ lift (load_opt h opt);;
                   if opt_greedy o then greedy_loop fuel h opt s else lift (Ret (h, s))
                 else lift (err key)) -> grows h h') as Take.
  { intros m Hm ->. bind_inv Hm.
    match type of Hm with (if ?b then _ else _) = _ => destruct b end;
      [|discriminate].
    bind_inv Hm.
    match type of Hm with (if ?b then _ else _) = _ => destruct b end.
    - apply grows_greedy_loop in Hm. grows_leaf. grows_chain.
    - injection Hm as <- <-. grows_leaf. grows_chain. }
  destruct t; try (by eapply Take).
  bind_inv H. injection H as <- <-. grows_leaf. grows_chain.
Qed.

Lemma grows_long_option fuel h parser arg s h' s' :
  argparser_parse_long_option fuel h parser arg s = Some (Ret (h', s')) ->
  grows h h'.
Proof.
  unfold argparser_parse_long_option. intros H.
  destruct (has_equals arg).
  - bind_inv H. injection H as <- <-. by eapply grows_equals_option.
  - bind_inv H.
    match type of H with (if ?b then _ else _) = _ => destruct b end.
    + destruct (map_get (options _) arg) as [opt|]; [|discriminate].
      bind_inv H. apply grows_take_values in H. grows_leaf. grows_chain.
    + repeat match type of H with
        | match ?x with _ => _ end = _ => destruct x; try discriminate H
        end.
Qed.

Lemma grows_short_option_loop fuel parser arg : forall h s h' s',
  short_option_loop fuel h parser arg s = Some (Ret (h', s')) -> grows h h'.
Proof.
  induction arg as [|c arg IH]; intros h s h' s' H; cbn [short_option_loop] in H.
  - injection H as <- <-. apply grows_refl.
  - bind_inv H. destruct (map_get (options _) (String c "")) as [opt|];
      [|discriminate].
    bind_inv H. apply IH in H.
    match goal with
    | E : match _ with _ => _ end = Some (Ret _) |- _ => apply grows_take_values in E
    end.
    grows_leaf. grows_chain.
Qed.

Lemma grows_short_option fuel h parser arg s h' s' :
  argparser_parse_short_option fuel h parser arg s = Some (Ret (h', s')) ->
  grows h h'.
Proof.
  unfold argparser_parse_short_option. intros H. destruct (has_equals arg).
  - bind_inv H. injection H as <- <-. by eapply grows_equals_option.
  - by eapply grows_short_option_loop.
Qed.

Lemma grows_parse_argument recurse fuel h parser arg s parsing h' s' parsing' :
  callbacks_grow ->
  (forall h c s h' s', recurse h c s = Some (Ret (h', s')) -> grows h h') ->
  parse_argument recurse fuel h parser arg s parsing = Some (Ret (h', s', parsing')) ->
  grows h h'.
Proof.
  intros Cb Rec H. unfold parse_argument in H.
  repeat match type of H with
    | (if ?b then _ else _) = _ => destruct b
    | match map_get ?m ?k with _ => _ end = _ =>
        destruct (map_get m k); try discriminate H
    | match helptext ?c with _ => _ end = _ => destruct (helptext c); discriminate H
    | match mjoin ?x with _ => _ end = _ => destruct (mjoin x)
    | _ => progress bind_inv H
    | _ = _ => injection H as <- <- <-
    end;
    try discriminate;
    repeat match goal with
      | E : argparser_parse_long_option _ _ _ _ _ = Some (Ret _) |- _ =>
          apply grows_long_option in E
      | E : argparser_parse_short_option _ _ _ _ _ = Some (Ret _) |- _ =>
          apply grows_short_option in E
      | E : recurse _ _ _ = Some (Ret _) |- _ => apply Rec in E
      | E : invoke _ _ _ = Ret _ |- _ => apply Cb in E
      end;
    grows_leaf; grows_chain.
Qed.

Lemma grows_parse_stream fuel :
  callbacks_grow ->
  forall h parser s parsing h' s',
    argparser_parse_stream fuel h parser s parsing = Some (Ret (h', s')) ->
    grows h h'.
Proof.
  intros Cb. induction fuel as [|fuel IH]; intros h parser s parsing h' s' H;
    simpl in H; destruct (argstream_has_next s); try discriminate;
    try (injection H as <- <-; apply grows_refl).
  destruct (argstream_next s) as [[arg s1]| |]; cbn [bindM lift] in H;
    try discriminate.
  destruct (parse_argument _ fuel h parser arg s1 parsing)
    as [[[[h2 s2] parsing2]| |]|] eqn:E; cbn [bindM] in H; try discriminate.
  apply grows_parse_argument in E; [|exact Cb|].
  - apply IH in H. grows_chain.
  - intros ? ? ? ? ? R. by eapply IH.
Qed.

(** *** Allocation and registration *)

Lemma load_alloc_opt h o :
  load_opt (fst (alloc_opt h o)) (length (heap_options h)) = Ret o.
Proof. unfold load_opt, alloc_opt. simpl. by rewrite list_lookup_middle. Qed.

Lemma set_alloc_opt h o o' :
  heap_set_opt (fst (alloc_opt h o)) (length (heap_options h)) o'
  = fst (alloc_opt h o').
Proof.
  unfold heap_set_opt, alloc_opt. simpl.
  rewrite insert_app_r_alt by lia. by rewrite Nat.sub_diag.
Qed.

Lemma grows_alloc_opt h o : grows h (fst (alloc_opt h o)).
Proof.
  intros opt o' O. exists o'. split; [|done].
  unfold load_opt, alloc_opt in *. simpl.
  destruct (heap_options h !! opt) eqn:E; [|discriminate].
  by rewrite (lookup_app_l_Some _ _ _ _ E).
Qed.

Lemma grows_alloc_parser h p : grows h (fst (alloc_parser h p)).
Proof. intros opt o O. exists o. by split. Qed.

Lemma set_type_ok h opt o t :
  load_opt h opt = Ret o -> set_type h opt t = Ret (heap_set_opt h opt (with_type o t)).
Proof. intros H. unfold set_type. rewrite H. eapply store_opt_ok, H. Qed.

Lemma set_greedy_ok h opt o b :
  load_opt h opt = Ret o ->
  set_greedy h opt b = Ret (heap_set_opt h opt (with_greedy o b)).
Proof. intros H. unfold set_greedy. rewrite H. eapply store_opt_ok, H. Qed.

(** The constructors of options, run on the option they have just
    allocated. *)
Ltac run_constructor :=
  unfold option_new;
  change (alloc_opt ?h ?o) with (fst (alloc_opt h o), length (heap_options h));
  cbv beta iota;
  unfold option_set_flag, option_set_str, option_set_int, option_set_float;
  repeat first
    [ rewrite (set_type_ok _ _ _ _ (load_alloc_opt _ _)), set_alloc_opt
    | rewrite (set_greedy_ok _ _ _ _ (load_alloc_opt _ _)), set_alloc_opt
    | rewrite (option_append_ok _ _ _ _ (load_alloc_opt _ _)), set_alloc_opt
    | progress cbn [bind] ];
  reflexivity.

Lemma option_new_flag_ok h :
  option_new_flag h =
    Ret (fst (alloc_opt h (fresh_option FLAG false [bool_val false])),
         length (heap_options h)).
Proof. unfold option_new_flag. run_constructor. Qed.

Lemma option_new_str_ok h value :
  option_new_str h value =
    Ret (fst (alloc_opt h (fresh_option STRING false [str_val value])),
         length (heap_options h)).
Proof. unfold option_new_str. run_constructor. Qed.

Lemma option_new_int_ok h value :
  option_new_int h value =
    Ret (fst (alloc_opt h (fresh_option INTEGER false [int_val value])),
         length (heap_options h)).
Proof. unfold option_new_int. run_constructor. Qed.

Lemma option_new_float_ok h value :
  option_new_float h value =
    Ret (fst (alloc_opt h (fresh_option FLOAT false [float_val value])),
         length (heap_options h)).
Proof. unfold option_new_float. run_constructor. Qed.

Lemma option_new_flag_list_ok h :
  option_new_flag_list h =
    Ret (fst (alloc_opt h (fresh_option FLAG false [])), length (heap_options h)).
Proof. unfold option_new_flag_list. run_constructor. Qed.

Lemma option_new_str_list_ok h greedy :
  option_new_str_list h greedy =
    Ret (fst (alloc_opt h (fresh_option STRING greedy [])), length (heap_options h)).
Proof. unfold option_new_str_list. run_constructor. Qed.

Lemma option_new_int_list_ok h greedy :
  option_new_int_list h greedy =
    Ret (fst (alloc_opt h (fresh_option INTEGER greedy [])), length (heap_options h)).
Proof. unfold option_new_int_list. run_constructor. Qed.

Lemma option_new_float_list_ok h greedy :
  option_new_float_list h greedy =
    Ret (fst (alloc_opt h (fresh_option FLOAT greedy [])), length (heap_options h)).
Proof. unfold option_new_float_list. run_constructor. Qed.

Lemma grows_add_option h parser name opt h' :
  add_option h parser name opt = Ret h' -> grows h h'.
Proof. unfold add_option. intros H. bind_inv H. grows_leaf. grows_chain. Qed.

Lemma grows_register h o parser name h' :
  add_option (fst (alloc_opt h o)) parser name (length (heap_options h)) = Ret h' ->
  grows h h'.
Proof.
  intros H. apply grows_add_option in H.
  eapply grows_trans; [apply grows_alloc_opt|exact H].
Qed.

Lemma grows_setter h parser name v h' :
  (opt <- argparser_get_opt h parser name;; option_append h opt v) = Ret h' ->
  grows h h'.
Proof. intros H. bind_inv H. grows_leaf. grows_chain. Qed.

Lemma grows_add_cmd h parser name helptext callback h' c :
  argparser_add_cmd h parser name helptext callback = Ret (h', c) -> grows h h'.
Proof.
  unfold argparser_add_cmd, argparser_new. intros H.
  change (alloc_parser h ?p) with (fst (alloc_parser h p), length (heap_parsers h)) in H.
  cbv beta iota in H. bind_inv H. injection H as <- <-.
  grows_leaf.
  match goal with
  | G : grows ?m _ |- _ =>
      apply (grows_trans h m); [apply grows_alloc_parser|grows_chain]
  end.
Qed.

(** Every call of the public interface but [ap_clear_list] leaves the
    options of the store in place and their values extended. *)
Lemma grows_run_op h op h' :
  callbacks_grow ->
  is_clear_list op = false ->
  run_op h op = Some (Ret h') ->
  grows h h'.
Proof.
  intros Cb NC H. destruct op; try discriminate NC; cbn [run_op lift] in H.
  - injection H as <-. apply grows_alloc_parser.
  - unfold ap_parse, argparser_parse in H. bind_inv H. injection H as <-.
    by eapply grows_parse_stream.
  - injection H as H. unfold ap_add_flag, argparser_add_flag in H.
    rewrite option_new_flag_ok in H. by eapply grows_register.
  - injection H as H. unfold ap_add_str, argparser_add_str in H.
    rewrite option_new_str_ok in H. by eapply grows_register.
  - injection H as H. unfold ap_add_int, argparser_add_int in H.
    rewrite option_new_int_ok in H. by eapply grows_register.
  - injection H as H. unfold ap_add_float, argparser_add_float in H.
    rewrite option_new_float_ok in H. by eapply grows_register.
  - injection H as H. unfold ap_add_flag_list, argparser_add_flag_list in H.
    rewrite option_new_flag_list_ok in H. by eapply grows_register.
  - injection H as H. unfold ap_add_str_list, argparser_add_str_list in H.
    rewrite option_new_str_list_ok in H. by eapply grows_register.
  - injection H as H. unfold ap_add_int_list, argparser_add_int_list in H.
    rewrite option_new_int_list_ok in H. by eapply grows_register.
  - injection H as H. unfold ap_add_float_list, argparser_add_float_list in H.
    rewrite option_new_float_list_ok in H. by eapply grows_register.
  - injection H as H. bind_inv H. injection H as <-. by eapply grows_add_cmd.
  - injection H as H. by eapply grows_setter.
  - injection H as H. by eapply grows_setter.
  - injection H as H. by eapply grows_setter.
  - injection H as H. by eapply grows_setter.
Qed.

(** *** The bound on the number of arguments is large enough *)

Lemma stream_le_refl s : stream_le s s.
Proof. unfold stream_le. auto. Qed.

Lemma stream_le_trans s1 s2 s3 : stream_le s1 s2 -> stream_le s2 s3 -> stream_le s1 s3.
Proof. unfold stream_le. intros (? & ? & ?) (? & ? & ?). repeat split; congruence || lia. Qed.

Lemma stream_le_advance s : stream_le s (advance s).
Proof. unfold stream_le. simpl. auto. Qed.

Lemma argstream_next_advance s arg s1 :
  argstream_next s = Ret (arg, s1) -> s1 = advance s.
Proof.
  unfold argstream_next. destruct (args s !! index s); [|discriminate].
  by intros [= _ <-].
Qed.

Lemma has_next_value_true s :
  argstream_has_next_value s = Ret true -> argstream_has_next s = true.
Proof.
  unfold argstream_has_next_value. by destruct (argstream_has_next s).
Qed.

Lemma has_next_lt s : argstream_has_next s = true -> index s < len s.
Proof. unfold argstream_has_next. apply Nat.ltb_lt. Qed.

Lemma total_on_ret {A : Type} s (proj : A -> ArgStream) a :
  stream_le s (proj a) -> total_on s proj (lift (Ret a)).
Proof. intros L. eexists. split; [reflexivity|]. by intros ? [= <-]. Qed.

Lemma total_on_stop {A : Type} s (proj : A -> ArgStream) (o : Outcome A) :
  (forall a, o <> Ret a) -> total_on s proj (Some o).
Proof. intros N. eexists. split; [reflexivity|]. intros a E. by destruct (N a). Qed.

Lemma total_on_bind {A B : Type} s s1 (pa : A -> ArgStream) (pb : B -> ArgStream)
  (m : M A) (k : A -> M B) :
  stream_le s s1 ->
  total_on s1 pa m ->
  (forall a, stream_le s1 (pa a) -> total_on (pa a) pb (k a)) ->
  total_on s pb (bindM m k).
Proof.
  intros L (o & -> & Ho) Hk. destruct o as [a| |]; cbn [bindM].
  - destruct (Hk a (Ho a eq_refl)) as (o' & -> & Ho'). eexists. split; [reflexivity|].
    intros b ->. eapply stream_le_trans; [exact L|].
    eapply stream_le_trans; [apply (Ho a eq_refl)|]. by apply Ho'.
  - by apply total_on_stop.
  - by apply total_on_stop.
Qed.

(** A call that does not touch the stream. *)
Lemma total_on_lift {A B : Type} s (pb : B -> ArgStream) (m : Outcome A) (k : A -> M B) :
  (forall a, m = Ret a -> total_on s pb (k a)) ->
  total_on s pb (bindM (lift m) k).
Proof.
  intros Hk. destruct m as [a| |]; cbn [bindM lift].
  - by apply Hk.
  - by apply total_on_stop.
  - by apply total_on_stop.
Qed.

Lemma greedy_loop_total fuel : forall h opt s,
  len s - index s <= fuel -> total_on s snd (greedy_loop fuel h opt s).
Proof.
  induction fuel as [|fuel IH]; intros h opt s F; cbn [greedy_loop];
    apply total_on_lift; intros [|] M0;
    try (apply total_on_ret, stream_le_refl).
  - apply has_next_value_true, has_next_lt in M0. lia.
  - apply total_on_lift. intros [arg s1] N. apply argstream_next_advance in N as ->.
    apply total_on_lift. intros h1 _.
    apply has_next_value_true, has_next_lt in M0.
    destruct (IH h1 opt (advance s) ltac:(simpl; lia)) as (o & -> & Ho).
    eexists. split; [reflexivity|]. intros a ->.
    eapply stream_le_trans; [apply stream_le_advance|]. by apply Ho.
Qed.

Lemma take_values_total fuel h opt (t : OptionType) s key :
  len s - index s <= fuel ->
  total_on s snd
    match t with
    | FLAG => h <~ lift (option_set_flag h opt true);; lift (Ret (h, s))
    | _ =>
        more <~ lift (argstream_has_next_value s);;
        if more : bool then
          '(value, s) <~ lift (argstream_next s);;
          h <~ lift (option_try_set h opt value);;
          o <~ lift (load_opt h opt);;
          if opt_greedy o then greedy_loop fuel h opt s else lift (Ret (h, s))
        else lift (err key)
    end.
Proof.
  intros F.
  assert (total_on s snd
            (more <~ lift (argstream_has_next_value s);;
             if more : bool then
               '(value, s) <~ lift (argstream_next s);;
               h <~ lift (option_try_set h opt value);;
               o <~ lift (load_opt h opt);;
               if opt_greedy o then greedy_loop fuel h opt s else lift (Ret (h, s))
             else lift (err key))) as Take.
  { apply total_on_lift. intros [|] M0; [|by apply total_on_stop].
    apply total_on_lift. intros [arg s1] N. apply argstream_next_advance in N as ->.
    apply total_on_lift. intros h1 _. apply total_on_lift. intros o _.
    destruct (opt_greedy o).
    - destruct (greedy_loop_total fuel h1 opt (advance s) ltac:(simpl; lia))
        as (r & -> & Hr).
      eexists. split; [reflexivity|]. intros a ->.
      eapply stream_le_trans; [apply stream_le_advance|]. by apply Hr.
    - apply total_on_ret, stream_le_advance. }
  destruct t; try exact Take.
  apply total_on_lift. intros h1 _. apply total_on_ret, stream_le_refl.
Qed.

Lemma long_option_total fuel h parser arg s :
  len s - index s <= fuel ->
  total_on s snd (argparser_parse_long_option fuel h parser arg s).
Proof.
  intros F. unfold argparser_parse_long_option. destruct (has_equals arg).
  - apply total_on_lift. intros h1 _. apply total_on_ret, stream_le_refl.
  - apply total_on_lift. intros p _. destruct (map_contains (options p) arg).
    + destruct (map_get (options p) arg) as [opt|]; [|by apply total_on_stop].
      apply total_on_lift. intros h1 _. apply total_on_lift. intros o _.
      by apply take_values_total.
    + destruct (if (arg =? "help")%string then helptext p else None);
        [by apply total_on_stop|].
      destruct (if (arg =? "version")%string then version p else None);
        by apply total_on_stop.
Qed.

Lemma short_option_loop_total fuel parser arg : forall h s,
  len s - index s <= fuel ->
  total_on s snd (short_option_loop fuel h parser arg s).
Proof.
  induction arg as [|c arg IH]; intros h s F; cbn [short_option_loop].
  - apply total_on_ret, stream_le_refl.
  - apply total_on_lift. intros p _.
    destruct (map_get (options p) (String c "")) as [opt|]; [|by apply total_on_stop].
    apply total_on_lift. intros h1 _. apply total_on_lift. intros o _.
    eapply (total_on_bind s s snd snd); [apply stream_le_refl| |].
    + by apply take_values_total.
    + intros [h2 s2] (Hl & _ & Hi). simpl in *. apply IH. lia.
Qed.

Lemma short_option_total fuel h parser arg s :
  len s - index s <= fuel ->
  total_on s snd (argparser_parse_short_option fuel h parser arg s).
Proof.
  intros F. unfold argparser_parse_short_option. destruct (has_equals arg).
  - apply total_on_lift. intros h1 _. apply total_on_ret, stream_le_refl.
  - by apply short_option_loop_total.
Qed.

Lemma parse_argument_total recurse fuel h parser arg s parsing :
  (forall h c s, len s - index s <= fuel -> total_on s snd (recurse h c s)) ->
  len s - index s <= fuel ->
  total_on s (fun r => snd (fst r))
    (parse_argument recurse fuel h parser arg s parsing).
Proof.
  intros Rec F. unfold parse_argument.
  assert (forall h', total_on s (fun r : Heap * ArgStream * bool => snd (fst r))
            (h <~ lift (append_argument h' parser arg);;
             lift (Ret (h, s, parsing)))) as Pos.
  { intros h'. apply total_on_lift. intros h1 _. apply total_on_ret, stream_le_refl. }
  destruct (negb parsing); [apply Pos|].
  destruct (arg =? "--")%string; [apply total_on_ret, stream_le_refl|].
  destruct (has_prefix "--" arg).
  { eapply (total_on_bind s s snd); [apply stream_le_refl| |].
    - by apply long_option_total.
    - intros [h1 s1] _. apply total_on_ret, stream_le_refl. }
  destruct (Ascii.eqb (char_at arg 0) "-").
  { destruct ((strlen arg =? 1) || isdigit (char_at arg 1)); [apply Pos|].
    eapply (total_on_bind s s snd); [apply stream_le_refl| |].
    - by apply short_option_total.
    - intros [h1 s1] _. apply total_on_ret, stream_le_refl. }
  apply total_on_lift. intros p _.
  destruct (map_contains (commands p) arg).
  { destruct (map_get (commands p) arg) as [c|]; [|by apply total_on_stop].
    apply total_on_lift. intros h1 _.
    eapply (total_on_bind s s snd); [apply stream_le_refl| |].
    - by apply Rec.
    - intros [h2 s2] _. destruct (mjoin (map_get (callbacks p) arg)).
      + apply total_on_lift. intros h3 _. apply total_on_ret, stream_le_refl.
      + apply total_on_ret, stream_le_refl. }
  destruct (arg =? "help")%string; [|apply Pos].
  destruct (argstream_has_next s); [|by apply total_on_stop].
  apply total_on_lift. intros [name s1] _.
  destruct (map_contains (commands p) name); [|by apply total_on_stop].
  destruct (map_get (commands p) name) as [c|]; [|by apply total_on_stop].
  apply total_on_lift. intros c' _.
  destruct (helptext c'); by apply total_on_stop.
Qed.

Lemma parse_stream_total fuel : forall h parser s parsing,
  len s - index s <= fuel ->
  total_on s snd (argparser_parse_stream fuel h parser s parsing).
Proof.
  induction fuel as [|fuel IH]; intros h parser s parsing F; simpl;
    destruct (argstream_has_next s) eqn:E;
    try (apply total_on_ret, stream_le_refl).
  - apply has_next_lt in E. lia.
  - apply has_next_lt in E.
    apply total_on_lift. intros [arg s1] N. apply argstream_next_advance in N as ->.
    eapply (total_on_bind s (advance s) (fun r => snd (fst r)));
      [apply stream_le_advance| |].
    + apply parse_argument_total; [|simpl; lia].
      intros h' c s' F'. by apply IH.
    + intros [[h2 s2] parsing2] (Hl & _ & Hi). simpl in *. apply IH. lia.
Qed.

(** The bound that [argparser_parse] passes to the loop, the number of
    arguments, is always large enough: the model of a parse always has an
    outcome. *)
Theorem argparser_parse_total h parser n (argv : list string) :
  exists o, argparser_parse h parser n argv = Some o.
Proof.
  unfold argparser_parse.
  destruct (parse_stream_total n h parser (argstream_new n argv) true
              ltac:(simpl; lia)) as (o & -> & _).
  destruct o as [[h' s']| |]; eexists; reflexivity.
Qed.

(** *** [strtol] on decimal numerals *)

Lemma small_N (d : N) :
  (d < 10)%N ->
  (d = 0 \/ d = 1 \/ d = 2 \/ d = 3 \/ d = 4 \/ d = 5 \/ d = 6 \/ d = 7 \/ d = 8
   \/ d = 9)%N.
Proof. lia. Qed.

Lemma digit_value_pretty d :
  (d < 10)%N -> digit_value (pretty_N_char d) = Some (Z.of_N d).
Proof.
  intros H. destruct (small_N d H) as [->|[->|[->|[->|[->|[->|[->|[->|[->| ->]]]]]]]]];
    reflexivity.
Qed.

Lemma not_digit_value base c :
  (base <= 10)%Z -> isdigit c = false -> is_digit_in base c = false.
Proof.
  unfold isdigit, is_digit_in, digit_value. intros B.
  set (n := nat_of_ascii c). intros H.
  assert (((48 <=? Z.of_nat n) && (Z.of_nat n <=? 57))%Z = false) as ->.
  { apply andb_false_iff in H as [H|H]; apply andb_false_iff.
    - left. apply Nat.leb_gt in H. apply Z.leb_gt. lia.
    - right. apply Nat.leb_gt in H. apply Z.leb_gt. lia. }
  destruct ((97 <=? Z.of_nat n) && (Z.of_nat n <=? 122))%Z eqn:E1.
  { apply andb_true_iff in E1 as [E1 _]. apply Z.leb_le in E1. apply Z.ltb_ge. lia. }
  destruct ((65 <=? Z.of_nat n) && (Z.of_nat n <=? 90))%Z eqn:E2; [|reflexivity].
  apply andb_true_iff in E2 as [E2 _]. apply Z.leb_le in E2. apply Z.ltb_ge. lia.
Qed.

Lemma strtol_digits_stop base acc any tail :
  (base <= 10)%Z -> no_digit_start tail = true ->
  strtol_digits base acc any tail = (acc, any, tail).
Proof.
  intros B H. destruct tail as [|c tail]; [reflexivity|].
  simpl in H. apply negb_true_iff in H.
  pose proof (not_digit_value base c B H) as N. unfold is_digit_in in N.
  cbn [strtol_digits]. destruct (digit_value c); [|reflexivity]. by rewrite N.
Qed.

Lemma pretty_N_go_app x : forall s t, pretty_N_go x s ++ t = pretty_N_go x (s ++ t).
Proof.
  induction (N.lt_wf_0 x) as [x _ IH]; intros s t.
  destruct (decide (x = 0)%N) as [->|N]; [by rewrite !pretty_N_go_0|].
  rewrite (pretty_N_go_step x s), (pretty_N_go_step x (s ++ t)) by lia.
  rewrite IH by (apply N.div_lt; lia). reflexivity.
Qed.

(** The digits that [pretty] prints are read back to the number printed. *)
Lemma strtol_digits_pretty x : forall any s,
  (0 < x)%N ->
  strtol_digits 10 0 any (pretty_N_go x s) = strtol_digits 10 (Z.of_N x) true s.
Proof.
  induction (N.lt_wf_0 x) as [x _ IH]; intros any s Hx.
  rewrite pretty_N_go_step by exact Hx.
  assert (x `mod` 10 < 10)%N as Hm by (apply N.mod_lt; lia).
  pose proof (N.div_mod x 10 ltac:(lia)) as Hd.
  destruct (decide (x `div` 10 = 0)%N) as [E|E].
  - rewrite E, pretty_N_go_0. cbn [strtol_digits].
    rewrite (digit_value_pretty _ Hm).
    replace (Z.of_N (x `mod` 10) <? 10)%Z with true by (symmetry; apply Z.ltb_lt; lia).
    f_equal. lia.
  - rewrite IH by (first [apply N.div_lt; lia|by apply N.neq_0_lt_0]).
    cbn [strtol_digits].
    rewrite (digit_value_pretty _ Hm).
    replace (Z.of_N (x `mod` 10) <? 10)%Z with true by (symmetry; apply Z.ltb_lt; lia).
    f_equal. lia.
Qed.

(** A printed number that is not zero starts with a digit from 1 to 9. *)
Lemma pretty_N_go_head x : forall s,
  (0 < x)%N ->
  exists d rest, (0 < d < 10)%N /\ pretty_N_go x s = String (pretty_N_char d) rest.
Proof.
  induction (N.lt_wf_0 x) as [x _ IH]; intros s Hx.
  rewrite pretty_N_go_step by exact Hx.
  destruct (decide (x `div` 10 = 0)%N) as [E|E].
  - rewrite E, pretty_N_go_0. exists (x `mod` 10)%N, s. split; [|reflexivity].
    pose proof (N.div_mod x 10 ltac:(lia)). pose proof (N.mod_lt x 10 ltac:(lia)). lia.
  - apply IH; [apply N.div_lt; lia|by apply N.neq_0_lt_0].
Qed.

(** [strtol] on a text that starts, after an optional minus sign, with a
    digit from 1 to 9: no space to skip, base ten. *)
Lemma strtol_decimal (neg : bool) d rest :
  (0 < d < 10)%N ->
  strtol ((if neg then "-" else "") ++ String (pretty_N_char d) rest) =
    let '(acc, any, rest') := strtol_digits 10 0 false (String (pretty_N_char d) rest) in
    if negb any then (0%Z, (if neg then "-" else "") ++ String (pretty_N_char d) rest,
                      false)
    else
      let v := if neg then (- acc)%Z else acc in
      if (LONG_MAX <? v)%Z then (LONG_MAX, rest', true)
      else if (v <? LONG_MIN)%Z then (LONG_MIN, rest', true)
      else (v, rest', false).
Proof.
  intros H.
  assert (d = 1 \/ d = 2 \/ d = 3 \/ d = 4 \/ d = 5 \/ d = 6 \/ d = 7 \/ d = 8 \/ d = 9)%N
    as [->|[->|[->|[->|[->|[->|[->|[->| ->]]]]]]]] by lia;
    destruct neg; reflexivity.
Qed.

Lemma strtol_pretty_N (neg : bool) (x : N) tail :
  (0 < x)%N -> no_digit_start tail = true ->
  strtol ((if neg then "-" else "") ++ pretty_N_go x tail) =
    clamp_long (if neg then (- Z.of_N x)%Z else Z.of_N x) tail.
Proof.
  intros Hx T. destruct (pretty_N_go_head x tail Hx) as (d & rest & Hd & E).
  rewrite E, (strtol_decimal neg d rest Hd), <- E.
  rewrite (strtol_digits_pretty x false tail Hx).
  rewrite (strtol_digits_stop 10 _ _ _ ltac:(lia) T). reflexivity.
Qed.

(** [strtol] reads a printed integer back, up to the range of [long], and
    stops at the text that follows it. *)
Lemma strtol_pretty z tail :
  z <> 0%Z -> no_digit_start tail = true ->
  strtol (pretty z ++ tail) = clamp_long z tail.
Proof.
  intros Hz T. destruct z as [|q|q]; [congruence| |].
  - unfold pretty, pretty_Z, pretty, pretty_positive, pretty, pretty_N.
    destruct (decide (N.pos q = 0%N)) as [?|_]; [lia|].
    rewrite pretty_N_go_app.
    apply (strtol_pretty_N false (N.pos q) tail); [lia|exact T].
  - unfold pretty, pretty_Z, pretty, pretty_positive, pretty, pretty_N.
    destruct (decide (N.pos q = 0%N)) as [?|_]; [lia|].
    change (("-" ++ pretty_N_go (N.pos q) "") ++ tail)
      with ("-" ++ (pretty_N_go (N.pos q) "" ++ tail)).
    rewrite pretty_N_go_app.
    apply (strtol_pretty_N true (N.pos q) tail); [lia|exact T].
Qed.

Lemma strtol_zero tail :
  no_digit_start tail = true -> starts_with_x tail = false ->
  strtol ("0" ++ tail) = (0%Z, tail, false).
Proof.
  intros T X. destruct tail as [|c tail]; [reflexivity|].
  simpl in T, X. apply negb_true_iff in T.
  pose proof (not_digit_value 8 c ltac:(lia) T) as N8. unfold is_digit_in in N8.
  assert (strtol_digits 8 0 false (String "0" (String c tail))
          = (0%Z, true, String c tail)) as D.
  { cbn [strtol_digits]. change (digit_value "0") with (Some 0%Z).
    change (0 <? 8)%Z with true. cbv iota. change (0 * 8 + 0)%Z with 0%Z.
    destruct (digit_value c); [by rewrite N8|reflexivity]. }
  change ("0" ++ String c tail) with (String "0" (String c tail)).
  unfold strtol.
  change (skip_space (String "0" (String c tail))) with (String "0" (String c tail)).
  cbv iota beta.
  destruct tail as [|d tail].
  - rewrite D. reflexivity.
  - rewrite X. cbn [andb]. rewrite D. reflexivity.
Qed.

Lemma eqb_empty_false tail : tail <> "" -> (tail =? "")%string = false.
Proof. intros H. by apply String.eqb_neq. Qed.

(** The coercion of a printed integer followed by a text that cannot
    continue the numeral: the range is checked first, then the text left. *)
Lemma try_str_to_int_pretty z tail :
  no_digit_start tail = true ->
  z <> 0%Z \/ starts_with_x tail = false ->
  try_str_to_int (pretty z ++ tail) =
    if ((z <? INT_MIN) || (INT_MAX <? z))%Z then
      err ("'" ++ (pretty z ++ tail) ++ "' is out of range")
    else if String.eqb tail "" then Ret z
    else err ("cannot parse '" ++ (pretty z ++ tail) ++ "' as an integer").
Proof.
  intros T Z0. unfold try_str_to_int.
  destruct (decide (z = 0%Z)) as [->|Hz].
  - destruct Z0 as [?|X]; [congruence|].
    change (pretty 0%Z) with "0". rewrite (strtol_zero _ T X).
    cbn [orb]. change (INT_MAX <? 0)%Z with false. change (0 <? INT_MIN)%Z with false.
    cbn [orb]. by destruct (tail =? "")%string.
  - rewrite (strtol_pretty _ _ Hz T). unfold clamp_long.
    unfold INT_MIN, INT_MAX, LONG_MIN, LONG_MAX in *.
    destruct (9223372036854775807 <? z)%Z eqn:E1.
    { apply Z.ltb_lt in E1.
      replace (2147483647 <? z)%Z with true by (symmetry; apply Z.ltb_lt; lia).
      cbn [orb]. by rewrite orb_true_r. }
    destruct (z <? -9223372036854775808)%Z eqn:E2.
    { apply Z.ltb_lt in E2.
      replace (z <? -2147483648)%Z with true by (symmetry; apply Z.ltb_lt; lia).
      reflexivity. }
    cbn [orb]. rewrite (orb_comm (2147483647 <? z)%Z).
    destruct ((z <? -2147483648) || (2147483647 <? z))%Z; [reflexivity|].
    by destruct (tail =? "")%string.
Qed.

(** A text that does not start as a numeral does: no space, no sign, no
    digit.  Nothing is converted, and the whole text is left over. *)
Lemma try_str_to_int_no_numeral c rest :
  isspace c = false ->
  isdigit c = false ->
  Ascii.eqb c "-" = false ->
  Ascii.eqb c "+" = false ->
  try_str_to_int (String c rest) =
    err ("cannot parse '" ++ String c rest ++ "' as an integer").
Proof.
  destruct c as [[] [] [] [] [] [] [] []]; intros Sp Di Mi Pl;
    try discriminate Sp; try discriminate Di; try discriminate Mi;
    try discriminate Pl; reflexivity.
Qed.

Lemma args_as_ints_first_failure pre : forall ints bad post st ch txt,
  args_as_ints pre = Ret ints ->
  try_str_to_int bad = Exit st ch txt ->
  args_as_ints (pre ++ bad :: post) = Exit st ch txt.
Proof.
  induction pre as [|a pre IH]; intros ints bad post st ch txt P B; simpl.
  - by rewrite B.
  - simpl in P. destruct (try_str_to_int a); try discriminate. cbn [bind] in *.
    destruct (args_as_ints pre) eqn:E; try discriminate.
    by rewrite (IH _ bad post st ch txt eq_refl B).
Qed.

Lemma try_str_to_int_exit arg st ch txt :
  try_str_to_int arg = Exit st ch txt -> st = 1%Z /\ ch = stderr.
Proof.
  unfold try_str_to_int, err. destruct (strtol arg) as [[r e] g].
  destruct (g || (INT_MAX <? r)%Z || (r <? INT_MIN)%Z); [by intros [= <- <- _]|].
  destruct (negb (e =? "")%string); [by intros [= <- <- _]|discriminate].
Qed.


(** *** Commands and plain arguments *)

(** The loop returns only on a stream that has no argument left. *)
Lemma parse_stream_exhausts fuel : forall h parser s parsing h' s',
  argparser_parse_stream fuel h parser s parsing = Some (Ret (h', s')) ->
  argstream_has_next s' = false.
Proof.
  induction fuel as [|fuel IH]; intros h parser s parsing h' s'; simpl;
    destruct (argstream_has_next s) eqn:E; try discriminate;
    try (intros [= <- <-]; exact E).
  destruct (argstream_next s) as [[arg s1]| |]; cbn [bindM lift]; try discriminate.
  destruct (parse_argument _ fuel h parser arg s1 parsing) as [[[[h2 s2] parsing2]| |]|];
    cbn [bindM]; try discriminate.
  apply IH.
Qed.

(** A token that does not start with a dash is told apart from the double
    dash and from the options. *)
Lemma plain_token_tests tok :
  Ascii.eqb (char_at tok 0) "-" = false ->
  String.eqb tok "--" = false /\ has_prefix "--" tok = false.
Proof.
  destruct tok as [|c tok]; [done|].
  change (char_at (String c tok) 0) with c. intros E. split.
  - apply String.eqb_neq. intros [= -> _]. discriminate.
  - cbn [has_prefix]. by rewrite Ascii.eqb_sym, E.
Qed.

(** A token that is not option syntax, on a parser without commands. *)
Lemma parse_argument_plain recurse fuel h parser p tok stream :
  plain_positional tok = true ->
  load_parser h parser = Ret p ->
  commands p = [] ->
  parse_argument recurse fuel h parser tok stream true =
    (h' <~ lift (append_argument h parser tok);; lift (Ret (h', stream, true))).
Proof.
  intros P L C. unfold plain_positional in P. apply orb_true_iff in P as [D|P].
  - by apply parse_argument_dash.
  - apply andb_true_iff in P as [E H]. apply negb_true_iff in E, H.
    unfold parse_argument. cbn [negb].
    destruct (plain_token_tests _ E) as [-> ->]. rewrite E, L. cbn [bindM lift].
    rewrite C. cbn [map_contains]. by rewrite H.
Qed.

(** The parse of [-abc val1 val2] on the store that the registration of
    the flags [a] and [b] and of an option [c] of type [t] leaves. *)
Lemma parse_abc helptext version (t : OptionType) (dv : OptionValue)
  (val1 val2 : string) (val : OptionValue) :
  spec_value_shaped val1 = true ->
  coerce t val1 = Ret (Some val) ->
  plain_positional val2 = true ->
  let p := {| helptext := helptext; version := version;
              options := [("a", 0); ("b", 1); ("c", 2)]; commands := map_new;
              callbacks := map_new; arguments := arglist_new;
              cmd_name := None; cmd_parser := None; parent := None |} in
  let oa := fresh_option FLAG false [bool_val false] in
  let oc := fresh_option t false [dv] in
  argparser_parse {| heap_options := [oa; oa; oc]; heap_parsers := [p] |} 0 3
    ["-abc"; val1; val2]
  = Some (Ret {| heap_options := [matched oa (bool_val true);
                                  matched oa (bool_val true);
                                  matched oc val];
                 heap_parsers := [set_arguments p [val2]] |}).
Proof.
  intros V1 C V2 p oa oc.
  set (h := {| heap_options := [oa; oa; oc]; heap_parsers := [p] |}).
  unfold argparser_parse.
  pose proof (next_are_new ["-abc"; val1; val2]) as (N0 & N1 & N2 & _).
  pose proof (new_stream_end ["-abc"; val1; val2]) as End.
  cbn [length advance_by] in *.
  set (s0 := argstream_new 3 ["-abc"; val1; val2]) in *.
  rewrite (parse_stream_step _ _ _ _ _ _ N0). unfold parse_argument. cbn [negb].
  change (("-abc" =? "--")%string) with false.
  change (has_prefix "--" "-abc") with false.
  change (Ascii.eqb (char_at "-abc" 0) "-") with true.
  change ((strlen "-abc" =? 1) || isdigit (char_at "-abc" 1)) with false.
  change (offset "-abc" 1) with "abc". cbv iota.
  unfold argparser_parse_short_option. change (has_equals "abc") with false.
  cbv iota.
  rewrite (short_option_loop_flag 2 h 0 p "a" "bc" (advance s0) 0 oa
             eq_refl eq_refl eq_refl eq_refl).
  set (h1 := heap_set_opt h 0 (matched oa (bool_val true))).
  rewrite (short_option_loop_flag 2 h1 0 p "b" "c" (advance s0) 1 oa
             eq_refl eq_refl eq_refl eq_refl).
  set (h2 := heap_set_opt h1 1 (matched oa (bool_val true))).
  rewrite (short_option_loop_value 2 h2 0 p "c" "" (advance s0) 2 oc val1 val
             eq_refl eq_refl eq_refl eq_refl N1 V1 C).
  set (h3 := heap_set_opt h2 2 (matched oc val)).
  cbn [short_option_loop bindM lift].
  rewrite (parse_stream_step _ _ _ _ _ _ N2).
  rewrite (parse_argument_plain _ _ h3 0 p val2 _ V2 eq_refl eq_refl).
  unfold append_argument. change (load_parser h3 0) with (Ret p). cbn [bind].
  rewrite (store_parser_ok h3 0 p _ eq_refl). cbn [bindM lift].
  rewrite (parse_stream_done _ _ _ _ _ End). reflexivity.
Qed.

(** *** [strtol] on hexadecimal and octal numerals *)

Lemma strtol_digits_numeral base s : forall acc any tail,
  all_digits base s = true ->
  match tail with
  | EmptyString => true
  | String c _ => negb (is_digit_in base c)
  end = true ->
  strtol_digits base acc any (s ++ tail) =
    (fold_left (fun acc c => (acc * base + default 0 (digit_value c))%Z)
       (list_ascii_of_string s) acc,
     any || negb (String.eqb s ""), tail).
Proof.
  induction s as [|c s IH]; intros acc any tail A T.
  - change ("" ++ tail) with tail. cbn [list_ascii_of_string fold_left].
    change (negb ("" =? "")%string) with false. rewrite orb_false_r.
    destruct tail as [|d tail]; [reflexivity|].
    apply negb_true_iff in T. unfold is_digit_in in T. cbn [strtol_digits].
    destruct (digit_value d); [by rewrite T|reflexivity].
  - change (String c s ++ tail) with (String c (s ++ tail)).
    unfold all_digits in A. cbn [list_ascii_of_string forallb] in A.
    apply andb_true_iff in A as [C A]. unfold is_digit_in in C.
    cbn [strtol_digits list_ascii_of_string fold_left].
    destruct (digit_value c) as [d|]; [|discriminate]. rewrite C.
    rewrite (IH _ true tail A T). cbn [default from_option id].
    change (negb (String c s =? "")%string) with true. cbn [orb].
    by rewrite orb_true_r.
Qed.

Lemma strtol_hexadecimal (neg : bool) (x : ascii) ds tail :
  Ascii.eqb x "x" || Ascii.eqb x "X" = true ->
  ds <> "" ->
  all_digits 16 ds = true ->
  match tail with
  | EmptyString => true
  | String c _ => negb (is_digit_in 16 c)
  end = true ->
  strtol (sign_text neg ++ String "0" (String x (ds ++ tail))) =
    clamp_long (signed neg (numeral 16 ds)) tail.
Proof.
  intros X N A T. destruct ds as [|d t]; [congruence|].
  pose proof (strtol_digits_numeral 16 (String d t) 0%Z false tail A T) as D.
  change (false || negb (String d t =? "")%string) with true in D.
  fold (numeral 16 (String d t)) in D.
  unfold all_digits in A. cbn [list_ascii_of_string forallb] in A.
  apply andb_true_iff in A as [Hd _].
  change (String d t ++ tail) with (String d (t ++ tail)) in *.
  unfold strtol, clamp_long, signed.
  apply orb_true_iff in X as [X|X]; apply Ascii.eqb_eq in X; subst x;
    destruct neg; cbn [sign_text];
    [ change (skip_space ("-" ++ String "0" (String "x" (String d (t ++ tail)))))
        with (String "-" (String "0" (String "x" (String d (t ++ tail)))))
    | change (skip_space ("" ++ String "0" (String "x" (String d (t ++ tail)))))
        with (String "0" (String "x" (String d (t ++ tail))))
    | change (skip_space ("-" ++ String "0" (String "X" (String d (t ++ tail)))))
        with (String "-" (String "0" (String "X" (String d (t ++ tail)))))
    | change (skip_space ("" ++ String "0" (String "X" (String d (t ++ tail)))))
        with (String "0" (String "X" (String d (t ++ tail)))) ];
    cbv iota beta;
    change (Ascii.eqb "x" "x" || Ascii.eqb "x" "X") with true;
    change (Ascii.eqb "X" "x" || Ascii.eqb "X" "X") with true;
    rewrite Hd; cbn [andb]; rewrite D; reflexivity.
Qed.

Lemma isdigit_not_x c :
  isdigit c = true -> Ascii.eqb c "x" || Ascii.eqb c "X" = false.
Proof.
  destruct c as [[] [] [] [] [] [] [] []]; intros D; try discriminate D; reflexivity.
Qed.

Lemma octal_digit_isdigit c : is_digit_in 8 c = true -> isdigit c = true.
Proof.
  destruct c as [[] [] [] [] [] [] [] []]; intros D; try discriminate D; reflexivity.
Qed.

Lemma strtol_digits_any base s : forall acc,
  snd (fst (strtol_digits base acc true s)) = true.
Proof.
  induction s as [|c s IH]; intros acc; [reflexivity|]. cbn [strtol_digits].
  destruct (digit_value c) as [d|]; [|reflexivity].
  destruct (d <? base)%Z; [apply IH|reflexivity].
Qed.

(** After a leading zero that starts no hexadecimal prefix the base is
    eight, and the zero is the first digit read. *)
Lemma strtol_leading_zero (neg : bool) s :
  match s with
  | EmptyString => true
  | String c _ => isdigit c
  end = true ->
  strtol (sign_text neg ++ String "0" s) =
    clamp_long (signed neg (fst (fst (strtol_digits 8 0 true s))))
      (snd (strtol_digits 8 0 true s)).
Proof.
  intros S. unfold strtol, clamp_long, signed.
  pose proof (strtol_digits_any 8 s 0%Z) as A.
  assert (D : strtol_digits 8 0 false (String "0" s) = strtol_digits 8 0 true s)
    by reflexivity.
  destruct (strtol_digits 8 0 true s) as [[acc any] rest]. simpl in A. subst any.
  cbn [fst snd].
  destruct neg; cbn [sign_text];
    [ change (skip_space ("-" ++ String "0" s)) with (String "-" (String "0" s))
    | change (skip_space ("" ++ String "0" s)) with (String "0" s) ];
    cbv iota beta;
    (destruct s as [|x [|d t]];
     [ by rewrite D
     | by rewrite D
     | rewrite (isdigit_not_x x S); cbn [andb]; by rewrite D ]).
Qed.

Lemma in_int_range_long v :
  (INT_MIN <= v <= INT_MAX)%Z -> forall tail, clamp_long v tail = (v, tail, false).
Proof.
  intros R tail. unfold clamp_long, INT_MIN, INT_MAX, LONG_MAX, LONG_MIN in *.
  replace (9223372036854775807 <? v)%Z with false by (symmetry; apply Z.ltb_ge; lia).
  by replace (v <? -9223372036854775808)%Z with false by (symmetry; apply Z.ltb_ge; lia).
Qed.

Lemma try_str_to_int_of_strtol arg v rest :
  strtol arg = (v, rest, false) ->
  (INT_MIN <= v <= INT_MAX)%Z ->
  try_str_to_int arg =
    if String.eqb rest "" then Ret v
    else err ("cannot parse '" ++ arg ++ "' as an integer").
Proof.
  intros S R. unfold try_str_to_int. rewrite S. cbn [orb].
  replace (INT_MAX <? v)%Z with false by (symmetry; apply Z.ltb_ge; lia).
  replace (v <? INT_MIN)%Z with false by (symmetry; apply Z.ltb_ge; lia).
  cbn [orb]. by destruct (rest =? "")%string.
Qed.

(** *** What parsing keeps *)

Lemma option_kept_refl o : option_kept o o.
Proof.
  repeat split; try done. exists []. split; [by rewrite app_nil_r|constructor].
Qed.

Lemma option_kept_trans o1 o2 o3 :
  option_kept o1 o2 -> option_kept o2 o3 -> option_kept o1 o3.
Proof.
  intros (T1 & G1 & F1 & n1 & V1 & A1) (T2 & G2 & F2 & n2 & V2 & A2).
  repeat split; [congruence|congruence|tauto|].
  exists (n1 ++ n2)%list. split.
  - by rewrite V2, V1, app_assoc.
  - apply Forall_app. split; [done|]. by rewrite <- T1.
Qed.

Lemma parser_kept_refl p : parser_kept p p.
Proof. by repeat split. Qed.

Lemma parser_kept_trans p1 p2 p3 :
  parser_kept p1 p2 -> parser_kept p2 p3 -> parser_kept p1 p3.
Proof.
  intros (H1 & V1 & O1 & C1 & B1 & P1 & A1) (H2 & V2 & O2 & C2 & B2 & P2 & A2).
  repeat split; try congruence. by etrans.
Qed.

Lemma keeps_refl h : keeps h h.
Proof.
  repeat split; try done.
  - intros opt o O. exists o. split; [done|apply option_kept_refl].
  - intros parser p L. exists p. split; [done|apply parser_kept_refl].
Qed.

Lemma keeps_trans h1 h2 h3 : keeps h1 h2 -> keeps h2 h3 -> keeps h1 h3.
Proof.
  intros (Lo1 & Lp1 & O1 & P1) (Lo2 & Lp2 & O2 & P2).
  repeat split; try congruence.
  - intros opt o O. destruct (O1 _ _ O) as (o2 & E2 & K2).
    destruct (O2 _ _ E2) as (o3 & E3 & K3). exists o3.
    split; [done|by eapply option_kept_trans].
  - intros parser p L. destruct (P1 _ _ L) as (p2 & E2 & K2).
    destruct (P2 _ _ E2) as (p3 & E3 & K3). exists p3.
    split; [done|by eapply parser_kept_trans].
Qed.

Lemma keeps_set_opt h opt o o' :
  load_opt h opt = Ret o -> option_kept o o' -> keeps h (heap_set_opt h opt o').
Proof.
  intros O K. repeat split.
  - unfold heap_set_opt. simpl. by rewrite length_insert.
  - intros opt2 o2 O2. destruct (decide (opt = opt2)) as [<-|N].
    + rewrite O in O2. injection O2 as <-. exists o'.
      split; [by eapply load_set_opt_same|done].
    + exists o2. rewrite load_set_opt_other by done. split; [done|apply option_kept_refl].
  - intros parser p L. exists p. split; [done|apply parser_kept_refl].
Qed.

Lemma keeps_set_parser h parser p p' :
  load_parser h parser = Ret p -> parser_kept p p' ->
  keeps h (heap_set_parser h parser p').
Proof.
  intros L K. repeat split.
  - unfold heap_set_parser. simpl. by rewrite length_insert.
  - intros opt o O. exists o. split; [done|apply option_kept_refl].
  - intros parser2 p2 L2. destruct (decide (parser = parser2)) as [<-|N].
    + rewrite L in L2. injection L2 as <-. exists p'.
      split; [by eapply load_set_parser_same|done].
    + exists p2. rewrite load_set_parser_other by done.
      split; [done|apply parser_kept_refl].
Qed.

Lemma keeps_set_found h opt h' : set_found h opt true = Ret h' -> keeps h h'.
Proof.
  unfold set_found. intros H. bind_inv H.
  rewrite (store_opt_ok _ _ _ _ E) in H. injection H as <-.
  eapply keeps_set_opt; [done|]. repeat split; try done.
  exists []. split; [by rewrite app_nil_r|constructor].
Qed.

Lemma keeps_push h opt o v :
  load_opt h opt = Ret o -> value_type v = opt_type o ->
  keeps h (heap_set_opt h opt (push_value o v)).
Proof.
  intros O T. eapply keeps_set_opt; [done|]. repeat split; try done.
  exists [v]. split; [done|]. by constructor.
Qed.

Lemma keeps_option_try_set h opt arg h' :
  option_try_set h opt arg = Ret h' -> keeps h h'.
Proof.
  intros H. unfold option_try_set in H.
  destruct (load_opt h opt) as [o| |] eqn:O; cbn [bind] in H; try discriminate.
  pose proof (option_try_set_ok h opt o arg O) as Q. unfold option_try_set in Q.
  rewrite O in Q. cbn [bind] in Q. rewrite Q in H. clear Q. unfold coerce in H.
  destruct (opt_type o) eqn:T; cbn [bind] in H.
  - injection H as <-. apply keeps_refl.
  - injection H as <-. by apply keeps_push.
  - destruct (try_str_to_int arg); cbn [bind] in H; try discriminate.
    injection H as <-. by apply keeps_push.
  - destruct (try_str_to_double arg); cbn [bind] in H; try discriminate.
    injection H as <-. by apply keeps_push.
Qed.

Lemma keeps_set_flag h opt o h' :
  load_opt h opt = Ret o -> opt_type o = FLAG ->
  option_set_flag h opt true = Ret h' -> keeps h h'.
Proof.
  intros O T H. unfold option_set_flag in H.
  rewrite (option_append_ok _ _ _ _ O) in H. injection H as <-.
  by apply keeps_push.
Qed.

Lemma keeps_append_argument h parser arg h' :
  append_argument h parser arg = Ret h' -> keeps h h'.
Proof.
  unfold append_argument. intros H. bind_inv H.
  rewrite (store_parser_ok _ _ _ _ E) in H. injection H as <-.
  eapply keeps_set_parser; [done|]. repeat split. by apply prefix_app_r.
Qed.

Lemma keeps_set_cmd h parser p name c h' :
  load_parser h parser = Ret p ->
  store_parser h parser (set_cmd p name c) = Ret h' -> keeps h h'.
Proof.
  intros L H. rewrite (store_parser_ok _ _ _ _ L) in H. injection H as <-.
  eapply keeps_set_parser; [done|]. by repeat split.
Qed.

Ltac keeps_leaf :=
  repeat match goal with
    | H : set_found _ _ true = Ret _ |- _ => apply keeps_set_found in H
    | H : option_try_set _ _ _ = Ret _ |- _ => apply keeps_option_try_set in H
    | H : append_argument _ _ _ = Ret _ |- _ => apply keeps_append_argument in H
    | L : load_opt ?h ?opt = Ret ?o, T : opt_type ?o = FLAG,
      H : option_set_flag ?h ?opt true = Ret _ |- _ =>
        apply (keeps_set_flag h opt o _ L T) in H
    | L : load_parser ?h ?parser = Ret ?p,
      H : store_parser ?h ?parser (set_cmd ?p _ _) = Ret _ |- _ =>
        apply (keeps_set_cmd h parser p _ _ _ L) in H
    end.

Ltac keeps_chain :=
  repeat match goal with
    | H : keeps ?a ?b |- keeps ?a ?c => first [exact H | apply (keeps_trans a b c H)]
    end;
  try apply keeps_refl.

Lemma keeps_equals_option h parser prefix arg h' :
  argparser_parse_equals_option h parser prefix arg = Ret h' -> keeps h h'.
Proof.
  unfold argparser_parse_equals_option. intros H.
  destruct (strchr_split arg "=") as [[name value]|]; [|discriminate].
  bind_inv H. destruct (map_get (options _) name) as [opt|]; [|discriminate].
  bind_inv H.
  match type of H with
  | match ?t with _ => _ end = _ =>
      assert (option_try_set a0 opt value = Ret h') as H'
        by (destruct t; try discriminate;
            destruct (strlen value =? 0); try discriminate; exact H)
  end.
  keeps_leaf. keeps_chain.
Qed.

Lemma keeps_greedy_loop fuel : forall h opt s h' s',
  greedy_loop fuel h opt s = Some (Ret (h', s')) -> keeps h h'.
Proof.
  induction fuel as [|fuel IH]; intros h opt s h' s' H; cbn [greedy_loop] in H;
    bind_inv H;
    match type of H with (if ?b then _ else _) = _ => destruct b end;
    try discriminate; try (injection H as <- <-; apply keeps_refl).
  bind_inv H. apply IH in H. keeps_leaf. keeps_chain.
Qed.

Lemma keeps_take_values fuel h opt o s key h' s' :
  load_opt h opt = Ret o ->
  match opt_type o with
  | FLAG => h <~ lift (option_set_flag h opt true);; lift (Ret (h, s))
  | _ =>
      more <~ lift (argstream_has_next_value s);;
      if more : bool then
        '(value, s) <~ lift (argstream_next s);;
        h <~ lift (option_try_set h opt value);;
        o <~ lift (load_opt h opt);;
        if opt_greedy o then greedy_loop fuel h opt s else lift (Ret (h, s))
      else lift (err key)
  end = Some (Ret (h', s')) ->
  keeps h h'.
Proof.
  intros O H.
  assert (forall m, m = Some (Ret (h', s')) ->
            m = (more <~ lift (argstream_has_next_value s);;
                 if more : bool then
                   '(value, s) <~ lift (argstream_next s);;
                   h <~ lift (option_try_set h opt value);;
                   o <~ lift (load_opt h opt);;
                   if opt_greedy o then greedy_loop fuel h opt s else lift (Ret (h, s))
                 else lift (err key)) -> keeps h h') as Take.
  { intros m Hm ->. bind_inv Hm.
    match type of Hm with (if ?b then _ else _) = _ => destruct b end;
      [|discriminate].
    bind_inv Hm.
    match type of Hm with (if ?b then _ else _) = _ => destruct b end.
    - apply keeps_greedy_loop in Hm. keeps_leaf. keeps_chain.
    - injection Hm as <- <-. keeps_leaf. keeps_chain. }
  destruct (opt_type o) eqn:T; try (by eapply Take).
  bind_inv H. injection H as <- <-. keeps_leaf. keeps_chain.
Qed.

Lemma keeps_long_option fuel h parser arg s h' s' :
  argparser_parse_long_option fuel h parser arg s = Some (Ret (h', s')) ->
  keeps h h'.
Proof.
  unfold argparser_parse_long_option. intros H.
  destruct (has_equals arg).
  - bind_inv H. injection H as <- <-. by eapply keeps_equals_option.
  - bind_inv H.
    match type of H with (if ?b then _ else _) = _ => destruct b end.
    + destruct (map_get (options _) arg) as [opt|]; [|discriminate].
      bind_inv H.
      match goal with
      | L : load_opt _ opt = Ret _ |- _ => apply (keeps_take_values _ _ _ _ _ _ _ _ L) in H
      end.
      keeps_leaf. keeps_chain.
    + repeat match type of H with
        | match ?x with _ => _ end = _ => destruct x; try discriminate H
        end.
Qed.

Lemma keeps_short_option_loop fuel parser arg : forall h s h' s',
  short_option_loop fuel h parser arg s = Some (Ret (h', s')) -> keeps h h'.
Proof.
  induction arg as [|c arg IH]; intros h s h' s' H; cbn [short_option_loop] in H.
  - injection H as <- <-. apply keeps_refl.
  - bind_inv H. destruct (map_get (options _) (String c "")) as [opt|];
      [|discriminate].
    bind_inv H. apply IH in H.
    match goal with
    | L : load_opt _ opt = Ret _,
      E : match _ with _ => _ end = Some (Ret _) |- _ =>
        apply (keeps_take_values _ _ _ _ _ _ _ _ L) in E
    end.
    keeps_leaf. keeps_chain.
Qed.

Lemma keeps_short_option fuel h parser arg s h' s' :
  argparser_parse_short_option fuel h parser arg s = Some (Ret (h', s')) ->
  keeps h h'.
Proof.
  unfold argparser_parse_short_option. intros H. destruct (has_equals arg).
  - bind_inv H. injection H as <- <-. by eapply keeps_equals_option.
  - by eapply keeps_short_option_loop.
Qed.

Lemma keeps_parse_argument recurse fuel h parser arg s parsing h' s' parsing' :
  callbacks_keep ->
  (forall h c s h' s', recurse h c s = Some (Ret (h', s')) -> keeps h h') ->
  parse_argument recurse fuel h parser arg s parsing = Some (Ret (h', s', parsing')) ->
  keeps h h'.
Proof.
  intros Cb Rec H. unfold parse_argument in H.
  repeat match type of H with
    | (if ?b then _ else _) = _ => destruct b
    | match map_get ?m ?k with _ => _ end = _ =>
        destruct (map_get m k); try discriminate H
    | match helptext ?c with _ => _ end = _ => destruct (helptext c); discriminate H
    | match mjoin ?x with _ => _ end = _ => destruct (mjoin x)
    | _ => progress bind_inv H
    | _ = _ => injection H as <- <- <-
    end;
    try discriminate;
    repeat match goal with
      | E : argparser_parse_long_option _ _ _ _ _ = Some (Ret _) |- _ =>
          apply keeps_long_option in E
      | E : argparser_parse_short_option _ _ _ _ _ = Some (Ret _) |- _ =>
          apply keeps_short_option in E
      | E : recurse _ _ _ = Some (Ret _) |- _ => apply Rec in E
      | E : invoke _ _ _ = Ret _ |- _ => apply Cb in E
      end;
    keeps_leaf; keeps_chain.
Qed.

Lemma keeps_parse_stream fuel :
  callbacks_keep ->
  forall h parser s parsing h' s',
    argparser_parse_stream fuel h parser s parsing = Some (Ret (h', s')) ->
    keeps h h'.
Proof.
  intros Cb. induction fuel as [|fuel IH]; intros h parser s parsing h' s' H;
    simpl in H; destruct (argstream_has_next s); try discriminate;
    try (injection H as <- <-; apply keeps_refl).
  destruct (argstream_next s) as [[arg s1]| |]; cbn [bindM lift] in H;
    try discriminate.
  destruct (parse_argument _ fuel h parser arg s1 parsing)
    as [[[[h2 s2] parsing2]| |]|] eqn:E; cbn [bindM] in H; try discriminate.
  apply keeps_parse_argument in E; [|exact Cb|].
  - apply IH in H. keeps_chain.
  - intros ? ? ? ? ? R. by eapply IH.
Qed.

(** *** A greedy option in a bundle *)

(** A greedy list, of any type, takes the whole run of value-shaped
    arguments under the cursor. *)
Lemma greedy_loop_values vs : forall vals fuel h opt o s,
  load_opt h opt = Ret o ->
  Forall2 (fun v val => coerce (opt_type o) v = Ret (Some val)) vs vals ->
  next_are s vs ->
  forallb spec_value_shaped vs = true ->
  argstream_has_next_value (advance_by (length vs) s) = Ret false ->
  length vs <= fuel ->
  greedy_loop fuel h opt s =
    Some (Ret (heap_set_opt h opt (with_values o (opt_values o ++ vals)%list),
               advance_by (length vs) s)).
Proof.
  induction vs as [|v vs IH]; intros vals fuel h opt o s O C N V E F.
  - apply Forall2_nil_inv_l in C as ->. simpl in *.
    assert (greedy_loop fuel h opt s = Some (Ret (h, s))) as ->.
    { destruct fuel; simpl; by rewrite E. }
    rewrite app_nil_r.
    replace (with_values o (opt_values o)) with o by (by destruct o).
    by rewrite (heap_set_opt_id _ _ _ O).
  - apply Forall2_cons_inv_l in C as (val & vals' & Cv & C & ->).
    destruct fuel as [|fuel]; [simpl in F; lia|].
    destruct N as [N N']. simpl in V. apply andb_true_iff in V as [V V'].
    cbn [greedy_loop]. rewrite (next_is_has_next_value _ _ N), V. cbn [bindM lift].
    rewrite (next_is_next _ _ N). cbn [bindM lift].
    rewrite (option_try_set_ok _ _ _ _ O), Cv. cbn [bind bindM lift].
    rewrite (IH vals' fuel _ opt (push_value o val) (advance s)
               (load_set_opt_same _ _ _ _ O) C N' V' E ltac:(simpl in F; lia)).
    rewrite heap_set_opt_twice. cbn [length advance_by].
    do 4 f_equal. unfold with_values, push_value. simpl.
    by rewrite <- app_assoc.
Qed.

Lemma short_option_loop_greedy fuel h parser p c rest s opt o v val vs vals :
  load_parser h parser = Ret p ->
  map_get (options p) (String c "") = Some opt ->
  load_opt h opt = Ret o ->
  opt_greedy o = true ->
  next_are s (v :: vs) ->
  forallb spec_value_shaped (v :: vs) = true ->
  Forall2 (fun v val => coerce (opt_type o) v = Ret (Some val)) (v :: vs) (val :: vals) ->
  argstream_has_next_value (advance_by (S (length vs)) s) = Ret false ->
  length vs <= fuel ->
  short_option_loop fuel h parser (String c rest) s =
    short_option_loop fuel
      (heap_set_opt h opt
         (with_values (with_found o true) (opt_values o ++ val :: vals)%list))
      parser rest (advance_by (S (length vs)) s).
Proof.
  intros L G O Gr [N N'] V C E F.
  apply Forall2_cons_1 in C as [Cv C].
  simpl in V. apply andb_true_iff in V as [Sh V].
  cbn [short_option_loop]. rewrite L. cbn [bindM lift].
  rewrite G, (set_found_ok _ _ _ _ O). cbn [bindM lift].
  rewrite (load_set_opt_same _ _ _ _ O). cbn [bindM lift].
  change (opt_type (with_found o true)) with (opt_type o).
  rewrite (opt_type_not_flag _ _ _ (coerce_some_not_flag _ _ _ Cv)).
  rewrite (next_is_has_next_value _ _ N), Sh. cbn [bindM lift].
  rewrite (next_is_next _ _ N). cbn [bindM lift].
  rewrite (try_set_matched _ _ _ _ _ O Cv). cbn [bindM lift].
  rewrite (load_set_opt_same _ _ _ _ O). cbn [bindM lift].
  change (opt_greedy (matched o val)) with (opt_greedy o). rewrite Gr.
  rewrite (greedy_loop_values vs vals fuel _ opt (matched o val) (advance s)
             (load_set_opt_same _ _ _ _ O) C N' V E F).
  cbn [bindM lift]. rewrite heap_set_opt_twice. cbn [advance_by].
  do 2 f_equal. unfold with_values, matched, push_value, with_found. simpl.
  by rewrite <- app_assoc.
Qed.

(** *** [ap_clear_list] empties one option *)

Lemma clear_list_ok h parser name opt o :
  argparser_get_opt h parser name = Ret opt ->
  load_opt h opt = Ret o ->
  ap_clear_list h parser name = Ret (heap_set_opt h opt (with_values o [])).
Proof.
  intros G O. unfold ap_clear_list, argparser_clear_list, option_clear, set_values.
  rewrite G. cbn [bind]. rewrite O. cbn [bind]. by apply (store_opt_ok _ _ o).
Qed.

Lemma clear_list_other h parser name h' opt o :
  ap_clear_list h parser name = Ret h' ->
  argparser_get_opt h parser name <> Ret opt ->
  load_opt h opt = Ret o ->
  load_opt h' opt = Ret o.
Proof.
  intros H N O.
  destruct (argparser_get_opt h parser name) as [opt2| |] eqn:G;
    [|unfold ap_clear_list, argparser_clear_list in H; rewrite G in H;
      discriminate H..].
  destruct (load_opt h opt2) as [o2| |] eqn:O2;
    [|unfold ap_clear_list, argparser_clear_list, option_clear, set_values in H;
      rewrite G in H; cbn [bind] in H; rewrite O2 in H; discriminate H..].
  rewrite (clear_list_ok _ _ _ _ _ G O2) in H. injection H as <-.
  rewrite load_set_opt_other; [done|]. intros ->. by apply N.
Qed.

(** *** [strtol] on every numeral *)

Lemma strtol_from_sign nptr :
  strtol nptr =
    match skip_space nptr with
    | String "-" t => strtol_from nptr true t
    | String "+" t => strtol_from nptr false t
    | s => strtol_from nptr false s
    end.
Proof.
  unfold strtol, strtol_from.
  destruct (skip_space nptr) as [|c t]; [reflexivity|].
  destruct c as [[] [] [] [] [] [] [] []]; reflexivity.
Qed.

Lemma skip_space_app ws rest :
  all_space ws = true -> skip_space (ws ++ rest) = skip_space rest.
Proof.
  induction ws as [|c ws IH]; intros A; [reflexivity|].
  unfold all_space in A. cbn [list_ascii_of_string forallb] in A.
  apply andb_true_iff in A as [C A].
  change (String c ws ++ rest) with (String c (ws ++ rest)).
  cbn [skip_space]. rewrite C. by apply IH.
Qed.

Lemma strtol_sign ws sg body :
  all_space ws = true ->
  is_sign sg = true ->
  (sg = "" ->
   match body with
   | EmptyString => true
   | String c _ => negb (isspace c || Ascii.eqb c "+" || Ascii.eqb c "-")
   end = true) ->
  strtol (ws ++ sg ++ body) = strtol_from (ws ++ sg ++ body) (negative sg) body.
Proof.
  intros W S B. rewrite strtol_from_sign, (skip_space_app _ _ W).
  unfold is_sign in S. apply orb_true_iff in S as [S|S];
    [apply orb_true_iff in S as [S|S]|]; apply String.eqb_eq in S; subst sg.
  - change ("" ++ body) with body. specialize (B eq_refl).
    destruct body as [|c t]; [reflexivity|].
    destruct c as [[] [] [] [] [] [] [] []]; try discriminate B; reflexivity.
  - reflexivity.
  - reflexivity.
Qed.

Lemma is_digit_in_10 c : is_digit_in 10 c = isdigit c.
Proof. destruct c as [[] [] [] [] [] [] [] []]; reflexivity. Qed.

Lemma clamp_signed neg acc rest :
  (let v := if neg : bool then (- acc)%Z else acc in
   if (LONG_MAX <? v)%Z then (LONG_MAX, rest, true)
   else if (v <? LONG_MIN)%Z then (LONG_MIN, rest, true)
   else (v, rest, false))
  = clamp_long (signed neg acc) rest.
Proof. reflexivity. Qed.

Lemma strtol_from_decimal nptr neg ds tail :
  numeral_ok (decimal ds) = true ->
  ends_numeral 10 tail = true ->
  strtol_from nptr neg (ds ++ tail) = clamp_long (signed neg (numeral 10 ds)) tail.
Proof.
  intros O E. cbn [numeral_ok] in O. apply andb_true_iff in O as [A Z].
  destruct ds as [|d t]; [discriminate Z|].
  pose proof (strtol_digits_numeral 10 (String d t) 0%Z false tail A E) as D.
  change (false || negb (String d t =? "")%string) with true in D.
  fold (numeral 10 (String d t)) in D.
  change (String d t ++ tail) with (String d (t ++ tail)) in *.
  unfold strtol_from.
  assert (B : match String d (t ++ tail) with
              | String "0" (String x (String d' t')) =>
                  if (Ascii.eqb x "x" || Ascii.eqb x "X") && is_digit_in 16 d'
                  then (16%Z, String d' t') else (8%Z, String d (t ++ tail))
              | String "0" _ => (8%Z, String d (t ++ tail))
              | _ => (10%Z, String d (t ++ tail))
              end = (10%Z, String d (t ++ tail))).
  { destruct d as [[] [] [] [] [] [] [] []]; try discriminate Z; reflexivity. }
  rewrite B, D. reflexivity.
Qed.

Lemma strtol_from_hexadecimal nptr neg x ds tail :
  numeral_ok (hexadecimal x ds) = true ->
  ends_numeral 16 tail = true ->
  strtol_from nptr neg (String "0" (String x (ds ++ tail)))
  = clamp_long (signed neg (numeral 16 ds)) tail.
Proof.
  intros O E. cbn [numeral_ok] in O. apply andb_true_iff in O as [O N].
  apply andb_true_iff in O as [X A].
  destruct ds as [|d t]; [discriminate N|].
  pose proof (strtol_digits_numeral 16 (String d t) 0%Z false tail A E) as D.
  change (false || negb (String d t =? "")%string) with true in D.
  fold (numeral 16 (String d t)) in D.
  unfold all_digits in A. cbn [list_ascii_of_string forallb] in A.
  apply andb_true_iff in A as [Hd _].
  change (String d t ++ tail) with (String d (t ++ tail)) in *.
  unfold strtol_from. unfold is_x in X. rewrite X, Hd. cbn [andb]. rewrite D.
  reflexivity.
Qed.

Lemma strtol_from_octal nptr neg ds tail :
  numeral_ok (octal ds) = true ->
  numeral_ends (octal ds) tail = true ->
  strtol_from nptr neg (String "0" (ds ++ tail))
  = clamp_long (signed neg (numeral 8 ds)) tail.
Proof.
  intros A E. cbn [numeral_ok] in A. cbn [numeral_ends] in E.
  apply andb_true_iff in E as [E H].
  pose proof (strtol_digits_numeral 8 ds 0%Z true tail A E) as D.
  cbn [orb] in D. fold (numeral 8 ds) in D.
  assert (D0 : strtol_digits 8 0 false (String "0" (ds ++ tail))
               = strtol_digits 8 0 true (ds ++ tail)) by reflexivity.
  unfold strtol_from.
  assert (B : match String "0" (ds ++ tail) with
              | String "0" (String x (String d' t')) =>
                  if (Ascii.eqb x "x" || Ascii.eqb x "X") && is_digit_in 16 d'
                  then (16%Z, String d' t') else (8%Z, String "0" (ds ++ tail))
              | String "0" _ => (8%Z, String "0" (ds ++ tail))
              | _ => (10%Z, String "0" (ds ++ tail))
              end = (8%Z, String "0" (ds ++ tail))).
  { destruct ds as [|d ds].
    - change ("" ++ tail) with tail in *. cbn [String.eqb andb] in H.
      apply negb_true_iff in H.
      destruct tail as [|x [|d' t']]; try reflexivity.
      cbn [looks_hexadecimal] in H. unfold is_x in H. by rewrite H.
    - change (String d ds ++ tail) with (String d (ds ++ tail)).
      unfold all_digits in A. cbn [list_ascii_of_string forallb] in A.
      apply andb_true_iff in A as [Hd _].
      rewrite (isdigit_not_x d (octal_digit_isdigit d Hd)). cbn [andb].
      by destruct (ds ++ tail). }
  rewrite B, D0, D. reflexivity.
Qed.

Lemma strtol_from_none nptr neg tail :
  match tail with
  | EmptyString => true
  | String c _ => negb (isdigit c)
  end = true ->
  strtol_from nptr neg tail = (0%Z, nptr, false).
Proof.
  intros N. destruct tail as [|c t]; [reflexivity|].
  destruct c as [[] [] [] [] [] [] [] []]; try discriminate N; reflexivity.
Qed.

(** The range of [int] is tested before the text that is left. *)
Lemma try_str_to_int_clamp arg z tail :
  strtol arg = clamp_long z tail ->
  try_str_to_int arg =
    if ((z <? INT_MIN) || (INT_MAX <? z))%Z then
      err ("'" ++ arg ++ "' is out of range")
    else if String.eqb tail "" then Ret z
    else err ("cannot parse '" ++ arg ++ "' as an integer").
Proof.
  intros S. unfold try_str_to_int. rewrite S. unfold clamp_long.
  unfold INT_MIN, INT_MAX, LONG_MIN, LONG_MAX in *.
  destruct (9223372036854775807 <? z)%Z eqn:E1.
  { apply Z.ltb_lt in E1.
    replace (2147483647 <? z)%Z with true by (symmetry; apply Z.ltb_lt; lia).
    cbn [orb]. by rewrite orb_true_r. }
  destruct (z <? -9223372036854775808)%Z eqn:E2.
  { apply Z.ltb_lt in E2.
    replace (z <? -2147483648)%Z with true by (symmetry; apply Z.ltb_lt; lia).
    reflexivity. }
  cbn [orb]. rewrite (orb_comm (2147483647 <? z)%Z).
  destruct ((z <? -2147483648) || (2147483647 <? z))%Z; [reflexivity|].
  by destruct (tail =? "")%string.
Qed.

Lemma strtol_numeral ws sg n tail :
  all_space ws = true ->
  is_sign sg = true ->
  numeral_ok n = true ->
  numeral_ends n tail = true ->
  strtol (ws ++ sg ++ numeral_text n ++ tail)
  = clamp_long (signed (negative sg) (numeral_value n)) tail.
Proof.
  intros W S O E. rewrite (strtol_sign ws sg _ W S).
  - destruct n as [ds|ds|x ds]; cbn [numeral_text numeral_value].
    + by apply strtol_from_decimal.
    + change (String "0" ds ++ tail) with (String "0" (ds ++ tail)).
      by apply strtol_from_octal.
    + change (String "0" (String x ds) ++ tail)
        with (String "0" (String x (ds ++ tail))).
      by apply strtol_from_hexadecimal.
  - intros _. destruct n as [ds|ds|x ds]; cbn [numeral_text]; try reflexivity.
    cbn [numeral_ok] in O. apply andb_true_iff in O as [A Z].
    destruct ds as [|d t]; [discriminate Z|].
    unfold all_digits in A. cbn [list_ascii_of_string forallb] in A.
    apply andb_true_iff in A as [Hd _].
    change (String d t ++ tail) with (String d (t ++ tail)).
    destruct d as [[] [] [] [] [] [] [] []]; try discriminate Hd; reflexivity.
Qed.

Lemma strtol_no_numeral ws sg tail :
  all_space ws = true ->
  is_sign sg = true ->
  no_numeral sg tail = true ->
  strtol (ws ++ sg ++ tail) = (0%Z, ws ++ sg ++ tail, false).
Proof.
  intros W S N. rewrite (strtol_sign ws sg _ W S).
  - apply strtol_from_none. destruct tail as [|c t]; [done|].
    cbn [no_numeral] in N. by apply andb_true_iff in N as [N _].
  - intros ->. destruct tail as [|c t]; [done|].
    cbn [no_numeral] in N. apply andb_true_iff in N as [_ N].
    by rewrite String.eqb_refl in N.
Qed.

Lemma err_text {A : Type} msg :
  @err A msg = Exit 1 stderr ("Error: " ++ msg ++ "." ++ newline).
Proof. reflexivity. Qed.

Lemma out_of_range_text text :
  @err Z ("'" ++ text ++ "' is out of range")
  = Exit 1 stderr ("Error: '" ++ text ++ "' is out of range." ++ newline).
Proof. unfold err. rewrite !append_assoc. reflexivity. Qed.

Lemma cannot_parse_text text :
  @err Z ("cannot parse '" ++ text ++ "' as an integer")
  = Exit 1 stderr ("Error: cannot parse '" ++ text ++ "' as an integer." ++ newline).
Proof.
  unfold err. rewrite !append_assoc. reflexivity.
Qed.

(** *** Where the arguments of a command line end up *)






















(* ------------------------------------------------------------------------- *)
(** ** Properties of the parsing algorithm *)
(* ------------------------------------------------------------------------- *)

(** C1, as the code has it.  The loop over a bundle looks each character
    up as an option name and stops the process when it is not one.  A flag
    is marked as found and has [true] appended.  An option that is not a
    flag claims the value-shaped argument under the cursor, and when it is
    greedy the whole run of value-shaped arguments that starts there.  In
    every case the loop then goes on with the remaining characters of the
    bundle, on the stream moved past the values that were claimed. *)
Theorem C1_bundle_goes_on_after_a_value
  (fuel : nat) (h : Heap) (parser : ptr) (p : ArgParser) (c : ascii)
  (rest : string) (s : ArgStream) :
  load_parser h parser = Ret p ->
  (map_get (options p) (String c "") = None ->
     short_option_loop fuel h parser (String c rest) s =
       Some (err ("-" ++ String c "" ++ " is not a recognised option")))
  /\ (forall opt o,
        map_get (options p) (String c "") = Some opt ->
        load_opt h opt = Ret o ->
        opt_type o = FLAG ->
        short_option_loop fuel h parser (String c rest) s =
          short_option_loop fuel (heap_set_opt h opt (matched o (bool_val true)))
            parser rest s)
  /\ (forall opt o v val,
        map_get (options p) (String c "") = Some opt ->
        load_opt h opt = Ret o ->
        opt_greedy o = false ->
        next_is s v ->
        spec_value_shaped v = true ->
        coerce (opt_type o) v = Ret (Some val) ->
        short_option_loop fuel h parser (String c rest) s =
          short_option_loop fuel (heap_set_opt h opt (matched o val))
            parser rest (advance s))
  /\ (forall opt o v val vs vals,
        map_get (options p) (String c "") = Some opt ->
        load_opt h opt = Ret o ->
        opt_greedy o = true ->
        next_are s (v :: vs) ->
        forallb spec_value_shaped (v :: vs) = true ->
        Forall2 (fun v val => coerce (opt_type o) v = Ret (Some val))
          (v :: vs) (val :: vals) ->
        argstream_has_next_value (advance_by (S (length vs)) s) = Ret false ->
        length vs <= fuel ->
        short_option_loop fuel h parser (String c rest) s =
          short_option_loop fuel
            (heap_set_opt h opt
               (with_values (with_found o true) (opt_values o ++ val :: vals)%list))
            parser rest (advance_by (S (length vs)) s)).
Proof.
  intros L. split; [|split; [|split]].
  - intros G. cbn [short_option_loop]. rewrite L. cbn [bindM lift]. by rewrite G.
  - intros opt o G O T. by eapply short_option_loop_flag.
  - intros opt o v val G O Gr N Sh C. by eapply short_option_loop_value.
  - intros opt o v val vs vals G O Gr N V C E F. by eapply short_option_loop_greedy.
Qed.

(** C2. With a command [push] registered on the root parser and a flag
    [force] registered on the parser of the command, the command line
    [push --force file.txt] makes the root report the command and its name,
    sets the flag and leaves exactly [file.txt] in the positional arguments
    of the command, and nothing in those of the root.  In general, when the
    loop meets the name of a registered command it records the command,
    lets the parser of the command parse the rest of the stream, calls the
    callback if there is one, and returns: the stream that comes back from
    the command has no argument left for the parent. *)
Theorem C2_command_takes_the_rest_of_the_stream
  (helptext version cmd_help : option string) (prog : string) :
  (let '(h, root) := ap_new empty_heap helptext version in
   '(h, push) <~ lift (ap_add_cmd h root "push" cmd_help None);;
   h <~ lift (ap_add_flag h push "force");;
   h <~ ap_parse h root 4 [prog; "push"; "--force"; "file.txt"];;
   lift (has_cmd <- ap_has_cmd h root;;
         name <- ap_get_cmd_name h root;;
         force <- ap_get_flag h push "force";;
         push_args <- ap_get_args h push;;
         root_args <- ap_get_args h root;;
         Ret (has_cmd, name, force, push_args, root_args)))
  = Some (Ret (true, Some "push", true, ["file.txt"], []))
  /\ forall fuel h parser p s name cmd_parser,
       load_parser h parser = Ret p ->
       next_is s name ->
       Ascii.eqb (char_at name 0) "-" = false ->
       map_get (commands p) name = Some cmd_parser ->
       argparser_parse_stream (S fuel) h parser s true =
         ('(h', s') <~
            argparser_parse_stream fuel
              (heap_set_parser h parser (set_cmd p name cmd_parser))
              cmd_parser (advance s) true;;
          h'' <~ lift (match mjoin (map_get (callbacks p) name) with
                       | Some cb => invoke cb cmd_parser h'
                       | None => Ret h'
                       end);;
          lift (Ret (h'', s'))).
Proof.
  split; [vm_compute; reflexivity|].
  intros fuel h parser p s name cmd_parser L N D G.
  rewrite (parse_stream_step _ _ _ _ _ _ N). unfold parse_argument. cbn [negb].
  destruct (plain_token_tests _ D) as [-> ->]. rewrite D, L. cbn [bindM lift].
  rewrite map_contains_get, G, (store_parser_ok _ _ _ _ L). cbn [bindM lift].
  destruct (argparser_parse_stream fuel _ cmd_parser (advance s) true)
    as [[[h' s']| |]|] eqn:R; cbn [bindM]; try reflexivity.
  apply parse_stream_exhausts in R.
  destruct (mjoin (map_get (callbacks p) name)) as [cb|]; cbn [bindM lift].
  - destruct (invoke cb cmd_parser h'); cbn [bindM lift]; try reflexivity.
    by rewrite (parse_stream_done _ _ _ _ _ R).
  - by rewrite (parse_stream_done _ _ _ _ _ R).
Qed.

(** C3. On a parser whose only option is the greedy list of strings
    [tags], the command line [--tags v1 ... vn -- w1 ... wm], with every
    [vi] value-shaped, leaves exactly the [vi] in the list and exactly the
    [wj] in the positional arguments: the greedy loop stops before the
    double dash, which is not value-shaped, and the double dash turns option
    parsing off. *)
Theorem C3_greedy_list_stops_at_double_dash
  (helptext version : option string) (prog : string) (vs ws : list string) :
  vs <> [] ->
  forallb spec_value_shaped vs = true ->
  spec_value_shaped "--" = false
  /\ (let argv := (prog :: "--tags" :: vs ++ "--" :: ws)%list in
      let '(h, root) := ap_new empty_heap helptext version in
      h <~ lift (ap_add_str_list h root "tags" true);;
      h <~ ap_parse h root (length argv) argv;;
      lift (tags <- ap_get_str_list h root "tags";;
            positionals <- ap_get_args h root;;
            Ret (tags, positionals)))
     = Some (Ret (Some vs, ws)).
Proof.
  intros Hne V. split; [reflexivity|].
  destruct vs as [|v vs]; [congruence|]. clear Hne.
  cbn zeta. unfold ap_new, argparser_new, alloc_parser.
  cbn [empty_heap heap_parsers heap_options length].
  set (p1 := {| helptext := helptext; version := version;
                options := [("tags", 0)]; commands := map_new;
                callbacks := map_new; arguments := arglist_new;
                cmd_name := None; cmd_parser := None; parent := None |}).
  set (o1 := {| opt_type := STRING; opt_found := false; opt_greedy := true;
                opt_values := [] |}).
  set (h1 := {| heap_options := [o1]; heap_parsers := [p1] |}).
  change (ap_add_str_list _ 0 "tags" true) with (Ret h1). cbn [bindM lift].
  unfold ap_parse, argparser_parse. cbn [length tail Nat.sub app].
  set (toks := ("--tags" :: v :: vs ++ "--" :: ws)%list).
  change (argstream_new _ _) with (argstream_new (length toks) toks).
  pose proof (next_are_new toks) as N. pose proof (new_stream_end toks) as End.
  set (s0 := argstream_new (length toks) toks) in *.
  unfold toks in N, End.
  change ("--tags" :: v :: vs ++ "--" :: ws)%list
    with (["--tags"] ++ (v :: vs) ++ "--" :: ws)%list in N, End.
  rewrite !length_app, !advance_by_app in End.
  apply next_are_app in N as [[N0 _] N]. apply next_are_app in N as [N1 N].
  destruct N as [N2 N3].
  cbn [length advance_by] in *.
  rewrite (parse_stream_step _ _ _ _ _ _ N0). unfold parse_argument. cbn [negb].
  change (("--tags" =? "--")%string) with false.
  change (has_prefix "--" "--tags") with true.
  change (offset "--tags" 2) with "tags". cbv iota.
  rewrite (long_option_greedy_strings _ h1 0 p1 "tags" 0 o1 v vs (advance s0)
             eq_refl eq_refl eq_refl eq_refl eq_refl eq_refl N1 V).
  2:{ change (advance_by (S (length vs)) (advance s0))
        with (advance_by (length vs) (advance (advance s0))).
      by rewrite (next_is_has_next_value _ _ N2). }
  2:{ rewrite length_app. lia. }
  cbn [bindM lift].
  change (advance_by (S (length vs)) (advance s0))
    with (advance_by (length vs) (advance (advance s0))).
  rewrite (parse_stream_step _ _ _ _ _ _ N2). unfold parse_argument. cbn [negb].
  change (("--" =? "--")%string) with true. cbv iota. cbn [bindM lift].
  erewrite (parse_stream_positionals ws _ (heap_set_opt h1 0 _) 0 p1 _ eq_refl N3 End);
    [|rewrite length_app; simpl; lia].
  cbn [bindM lift]. unfold ap_get_str_list, argparser_get_str_list, ap_get_args,
    argparser_get_args, argparser_get_opt, option_get_str_list.
  subst h1 p1 o1. cbn -[str_vals map]. rewrite str_vals_map. reflexivity.
Qed.

(** C4, as the code has it.  For an option that is neither a flag nor
    greedy, whose name is not empty and has no equals sign, and for a text
    that is not empty and is value-shaped, the command line [--name=v] and
    the command line [--name v] have the same outcome: the same store when
    the text converts to the type of the option, with the option marked as
    found and the value appended, and the same exit otherwise. *)
Theorem C4_equals_form_and_space_form_agree
  (h : Heap) (parser : ptr) (p : ArgParser) (name v : string)
  (opt : ptr) (o : Option) :
  load_parser h parser = Ret p ->
  map_get (options p) name = Some opt ->
  load_opt h opt = Ret o ->
  opt_type o <> FLAG ->
  opt_greedy o = false ->
  name <> "" ->
  has_equals name = false ->
  v <> "" ->
  spec_value_shaped v = true ->
  argparser_parse h parser 1 ["--" ++ name ++ "=" ++ v] =
    argparser_parse h parser 2 ["--" ++ name; v]
  /\ forall val, coerce (opt_type o) v = Ret (Some val) ->
       argparser_parse h parser 2 ["--" ++ name; v] =
         Some (Ret (heap_set_opt h opt (matched o val))).
Proof.
  intros L G O T Gr Nn E V Sh.
  assert (argparser_parse h parser 1 ["--" ++ name ++ "=" ++ v] =
          (h' <~ lift (option_try_set (heap_set_opt h opt (with_found o true)) opt v);;
           lift (Ret h'))) as E1.
  { unfold argparser_parse.
    assert (next_is (argstream_new 1 ["--" ++ name ++ "=" ++ v])
                    ("--" ++ name ++ "=" ++ v)) as N.
    { split; [simpl; lia|reflexivity]. }
    rewrite (parse_stream_step _ _ _ _ _ _ N). unfold parse_argument. cbn [negb].
    assert (name ++ "=" ++ v <> "") as Nv by (destruct name; discriminate).
    destruct (long_token _ Nv) as (-> & -> & ->).
    unfold argparser_parse_long_option.
    change (name ++ "=" ++ v) with (name ++ String "=" v).
    rewrite has_equals_app.
    change (name ++ String "=" v) with (name ++ "=" ++ v).
    rewrite (equals_option_ok _ _ _ _ _ _ _ _ L G O T E V).
    destruct (option_try_set _ opt v); reflexivity. }
  assert (argparser_parse h parser 2 ["--" ++ name; v] =
          (h' <~ lift (option_try_set (heap_set_opt h opt (with_found o true)) opt v);;
           lift (Ret h'))) as E2.
  { unfold argparser_parse.
    assert (next_is (argstream_new 2 ["--" ++ name; v]) ("--" ++ name)) as N.
    { split; [simpl; lia|reflexivity]. }
    rewrite (parse_stream_step _ _ _ _ _ _ N). unfold parse_argument. cbn [negb].
    destruct (long_token _ Nn) as (-> & -> & ->).
    assert (next_is (advance (argstream_new 2 ["--" ++ name; v])) v) as N'.
    { split; [simpl; lia|reflexivity]. }
    rewrite (long_option_space_form _ _ _ _ _ _ _ _ _ L G O T Gr E N' Sh).
    destruct (option_try_set _ opt v); reflexivity. }
  split.
  - by rewrite E1, E2.
  - intros val C. rewrite E2, (try_set_matched _ _ _ _ _ O C). reflexivity.
Qed.


(** C6. With flags [a] and [b] and a scalar option [c] that is not a flag
    registered, the command line [-abc val1 val2], where [val1] is
    value-shaped and converts to the type of [c] and [val2] is not option
    syntax, sets both flags, makes the value of [val1] the current value of
    [c] and leaves [val2] as the one positional argument. *)
Theorem C6_bundle_with_a_value
  (helptext version : option string) (prog : string) (c : Scalar)
  (val1 val2 : string) (val : OptionValue) :
  spec_value_shaped val1 = true ->
  coerce (scalar_type c) val1 = Ret (Some val) ->
  plain_positional val2 = true ->
  (let '(h, root) := ap_new empty_heap helptext version in
   h <~ lift (ap_add_flag h root "a");;
   h <~ lift (ap_add_flag h root "b");;
   h <~ lift (ap_add_scalar h root "c" c);;
   h <~ ap_parse h root 4 [prog; "-abc"; val1; val2];;
   lift (a <- ap_get_flag h root "a";;
         b <- ap_get_flag h root "b";;
         current <- ap_get_scalar h root "c" (scalar_type c);;
         positionals <- ap_get_args h root;;
         Ret (a, b, current, positionals)))
  = Some (Ret (true, true, val, [val2])).
Proof.
  intros V1 C V2.
  destruct c as [d|d|d];
    [pose proof (parse_abc helptext version STRING (str_val d) val1 val2 val V1 C V2)
       as P
    |pose proof (parse_abc helptext version INTEGER (int_val d) val1 val2 val V1 C V2)
       as P
    |pose proof (parse_abc helptext version FLOAT (float_val d) val1 val2 val V1 C V2)
       as P];
    cbn zeta in P; cbn zeta;
    unfold ap_new, argparser_new, alloc_parser;
    cbn [empty_heap heap_parsers heap_options length app];
    unfold bindM at 1 2 3; unfold lift at 1 2 3;
    repeat (match goal with
            | |- context [ap_add_flag ?h ?p ?n] =>
                let r := eval cbv in (ap_add_flag h p n) in
                change (ap_add_flag h p n) with r
            | |- context [ap_add_scalar ?h ?p ?n ?c] =>
                let r := eval cbv in (ap_add_scalar h p n c) in
                change (ap_add_scalar h p n c) with r
            end; cbv iota beta);
    unfold ap_parse; cbn [Nat.sub tail];
    match type of P with
    | argparser_parse ?h3 _ _ _ = _ =>
        match goal with
        | |- bindM (argparser_parse ?hh _ _ _) _ = _ => change hh with h3
        end
    end;
    rewrite P; cbn [bindM lift]; cbn [coerce scalar_type] in C.
  - injection C as <-. reflexivity.
  - destruct (try_str_to_int val1); try discriminate C.
    injection C as <-. reflexivity.
  - destruct (try_str_to_double val1); try discriminate C.
    injection C as <-. reflexivity.
Qed.

(** C7, as the code has it.  With option parsing on, a last argument
    [help] that is not a registered command stops the process with status 1
    and the diagnostic of a help command without argument; nothing is
    appended to the positional arguments. *)
Theorem C7_help_without_argument_is_fatal
  (fuel : nat) (h : Heap) (parser : ptr) (p : ArgParser) (s : ArgStream) :
  load_parser h parser = Ret p ->
  map_contains (commands p) "help" = false ->
  next_is s "help" ->
  argstream_has_next (advance s) = false ->
  argparser_parse_stream (S fuel) h parser s true =
    Some (Exit 1 stderr ("Error: the help command requires an argument." ++ newline)).
Proof.
  intros L C N E.
  rewrite (parse_stream_step _ _ _ _ _ _ N).
  unfold parse_argument. simpl. rewrite L. simpl. rewrite C, E. reflexivity.
Qed.

(** C8, as the code has it.  The integer accessor turns the positional
    arguments [10] and [20] into the integers 10 and 20, and stops the
    process with status 1 at [x] in [10], [x].  For every text that starts,
    after white space and an optional sign, with a numeral (decimal, octal
    after a zero, hexadecimal after [0x]) the coercion stops the process
    with the out-of-range diagnostic when the value is outside the range of
    [int], whatever follows the numeral; with the cannot-parse diagnostic
    when the value is in range and a text follows; and returns the value
    when nothing follows.  A text that starts with no numeral gets the
    cannot-parse diagnostic, unless it is empty, which gives 0.  Every
    integer of the range comes back from its decimal text.  A list of
    arguments stops at its first failure, and every failure of the coercion
    is an exit with status 1 on the error stream. *)
Theorem C8_integer_coercion :
  (forall helptext version prog,
     (let '(h, root) := ap_new empty_heap helptext version in
      h <~ ap_parse h root 3 [prog; "10"; "20"];;
      lift (ap_get_args_as_ints h root)) = Some (Ret [10; 20]%Z)
     /\ (let '(h, root) := ap_new empty_heap helptext version in
         h <~ ap_parse h root 3 [prog; "10"; "x"];;
         lift (ap_get_args_as_ints h root))
        = Some (Exit 1 stderr ("Error: cannot parse 'x' as an integer." ++ newline)))
  /\ (forall ws sg n tail,
        all_space ws = true ->
        is_sign sg = true ->
        numeral_ok n = true ->
        numeral_ends n tail = true ->
        let z := signed (negative sg) (numeral_value n) in
        let text := ws ++ sg ++ numeral_text n ++ tail in
        ((z < INT_MIN \/ INT_MAX < z)%Z ->
         try_str_to_int text =
           Exit 1 stderr ("Error: '" ++ text ++ "' is out of range." ++ newline))
        /\ ((INT_MIN <= z <= INT_MAX)%Z ->
            tail <> "" ->
            try_str_to_int text =
              Exit 1 stderr
                ("Error: cannot parse '" ++ text ++ "' as an integer." ++ newline))
        /\ ((INT_MIN <= z <= INT_MAX)%Z ->
            tail = "" ->
            try_str_to_int text = Ret z))
  /\ (forall ws sg tail,
        all_space ws = true ->
        is_sign sg = true ->
        no_numeral sg tail = true ->
        let text := ws ++ sg ++ tail in
        (text <> "" ->
         try_str_to_int text =
           Exit 1 stderr
             ("Error: cannot parse '" ++ text ++ "' as an integer." ++ newline))
        /\ (text = "" -> try_str_to_int text = Ret 0%Z))
  /\ (forall z, (INT_MIN <= z <= INT_MAX)%Z -> try_str_to_int (pretty z) = Ret z)
  /\ (forall pre ints bad post st ch txt,
        args_as_ints pre = Ret ints ->
        try_str_to_int bad = Exit st ch txt ->
        args_as_ints (pre ++ bad :: post) = Exit st ch txt
        /\ st = 1%Z /\ ch = stderr).
Proof.
  split; [|split; [|split; [|split]]].
  - intros helptext version prog. split; vm_compute; reflexivity.
  - intros ws sg n tail W S O E z text.
    pose proof (try_str_to_int_clamp text z tail (strtol_numeral ws sg n tail W S O E))
      as T.
    split; [|split].
    + intros R. rewrite T.
      replace ((z <? INT_MIN) || (INT_MAX <? z))%Z with true.
      * apply out_of_range_text.
      * symmetry. apply orb_true_iff. destruct R; [left|right]; by apply Z.ltb_lt.
    + intros R NE. rewrite T.
      replace ((z <? INT_MIN) || (INT_MAX <? z))%Z with false
        by (symmetry; apply orb_false_iff; split; apply Z.ltb_ge; lia).
      rewrite (eqb_empty_false _ NE). apply cannot_parse_text.
    + intros R ->. rewrite T.
      by replace ((z <? INT_MIN) || (INT_MAX <? z))%Z with false
        by (symmetry; apply orb_false_iff; split; apply Z.ltb_ge; lia).
  - intros ws sg tail W S N text.
    pose proof (strtol_no_numeral ws sg tail W S N) as T. fold text in T.
    split.
    + intros NE. unfold try_str_to_int. rewrite T. cbn [orb].
      change (INT_MAX <? 0)%Z with false. change (0 <? INT_MIN)%Z with false.
      cbn [orb]. rewrite (eqb_empty_false _ NE). cbn [negb].
      apply cannot_parse_text.
    + by intros ->.
  - intros z R.
    pose proof (try_str_to_int_pretty z "" eq_refl (or_intror eq_refl)) as H.
    rewrite append_empty_r in H. rewrite H.
    replace ((z <? INT_MIN) || (INT_MAX <? z))%Z with false; [reflexivity|].
    symmetry. apply orb_false_iff. split; apply Z.ltb_ge; lia.
  - intros pre ints bad post st ch txt P B. split.
    + by eapply args_as_ints_first_failure.
    + by eapply try_str_to_int_exit.
Qed.

(** C9, as the code has it.  The constructor of a scalar option leaves
    one value in the list, the default of the registration.  Every call of
    the public interface that changes a parser, other than an
    [ap_clear_list] whose name refers to the option itself, leaves an option
    that has a value with its first value in place and with a last value for
    the scalar getters to read: parsing and the setters append, registration
    allocates next to it, and [ap_clear_list] on another option does not
    touch it.  (The queries take the store and return none.)  Callbacks are
    taken to behave in the same way.  An [ap_clear_list] whose name refers
    to the option leaves it without any value. *)
Theorem C9_values_stay_unless_cleared :
  callbacks_grow ->
  (forall h,
     (exists h', option_new_flag h = Ret (h', length (heap_options h))
        /\ load_opt h' (length (heap_options h))
           = Ret (fresh_option FLAG false [bool_val false]))
     /\ (forall value, exists h',
           option_new_str h value = Ret (h', length (heap_options h))
           /\ load_opt h' (length (heap_options h))
              = Ret (fresh_option STRING false [str_val value]))
     /\ (forall value, exists h',
           option_new_int h value = Ret (h', length (heap_options h))
           /\ load_opt h' (length (heap_options h))
              = Ret (fresh_option INTEGER false [int_val value]))
     /\ (forall value, exists h',
           option_new_float h value = Ret (h', length (heap_options h))
           /\ load_opt h' (length (heap_options h))
              = Ret (fresh_option FLOAT false [float_val value])))
  /\ (forall h op h' opt o,
        ~ clears_option h op opt ->
        run_op h op = Some (Ret h') ->
        load_opt h opt = Ret o ->
        opt_values o <> [] ->
        exists o',
          load_opt h' opt = Ret o'
          /\ opt_values o' !! 0 = opt_values o !! 0
          /\ last (opt_values o') <> None)
  /\ (forall h parser name opt o,
        argparser_get_opt h parser name = Ret opt ->
        load_opt h opt = Ret o ->
        exists h',
          run_op h (op_clear_list parser name) = Some (Ret h')
          /\ load_opt h' opt = Ret (with_values o [])
          /\ ap_len_list h' parser name = Ret 0).
Proof.
  intros Cb. split; [|split].
  - intros h. repeat split; intros; eexists;
      (split; [first [apply option_new_flag_ok | apply option_new_str_ok
                     | apply option_new_int_ok | apply option_new_float_ok]
              | apply load_alloc_opt]).
  - intros h op h' opt o NC R O NE.
    assert (Last : forall vs : list OptionValue, vs <> [] -> last vs <> None).
    { intros vs. destruct vs as [|v vs] using rev_ind; [done|].
      intros _. by rewrite last_snoc. }
    destruct (is_clear_list op) eqn:Cl.
    + destruct op; try discriminate Cl. cbn [run_op lift] in R.
      injection R as R. cbn [clears_option] in NC.
      exists o. split; [by eapply clear_list_other|]. split; [done|by apply Last].
    + destruct (grows_run_op _ _ _ Cb Cl R _ _ O) as (o' & O' & _ & [k Hk]).
      exists o'. split; [exact O'|]. rewrite Hk.
      destruct (opt_values o) as [|v vs]; [congruence|]. split; [reflexivity|].
      by apply Last.
  - intros h parser name opt o G O.
    exists (heap_set_opt h opt (with_values o [])). cbn [run_op lift].
    rewrite (clear_list_ok _ _ _ _ _ G O). split; [done|].
    split; [by eapply load_set_opt_same|].
    unfold ap_len_list, argparser_len_list.
    assert (argparser_get_opt (heap_set_opt h opt (with_values o [])) parser name
            = Ret opt) as ->.
    { unfold argparser_get_opt in *. by rewrite load_parser_set_opt. }
    cbn [bind]. by rewrite (load_set_opt_same _ _ _ _ O).
Qed.

(** C10. The equals form of an option, greedy or not, long or short,
    stores the one value written after the sign and returns the stream as it
    received it, whatever the arguments under the cursor are. *)
Theorem C10_equals_form_leaves_the_stream
  (fuel : nat) (h : Heap) (parser : ptr) (p : ArgParser) (name v : string)
  (opt : ptr) (o : Option) (val : OptionValue) (s : ArgStream) :
  load_parser h parser = Ret p ->
  map_get (options p) name = Some opt ->
  load_opt h opt = Ret o ->
  opt_greedy o = true ->
  has_equals name = false ->
  v <> "" ->
  coerce (opt_type o) v = Ret (Some val) ->
  argparser_parse_long_option fuel h parser (name ++ "=" ++ v) s =
    Some (Ret (heap_set_opt h opt (matched o val), s))
  /\ argparser_parse_short_option fuel h parser (name ++ "=" ++ v) s =
    Some (Ret (heap_set_opt h opt (matched o val), s)).
Proof.
  intros L G O _ E V C.
  pose proof (coerce_some_not_flag _ _ _ C) as T.
  unfold argparser_parse_long_option, argparser_parse_short_option.
  change (name ++ "=" ++ v) with (name ++ String "=" v).
  rewrite has_equals_app.
  change (name ++ String "=" v) with (name ++ "=" ++ v).
  rewrite !(equals_option_ok _ _ _ _ _ _ _ _ L G O T E V).
  rewrite (try_set_matched _ _ _ _ _ O C). split; reflexivity.
Qed.

(* ------------------------------------------------------------------------- *)
(** ** Properties of the rest of the library *)
(* ------------------------------------------------------------------------- *)

(** *** Maps: the first entry of a key is the one that is found *)

Lemma map_get_app {V : Type} (m m' : Map V) key :
  map_get (m ++ m')%list key =
    match map_get m key with
    | Some w => Some w
    | None => map_get m' key
    end.
Proof.
  induction m as [|[k w] m IH]; simpl; [done|].
  by destruct (key =? k)%string.
Qed.

(** X1. [map_add] never replaces an entry. After a key is added, a key that
    already had an entry is still found with its old value, so a key that is
    added twice keeps its first value; a key without an entry is found with
    the new value when it is the added key and is still absent otherwise. *)
Theorem map_add_keeps_the_first_entry {V : Type} (m : Map V) key key' v :
  map_get (map_add m key v) key' =
    match map_get m key' with
    | Some w => Some w
    | None => if String.eqb key' key then Some v else None
    end.
Proof. unfold map_add. by rewrite map_get_app. Qed.

Lemma strtok_app a : forall key b,
  strtok (a ++ String " " b) key = (strtok a key ++ strtok b "")%list.
Proof.
  induction a as [|c a IH]; intros key b.
  - change ("" ++ String " " b) with (String " " b). simpl.
    by destruct (key =? "")%string.
  - change (String c a ++ String " " b) with (String c (a ++ String " " b)).
    simpl. destruct (Ascii.eqb c " ").
    + destruct (key =? "")%string; by rewrite IH.
    + apply IH.
Qed.

Lemma append_nonempty_r a c b : (a ++ String c b =? "")%string = false.
Proof. by destruct a. Qed.

Lemma strtok_word w : forall key,
  no_space w = true -> (key ++ w =? "")%string = false ->
  strtok w key = [key ++ w].
Proof.
  induction w as [|c w IH]; intros key N E; simpl.
  - rewrite append_empty_r in *. by rewrite E.
  - simpl in N. apply andb_true_iff in N as [C N]. apply negb_true_iff in C.
    rewrite C. rewrite IH; [|done|].
    + f_equal. rewrite append_assoc. reflexivity.
    + rewrite append_assoc. apply append_nonempty_r.
Qed.

Lemma strtok_spaces n : strtok (repeat_char n " ") "" = [].
Proof. induction n as [|n IH]; [done|]. simpl. exact IH. Qed.

Lemma map_add_splitkey_fold {V : Type} (keys : list string) : forall (m : Map V) v,
  fold_left (fun m key => map_add m key v) keys m
  = (m ++ map (fun key => (key, v)) keys)%list.
Proof.
  induction keys as [|k keys IH]; intros m v; simpl.
  - by rewrite app_nil_r.
  - rewrite IH. unfold map_add. by rewrite <- app_assoc.
Qed.

(** X2. The key string of [map_add_splitkey] is a list of words between
    spaces. A string of spaces only adds nothing; a single word is added as
    [map_add] adds it; the words of [a], a space and [b] are added as the
    words of [a] and then the words of [b], all with the one value. *)
Theorem map_add_splitkey_words {V : Type} (m : Map V) (v : V) :
  (forall n, map_add_splitkey m (repeat_char n " ") v = m)
  /\ (forall w, is_word w = true -> map_add_splitkey m w v = map_add m w v)
  /\ (forall a b,
        map_add_splitkey m (a ++ " " ++ b) v
        = map_add_splitkey (map_add_splitkey m a v) b v).
Proof.
  unfold map_add_splitkey. repeat split.
  - intros n. by rewrite strtok_spaces.
  - intros w W. unfold is_word in W. apply andb_true_iff in W as [E N].
    apply negb_true_iff in E. by rewrite (strtok_word w "" N E).
  - intros a b. change (" " ++ b) with (String " " b).
    by rewrite strtok_app, fold_left_app.
Qed.

Lemma map_get_singletons {V : Type} (keys : list string) (v : V) key :
  map_get (map (fun key => (key, v)) keys) key
  = if bool_decide (key ∈ keys) then Some v else None.
Proof.
  induction keys as [|k keys IH]; simpl; [done|].
  destruct (String.eqb_spec key k) as [->|N].
  - rewrite bool_decide_eq_true_2; [done|]. apply list_elem_of_here.
  - rewrite IH. apply (f_equal (fun b : bool => if b then Some v else None)).
    apply bool_decide_ext. rewrite elem_of_cons. tauto.
Qed.

Lemma map_get_splitkey {V : Type} (m : Map V) keystr (v : V) key :
  map_get (map_add_splitkey m keystr v) key =
    match map_get m key with
    | Some w => Some w
    | None => if bool_decide (key ∈ strtok keystr "") then Some v else None
    end.
Proof.
  unfold map_add_splitkey. rewrite map_add_splitkey_fold, map_get_app.
  by rewrite map_get_singletons.
Qed.

(** *** Registration *)

Lemma ap_add_ok h parser p keystr r :
  load_parser h parser = Ret p ->
  ap_add h parser keystr r =
    Ret (heap_set_parser (fst (alloc_opt h (registered r))) parser
           (set_options p
              (map_add_splitkey (options p) keystr (length (heap_options h))))).
Proof.
  intros L.
  assert (A : forall o,
    add_option (fst (alloc_opt h o)) parser keystr (length (heap_options h))
    = Ret (heap_set_parser (fst (alloc_opt h o)) parser
             (set_options p
                (map_add_splitkey (options p) keystr (length (heap_options h)))))).
  { intros o. unfold add_option.
    change (load_parser (fst (alloc_opt h o)) parser) with (load_parser h parser).
    rewrite L. cbn [bind]. by apply (store_parser_ok _ _ p). }
  destruct r; cbn [ap_add registered];
    unfold ap_add_flag, ap_add_str, ap_add_int, ap_add_float, ap_add_flag_list,
      ap_add_str_list, ap_add_int_list, ap_add_float_list,
      argparser_add_flag, argparser_add_str, argparser_add_int, argparser_add_float,
      argparser_add_flag_list, argparser_add_str_list, argparser_add_int_list,
      argparser_add_float_list;
    rewrite ?option_new_flag_ok, ?option_new_str_ok, ?option_new_int_ok,
      ?option_new_float_ok, ?option_new_flag_list_ok, ?option_new_str_list_ok,
      ?option_new_int_list_ok, ?option_new_float_list_ok;
    cbn [bind]; apply A.
Qed.

Lemma load_alloc_opt_old h o opt o' :
  load_opt h opt = Ret o' -> load_opt (fst (alloc_opt h o)) opt = Ret o'.
Proof.
  unfold load_opt, alloc_opt. simpl.
  destruct (heap_options h !! opt) eqn:E; [|discriminate].
  intros [= <-]. by rewrite (lookup_app_l_Some _ _ _ _ E).
Qed.

(** X3. What a registration leaves. Whatever the kind of option, every word of
    the key string that was not registered before refers afterwards to the
    option that was just allocated: the option is not marked as found, the
    length of its list is 1 for a scalar and 0 for a list, and for a scalar
    the getter of its type returns the default. *)
Theorem registration_round_trip h parser p keystr key r :
  load_parser h parser = Ret p ->
  key ∈ strtok keystr "" ->
  map_get (options p) key = None ->
  exists h',
    ap_add h parser keystr r = Ret h'
    /\ argparser_get_opt h' parser key = Ret (length (heap_options h))
    /\ load_opt h' (length (heap_options h)) = Ret (registered r)
    /\ ap_found h' parser key = Ret false
    /\ ap_len_list h' parser key = Ret (length (opt_values (registered r)))
    /\ (forall v, last (opt_values (registered r)) = Some v ->
          ap_get_scalar h' parser key (opt_type (registered r)) = Ret v).
Proof.
  intros L K F. eexists. split; [by apply ap_add_ok|].
  set (h1 := fst (alloc_opt h (registered r))).
  set (p' := set_options p _).
  set (h' := heap_set_parser h1 parser p').
  assert (L' : load_parser h' parser = Ret p').
  { by apply (load_set_parser_same h1 parser p). }
  assert (G : argparser_get_opt h' parser key = Ret (length (heap_options h))).
  { unfold argparser_get_opt. rewrite L'. cbn [bind]. subst p'. cbn [options set_options].
    rewrite map_get_splitkey, F. by rewrite bool_decide_eq_true_2. }
  assert (O : load_opt h' (length (heap_options h)) = Ret (registered r)).
  { subst h'. rewrite load_opt_set_parser. apply load_alloc_opt. }
  repeat split; try done.
  - unfold ap_found, argparser_found. rewrite G. cbn [bind]. rewrite O.
    by destruct r.
  - unfold ap_len_list, argparser_len_list. rewrite G. cbn [bind]. by rewrite O.
  - intros v Lv. unfold ap_get_scalar, ap_get_flag, ap_get_str, ap_get_int,
      ap_get_float, argparser_get_flag, argparser_get_str, argparser_get_int,
      argparser_get_float, option_get_flag, option_get_str, option_get_int,
      option_get_float.
    destruct r; cbn [registered fresh_option opt_type opt_values] in *;
      try discriminate Lv; rewrite G; cbn [bind]; rewrite O;
      cbn [bind registered fresh_option opt_type opt_values last];
      injection Lv as <-; reflexivity.
Qed.

(** X4. A registration does not touch what is registered. A name that referred
    to an option before any registration on the parser refers to the same
    option afterwards, with the same contents, also when the new key string
    repeats the name: the first registration of a name wins. *)
Theorem registered_names_stay h parser p name opt o keystr r :
  load_parser h parser = Ret p ->
  map_get (options p) name = Some opt ->
  load_opt h opt = Ret o ->
  exists h',
    ap_add h parser keystr r = Ret h'
    /\ argparser_get_opt h' parser name = Ret opt
    /\ load_opt h' opt = Ret o.
Proof.
  intros L G O. eexists. split; [by apply ap_add_ok|]. split.
  - unfold argparser_get_opt.
    rewrite (load_set_parser_same _ parser p) by done. cbn [bind options set_options].
    by rewrite map_get_splitkey, G.
  - rewrite load_opt_set_parser. by apply load_alloc_opt_old.
Qed.

(** *** Setters and getters *)

Lemma ap_set_ok h parser name opt o v :
  argparser_get_opt h parser name = Ret opt ->
  load_opt h opt = Ret o ->
  ap_set h parser name v = Ret (heap_set_opt h opt (push_value o v)).
Proof.
  intros G O.
  destruct v; cbn [ap_set];
    unfold ap_set_flag, ap_set_str, ap_set_int, ap_set_float, argparser_set_flag,
      argparser_set_str, argparser_set_int, argparser_set_float, option_set_flag,
      option_set_str, option_set_int, option_set_float;
    rewrite G; cbn [bind]; by apply option_append_ok.
Qed.

Lemma get_opt_set_opt h parser name opt o :
  argparser_get_opt (heap_set_opt h opt o) parser name = argparser_get_opt h parser name.
Proof. reflexivity. Qed.

Lemma last_snoc_value (vs : list OptionValue) v : last (vs ++ [v]) = Some v.
Proof. apply last_snoc. Qed.

Lemma setter_then_getter h parser name opt o v :
  argparser_get_opt h parser name = Ret opt ->
  load_opt h opt = Ret o ->
  ap_get_scalar (heap_set_opt h opt (push_value o v)) parser name (value_type v) = Ret v
  /\ ap_len_list (heap_set_opt h opt (push_value o v)) parser name
     = Ret (S (length (opt_values o)))
  /\ ap_found (heap_set_opt h opt (push_value o v)) parser name = Ret (opt_found o).
Proof.
  intros G O.
  pose proof (load_set_opt_same h opt o (push_value o v) O) as O'.
  repeat split.
  - unfold ap_get_scalar, ap_get_flag, ap_get_str, ap_get_int,
      ap_get_float, argparser_get_flag, argparser_get_str, argparser_get_int,
      argparser_get_float, option_get_flag, option_get_str, option_get_int,
      option_get_float.
    destruct v; cbn [value_type]; rewrite get_opt_set_opt, G; cbn [bind];
      rewrite O'; cbn [bind push_value with_values opt_values];
      by rewrite last_snoc.
  - unfold ap_len_list, argparser_len_list. rewrite get_opt_set_opt, G. cbn [bind].
    rewrite O'. cbn [bind push_value with_values opt_values].
    rewrite length_app. simpl. f_equal. lia.
  - unfold ap_found, argparser_found. rewrite get_opt_set_opt, G. cbn [bind].
    by rewrite O'.
Qed.

(** X5. The value set is the value read. On a registered name a setter
    returns, the getter of the same type then returns the value that was set,
    the list of the option is one value longer (a setter appends, it does not
    overwrite) and the mark of the option is as it was. *)
Theorem set_then_get h parser name opt o v :
  argparser_get_opt h parser name = Ret opt ->
  load_opt h opt = Ret o ->
  exists h',
    ap_set h parser name v = Ret h'
    /\ ap_get_scalar h' parser name (value_type v) = Ret v
    /\ ap_len_list h' parser name = Ret (S (length (opt_values o)))
    /\ ap_found h' parser name = Ret (opt_found o).
Proof.
  intros G O. eexists. split; [by eapply ap_set_ok|].
  by apply setter_then_getter.
Qed.

(** X6. A name that is not registered. Every function of the interface that
    takes the name of an option (the found mark, the four getters, the length
    and the four getters of the list, the clearing and the four setters) ends
    the process with status 1 on such a name, after the message of
    [argparser_get_opt] on the standard error. *)
Theorem unregistered_name_aborts h parser p name :
  load_parser h parser = Ret p ->
  map_get (options p) name = None ->
  ap_found h parser name = Exit 1 stderr (abort_text name)
  /\ ap_get_flag h parser name = Exit 1 stderr (abort_text name)
  /\ ap_get_str h parser name = Exit 1 stderr (abort_text name)
  /\ ap_get_int h parser name = Exit 1 stderr (abort_text name)
  /\ ap_get_float h parser name = Exit 1 stderr (abort_text name)
  /\ ap_len_list h parser name = Exit 1 stderr (abort_text name)
  /\ ap_get_flag_list h parser name = Exit 1 stderr (abort_text name)
  /\ ap_get_str_list h parser name = Exit 1 stderr (abort_text name)
  /\ ap_get_int_list h parser name = Exit 1 stderr (abort_text name)
  /\ ap_get_float_list h parser name = Exit 1 stderr (abort_text name)
  /\ ap_clear_list h parser name = Exit 1 stderr (abort_text name)
  /\ forall v, ap_set h parser name v = Exit 1 stderr (abort_text name).
Proof.
  intros L G.
  assert (A : argparser_get_opt h parser name = Exit 1 stderr (abort_text name)).
  { unfold argparser_get_opt. rewrite L. cbn [bind]. by rewrite G. }
  unfold ap_found, ap_get_flag, ap_get_str, ap_get_int, ap_get_float, ap_len_list,
    ap_get_flag_list, ap_get_str_list, ap_get_int_list, ap_get_float_list,
    ap_clear_list, argparser_found, argparser_get_flag, argparser_get_str,
    argparser_get_int, argparser_get_float, argparser_len_list,
    argparser_get_flag_list, argparser_get_str_list, argparser_get_int_list,
    argparser_get_float_list, argparser_clear_list.
  rewrite A. repeat split.
  intros v. destruct v; cbn [ap_set];
    unfold ap_set_flag, ap_set_str, ap_set_int, ap_set_float, argparser_set_flag,
      argparser_set_str, argparser_set_int, argparser_set_float;
    by rewrite A.
Qed.

(** X7. An emptied list and the next value. After [ap_clear_list] on a
    registered name the list has length 0, the four list getters return NULL
    and the mark of the option is as it was; the next value that is set is
    then the only one, and the one that the getter of its type returns. *)
Theorem clear_then_set h parser name opt o :
  argparser_get_opt h parser name = Ret opt ->
  load_opt h opt = Ret o ->
  exists h1,
    ap_clear_list h parser name = Ret h1
    /\ ap_len_list h1 parser name = Ret 0
    /\ ap_found h1 parser name = Ret (opt_found o)
    /\ ap_get_flag_list h1 parser name = Ret None
    /\ ap_get_str_list h1 parser name = Ret None
    /\ ap_get_int_list h1 parser name = Ret None
    /\ ap_get_float_list h1 parser name = Ret None
    /\ forall v, exists h2,
         ap_set h1 parser name v = Ret h2
         /\ ap_len_list h2 parser name = Ret 1
         /\ ap_get_scalar h2 parser name (value_type v) = Ret v.
Proof.
  intros G O.
  set (o1 := with_values o []).
  set (h1 := heap_set_opt h opt o1).
  assert (C : ap_clear_list h parser name = Ret h1).
  { unfold ap_clear_list, argparser_clear_list, option_clear, set_values.
    rewrite G. cbn [bind]. rewrite O. cbn [bind]. by apply (store_opt_ok h opt o). }
  pose proof (load_set_opt_same h opt o o1 O) as O1. fold h1 in O1.
  assert (G1 : argparser_get_opt h1 parser name = Ret opt) by exact G.
  exists h1. split; [exact C|].
  unfold ap_len_list, ap_found, ap_get_flag_list, ap_get_str_list, ap_get_int_list,
    ap_get_float_list, argparser_len_list, argparser_found, argparser_get_flag_list,
    argparser_get_str_list, argparser_get_int_list, argparser_get_float_list,
    option_get_flag_list, option_get_str_list, option_get_int_list,
    option_get_float_list.
  rewrite G1. cbn [bind]. rewrite O1. cbn [bind]. repeat split.
  intros v. eexists. split; [by eapply ap_set_ok|].
  destruct (setter_then_getter h1 parser name opt o1 v G1 O1) as (Gv & Lv & _).
  by split.
Qed.

(** *** The double dash *)

(** X8. Everything after the double dash is a positional argument. Whatever
    the arguments after a leading [--] look like (options, names of commands,
    the help command), the parse returns and has done nothing but append them
    all, in order, to the positional arguments of the parser. *)
Theorem double_dash_ends_option_parsing h parser p ws :
  load_parser h parser = Ret p ->
  argparser_parse h parser (S (length ws)) ("--" :: ws)
  = Some (Ret (heap_set_parser h parser (set_arguments p (arguments p ++ ws)%list))).
Proof.
  intros L. unfold argparser_parse.
  pose proof (next_are_new ("--" :: ws)) as [N0 N].
  pose proof (new_stream_end ("--" :: ws)) as End.
  cbn [length advance_by] in *.
  rewrite (parse_stream_step _ _ _ _ _ _ N0).
  unfold parse_argument. cbn [negb]. change ("--" =? "--")%string with true.
  cbv iota. cbn [bindM lift].
  rewrite (parse_stream_positionals ws _ h parser p _ L N End); [|lia].
  reflexivity.
Qed.

(** *** A flag given several times *)

Lemma short_option_loop_repeated_flag n : forall fuel h parser p c opt o s,
  load_parser h parser = Ret p ->
  map_get (options p) (String c "") = Some opt ->
  load_opt h opt = Ret o ->
  opt_type o = FLAG ->
  short_option_loop fuel h parser (repeat_char (S n) c) s
  = Some (Ret (heap_set_opt h opt
                 (with_values (with_found o true)
                    (opt_values o ++ replicate (S n) (bool_val true))%list), s)).
Proof.
  induction n as [|n IH]; intros fuel h parser p c opt o s L G O T.
  - change (repeat_char 1 c) with (String c "").
    rewrite (short_option_loop_flag fuel h parser p c "" s opt o L G O T).
    reflexivity.
  - change (repeat_char (S (S n)) c) with (String c (repeat_char (S n) c)).
    rewrite (short_option_loop_flag fuel h parser p c _ s opt o L G O T).
    rewrite (IH fuel _ parser p c opt (matched o (bool_val true)) s);
      [|done|done|by apply (load_set_opt_same h opt o)|done].
    rewrite heap_set_opt_twice. do 3 f_equal.
    unfold matched, push_value, with_values, with_found. cbn. f_equal.
    rewrite <- app_assoc. reflexivity.
Qed.

Lemma has_equals_repeat n c :
  Ascii.eqb c "=" = false -> has_equals (repeat_char n c) = false.
Proof.
  intros E. unfold has_equals.
  assert (H : strchr_split (repeat_char n c) "=" = None).
  { induction n as [|n IH]; [done|]. simpl. by rewrite E, IH. }
  by rewrite H.
Qed.

(** X9. A flag repeated in one bundle is counted. For a flag registered under
    a one-character name, the bundle of a dash and n+1 times that character
    marks the option as found and appends n+1 times [true], so that the length
    of its list grows by n+1, under every name of the option. *)
Theorem repeated_flag_is_counted h parser p c opt o n :
  load_parser h parser = Ret p ->
  map_get (options p) (String c "") = Some opt ->
  load_opt h opt = Ret o ->
  opt_type o = FLAG ->
  isdigit c = false ->
  Ascii.eqb c "-" = false ->
  Ascii.eqb c "=" = false ->
  exists h',
    argparser_parse h parser 1 [String "-" (repeat_char (S n) c)] = Some (Ret h')
    /\ load_opt h' opt
       = Ret (with_values (with_found o true)
                (opt_values o ++ replicate (S n) (bool_val true))%list)
    /\ forall name, map_get (options p) name = Some opt ->
         ap_len_list h' parser name = Ret (length (opt_values o) + S n)
         /\ ap_found h' parser name = Ret true
         /\ ap_get_flag h' parser name = Ret true.
Proof.
  intros L G O T D M E.
  set (tok := String "-" (repeat_char (S n) c)).
  set (o' := with_values (with_found o true)
               (opt_values o ++ replicate (S n) (bool_val true))%list).
  assert (P : argparser_parse h parser 1 [tok] = Some (Ret (heap_set_opt h opt o'))).
  { unfold argparser_parse.
    pose proof (next_are_new [tok]) as [N0 _].
    pose proof (new_stream_end [tok]) as End.
    cbn [length advance_by] in *.
    rewrite (parse_stream_step _ _ _ _ _ _ N0).
    unfold parse_argument. cbn [negb].
    assert (T1 : (tok =? "--")%string = false).
    { subst tok. apply String.eqb_neq. intros [= -> _]. discriminate. }
    assert (T2 : has_prefix "--" tok = false).
    { subst tok. cbn [has_prefix repeat_char]. change (Ascii.eqb "-" "-") with true.
      cbn [andb]. rewrite Ascii.eqb_sym, M. reflexivity. }
    rewrite T1, T2.
    change (Ascii.eqb (char_at tok 0) "-") with true.
    change (char_at tok 1) with c. change (strlen tok) with (S (S (strlen (repeat_char n c)))).
    change (S (S (strlen (repeat_char n c))) =? 1) with false. rewrite D.
    cbn [orb]. cbv iota. change (offset tok 1) with (repeat_char (S n) c).
    unfold argparser_parse_short_option. rewrite (has_equals_repeat _ _ E).
    rewrite (short_option_loop_repeated_flag n 0 h parser p c opt o _ L G O T).
    cbn [bindM lift]. rewrite (parse_stream_done _ _ _ _ _ End). reflexivity. }
  exists (heap_set_opt h opt o'). split; [exact P|].
  pose proof (load_set_opt_same h opt o o' O) as O'.
  split; [exact O'|]. intros name Gn.
  assert (Gn' : argparser_get_opt (heap_set_opt h opt o') parser name = Ret opt).
  { unfold argparser_get_opt. rewrite load_parser_set_opt, L. cbn [bind]. by rewrite Gn. }
  unfold ap_len_list, ap_found, ap_get_flag, argparser_len_list, argparser_found,
    argparser_get_flag, option_get_flag.
  rewrite Gn'. cbn [bind]. rewrite O'. cbn [bind]. repeat split.
  - subst o'. cbn [opt_values with_values]. by rewrite length_app, length_replicate.
  - subst o'. cbn [opt_values with_values]. rewrite replicate_S_end, app_assoc.
    by rewrite last_snoc.
Qed.

(** *** The equals form with one dash and with two *)

Lemma equals_option_prefix h parser pre pre' arg h' :
  argparser_parse_equals_option h parser pre arg = Ret h' ->
  argparser_parse_equals_option h parser pre' arg = Ret h'.
Proof.
  unfold argparser_parse_equals_option.
  destruct (strchr_split arg "=") as [[name value]|]; [|done].
  destruct (load_parser h parser) as [p| |]; cbn [bind]; try done.
  destruct (map_get (options p) name) as [opt|]; [|discriminate].
  destruct (set_found h opt true) as [h1| |]; cbn [bind]; try done.
  destruct (load_opt h1 opt) as [o| |]; cbn [bind]; try done.
  destruct (opt_type o); try discriminate;
    by destruct (strlen value =? 0); try discriminate.
Qed.

(** X10. With an equals sign, one dash or two make no difference. For an
    argument with an equals sign in it, the handler of the short form returns
    a result exactly when the handler of the long form returns that result:
    the whole text before the sign is looked up as one name, it is not read as
    a bundle. *)
Theorem equals_form_with_one_dash_or_two fuel h parser arg s :
  has_equals arg = true ->
  forall r,
    argparser_parse_short_option fuel h parser arg s = Some (Ret r)
    <-> argparser_parse_long_option fuel h parser arg s = Some (Ret r).
Proof.
  intros E r. unfold argparser_parse_short_option, argparser_parse_long_option.
  rewrite E.
  split; intros H;
    destruct (argparser_parse_equals_option h parser _ arg) eqn:Q in H;
    cbn [bindM lift] in H; try discriminate H;
    erewrite equals_option_prefix by exact Q; exact H.
Qed.

(** *** An empty text as the value of an option *)

(** X11. The empty argument. An integer option that is followed on the command
    line by an empty argument takes it and stores 0, since [strtol] accepts
    the empty text; with an equals sign and nothing after it the same option
    ends the process with the message of a missing argument. *)
Theorem empty_value_of_an_integer_option fuel h parser p name opt o s :
  load_parser h parser = Ret p ->
  map_get (options p) name = Some opt ->
  load_opt h opt = Ret o ->
  opt_type o = INTEGER ->
  opt_greedy o = false ->
  has_equals name = false ->
  next_is s "" ->
  argparser_parse_long_option fuel h parser name s
  = Some (Ret (heap_set_opt h opt (matched o (int_val 0)), advance s))
  /\ argparser_parse_long_option fuel h parser (name ++ "=") s
     = Some (err ("missing argument for the --" ++ name ++ " option")).
Proof.
  intros L G O T Gr E N. split.
  - rewrite (long_option_space_form fuel h parser p name opt o "" s L G O); try done.
    + rewrite (try_set_matched h opt o "" (int_val 0) O); [done|]. by rewrite T.
    + by rewrite T.
  - unfold argparser_parse_long_option. rewrite has_equals_app.
    unfold argparser_parse_equals_option. rewrite (strchr_split_app _ _ E).
    rewrite L. cbn [bind]. rewrite G.
    rewrite (set_found_ok h opt o true O). cbn [bind].
    rewrite (load_set_opt_same h opt o _ O). cbn [bind with_found opt_type].
    rewrite T. reflexivity.
Qed.

(** *** The automatic help and version flags *)

(** X12. The automatic [--help] and [--version]. When no option has the name,
    [--help] prints the help text of the parser and [--version] its version on
    the standard output and ends the process with status 0; without such a
    text they are options that are not recognised. A flag registered under any
    name, these two included, is set instead. *)
Theorem automatic_help_and_version fuel h parser p s :
  load_parser h parser = Ret p ->
  (map_get (options p) "help" = None ->
     argparser_parse_long_option fuel h parser "help" s
     = match helptext p with
       | Some text => Some (Exit 0 stdout (text ++ newline))
       | None => Some (err "--help is not a recognised option")
       end)
  /\ (map_get (options p) "version" = None ->
        argparser_parse_long_option fuel h parser "version" s
        = match version p with
          | Some text => Some (Exit 0 stdout (text ++ newline))
          | None => Some (err "--version is not a recognised option")
          end)
  /\ (forall name opt o,
        map_get (options p) name = Some opt ->
        load_opt h opt = Ret o ->
        opt_type o = FLAG ->
        has_equals name = false ->
        argparser_parse_long_option fuel h parser name s
        = Some (Ret (heap_set_opt h opt (matched o (bool_val true)), s))).
Proof.
  intros L. repeat split.
  - intros G. unfold argparser_parse_long_option. change (has_equals "help") with false.
    cbv iota. rewrite L. cbn [bindM lift]. rewrite map_contains_get, G.
    change ("help" =? "help")%string with true. cbv iota.
    destruct (helptext p); [done|].
    change ("help" =? "version")%string with false. reflexivity.
  - intros G. unfold argparser_parse_long_option. change (has_equals "version") with false.
    cbv iota. rewrite L. cbn [bindM lift]. rewrite map_contains_get, G.
    change ("version" =? "help")%string with false. cbv iota.
    change ("version" =? "version")%string with true. cbv iota.
    by destruct (version p).
  - intros name opt o G O T E. unfold argparser_parse_long_option. rewrite E, L.
    cbn [bindM lift]. rewrite map_contains_get, G.
    rewrite (set_found_ok h opt o true O). cbn [bindM lift].
    rewrite (load_set_opt_same h opt o _ O). cbn [bindM lift with_found opt_type].
    rewrite T. unfold option_set_flag.
    rewrite (option_append_ok _ opt (with_found o true) _ (load_set_opt_same h opt o _ O)).
    cbn [bindM lift]. by rewrite heap_set_opt_twice.
Qed.

(** *** Commands *)

Lemma long_option_help fuel h parser p s text :
  load_parser h parser = Ret p ->
  map_get (options p) "help" = None ->
  helptext p = Some text ->
  argparser_parse_long_option fuel h parser "help" s
  = Some (Exit 0 stdout (text ++ newline)).
Proof.
  intros L G T. unfold argparser_parse_long_option.
  change (has_equals "help") with false. cbv iota. rewrite L. cbn [bindM lift].
  rewrite map_contains_get, G. change ("help" =? "help")%string with true.
  cbv iota. by rewrite T.
Qed.

(** X14. The two ways to the help of a command. For a registered command with
    a help text, the command followed by [--help] and the help command
    followed by the name of the command both print the help text of the
    command on the standard output and end the process with status 0. *)
Theorem help_command_and_help_flag h parser p name c pc text :
  load_parser h parser = Ret p ->
  map_get (commands p) name = Some c ->
  load_parser h c = Ret pc ->
  helptext pc = Some text ->
  map_get (options pc) "help" = None ->
  map_get (commands p) "help" = None ->
  Ascii.eqb (char_at name 0) "-" = false ->
  argparser_parse h parser 2 [name; "--help"] = Some (Exit 0 stdout (text ++ newline))
  /\ argparser_parse h parser 2 ["help"; name] = Some (Exit 0 stdout (text ++ newline)).
Proof.
  intros L G Lc T Gh Gc E. split.
  - unfold argparser_parse.
    pose proof (next_are_new [name; "--help"]) as (N0 & N1 & _).
    cbn [length] in *.
    rewrite (parse_stream_step _ _ _ _ _ _ N0). unfold parse_argument at 1.
    cbn [negb]. destruct (plain_token_tests _ E) as [-> ->]. rewrite E, L.
    cbn [bindM lift]. rewrite map_contains_get, G.
    rewrite (store_parser_ok h parser p _ L). cbn [bindM lift].
    set (h1 := heap_set_parser h parser (set_cmd p name c)).
    assert (exists pc', load_parser h1 c = Ret pc' /\ helptext pc' = Some text
                        /\ map_get (options pc') "help" = None) as (pc' & Lc' & T' & Gh').
    { destruct (decide (c = parser)) as [->|Ne].
      - exists (set_cmd p name parser). split; [by apply (load_set_parser_same h parser p)|].
        rewrite L in Lc. injection Lc as <-. by split.
      - exists pc. split; [|by split]. unfold load_parser, h1. simpl.
        rewrite list_lookup_insert_ne by done. exact Lc. }
    rewrite (parse_stream_step _ _ _ _ _ _ N1). unfold parse_argument.
    cbn [negb]. change ("--help" =? "--")%string with false.
    change (has_prefix "--" "--help") with true. cbv iota.
    change (offset "--help" 2) with "help".
    rewrite (long_option_help _ _ _ _ _ _ Lc' Gh' T'). reflexivity.
  - unfold argparser_parse.
    pose proof (next_are_new ["help"; name]) as (N0 & N1 & _).
    cbn [length] in *.
    rewrite (parse_stream_step _ _ _ _ _ _ N0). unfold parse_argument.
    cbn [negb]. change ("help" =? "--")%string with false.
    change (has_prefix "--" "help") with false.
    change (Ascii.eqb (char_at "help" 0) "-") with false. cbv iota.
    rewrite L. cbn [bindM lift]. rewrite (map_contains_get _ "help"), Gc.
    change ("help" =? "help")%string with true. cbv iota.
    rewrite (next_is_has_next _ _ N1), (next_is_next _ _ N1). cbn [bindM lift].
    rewrite map_contains_get, G, Lc. cbn [bindM lift]. by rewrite T.
Qed.

Lemma load_alloc_parser_old h p0 parser p :
  load_parser h parser = Ret p -> load_parser (fst (alloc_parser h p0)) parser = Ret p.
Proof.
  unfold load_parser, alloc_parser. simpl.
  destruct (heap_parsers h !! parser) eqn:E; [|discriminate].
  intros [= <-]. by rewrite (lookup_app_l_Some _ _ _ _ E).
Qed.

Lemma load_alloc_parser h p0 :
  load_parser (fst (alloc_parser h p0)) (length (heap_parsers h)) = Ret p0.
Proof. unfold load_parser, alloc_parser. simpl. by rewrite list_lookup_middle. Qed.

Lemma load_parser_lt h parser p :
  load_parser h parser = Ret p -> parser < length (heap_parsers h).
Proof.
  unfold load_parser. destruct (heap_parsers h !! parser) eqn:E; [|discriminate].
  intros _. by eapply lookup_lt_Some.
Qed.

(** The parser that [argparser_new] allocates and the command parser that
    [argparser_add_cmd] makes of it. *)
Lemma ap_add_cmd_ok h parser p keystr help callback :
  load_parser h parser = Ret p ->
  let c := length (heap_parsers h) in
  let child := set_parent (plain_parser_with help) parser in
  ap_add_cmd h parser keystr help callback
  = Ret (heap_set_parser
           (heap_set_parser (fst (alloc_parser h (plain_parser_with help))) c child)
           parser
           (set_callbacks (set_commands p (map_add_splitkey (commands p) keystr c))
              (map_add_splitkey (callbacks p) keystr callback)), c).
Proof.
  intros L c child. unfold ap_add_cmd, argparser_add_cmd, argparser_new.
  change (alloc_parser h ?q) with (fst (alloc_parser h q), c). cbv beta iota.
  fold (plain_parser_with help).
  set (h0 := fst (alloc_parser h (plain_parser_with help))).
  pose proof (load_alloc_parser h (plain_parser_with help)) as L0. fold h0 c in L0.
  pose proof (load_parser_lt _ _ _ L) as Lt.
  assert (Ne : c <> parser) by (unfold c; lia).
  rewrite L0. cbn [bind]. rewrite (store_parser_ok _ _ _ _ L0). cbn [bind].
  fold child. set (h1 := heap_set_parser h0 c child).
  assert (L1 : load_parser h1 parser = Ret p).
  { unfold h1. rewrite load_set_parser_other by done. by apply load_alloc_parser_old. }
  rewrite L1. cbn [bind]. rewrite (store_parser_ok _ _ _ _ L1). cbn [bind].
  rewrite (load_set_parser_same _ _ _ _ L1). cbn [bind].
  rewrite (store_parser_ok _ _ _ _ (load_set_parser_same _ _ _ _ L1)). cbn [bind].
  by rewrite heap_set_parser_twice.
Qed.

(** X15. A command, from its registration to its callback. [ap_add_cmd]
    returns a new parser whose parent is the parser it was registered on. A
    command line that consists of a word of the key string then records on the
    parent the name and the parser of the command, leaves the command without
    arguments, and ends by calling the callback on the parser of the command,
    or by returning when the callback is NULL. *)
Theorem command_round_trip h parser p keystr key help callback prog :
  load_parser h parser = Ret p ->
  key ∈ strtok keystr "" ->
  map_get (commands p) key = None ->
  map_get (callbacks p) key = None ->
  Ascii.eqb (char_at key 0) "-" = false ->
  let c := length (heap_parsers h) in
  exists h1 h2,
    ap_add_cmd h parser keystr help callback = Ret (h1, c)
    /\ ap_get_parent h1 c = Ret (Some parser)
    /\ ap_has_cmd h2 parser = Ret true
    /\ ap_get_cmd_name h2 parser = Ret (Some key)
    /\ ap_get_cmd_parser h2 parser = Ret (Some c)
    /\ ap_has_args h2 c = Ret false
    /\ ap_parse h1 parser 2 [prog; key]
       = Some (match callback with
               | Some cb => invoke cb c h2
               | None => Ret h2
               end).
Proof.
  intros L K Gc Gb E c.
  pose proof (ap_add_cmd_ok h parser p keystr help callback L) as A.
  cbv zeta in A. fold c in A.
  set (child := set_parent (plain_parser_with help) parser) in *.
  set (h0 := heap_set_parser (fst (alloc_parser h (plain_parser_with help))) c child) in *.
  set (p1 := set_callbacks (set_commands p (map_add_splitkey (commands p) keystr c))
               (map_add_splitkey (callbacks p) keystr callback)) in *.
  set (h1 := heap_set_parser h0 parser p1) in *.
  pose proof (load_parser_lt _ _ _ L) as Lt.
  assert (Ne : parser <> c) by (unfold c; lia).
  assert (L0 : load_parser h0 parser = Ret p).
  { unfold h0. rewrite load_set_parser_other by done. by apply load_alloc_parser_old. }
  assert (C0 : load_parser h0 c = Ret child).
  { unfold h0. eapply load_set_parser_same. apply load_alloc_parser. }
  assert (L1 : load_parser h1 parser = Ret p1).
  { by apply (load_set_parser_same h0 parser p). }
  assert (C1 : load_parser h1 c = Ret child).
  { unfold h1. by rewrite load_set_parser_other. }
  set (p2 := set_cmd p1 key c).
  set (h2 := heap_set_parser h1 parser p2).
  assert (L2 : load_parser h2 parser = Ret p2).
  { by apply (load_set_parser_same h1 parser p1). }
  assert (C2 : load_parser h2 c = Ret child).
  { unfold h2. by rewrite load_set_parser_other. }
  exists h1, h2. split; [exact A|].
  unfold ap_get_parent, ap_has_cmd, ap_get_cmd_name, ap_get_cmd_parser, ap_has_args,
    argparser_get_parent, argparser_has_cmd, argparser_get_cmd_name,
    argparser_get_cmd_parser, argparser_has_args.
  rewrite C1, L2, C2. cbn [bind]. repeat split.
  unfold ap_parse. cbn [tail Nat.sub]. unfold argparser_parse.
  pose proof (next_are_new [key]) as (N0 & _).
  pose proof (new_stream_end [key]) as End.
  cbn [length advance_by] in *.
  rewrite (parse_stream_step _ _ _ _ _ _ N0). unfold parse_argument.
  cbn [negb]. destruct (plain_token_tests _ E) as [-> ->]. rewrite E, L1.
  cbn [bindM lift].
  assert (Mc : map_get (commands p1) key = Some c).
  { unfold p1. cbn [commands set_callbacks set_commands].
    rewrite map_get_splitkey, Gc. by rewrite bool_decide_eq_true_2. }
  assert (Mb : map_get (callbacks p1) key = Some callback).
  { unfold p1. cbn [callbacks set_callbacks set_commands].
    rewrite map_get_splitkey, Gb. by rewrite bool_decide_eq_true_2. }
  rewrite map_contains_get, Mc, Mb.
  rewrite (store_parser_ok h1 parser p1 _ L1). cbn [bindM lift]. fold p2 h2.
  rewrite (parse_stream_done _ _ _ _ _ End). cbn [bindM lift mjoin option_join].
  destruct callback as [cb|]; cbn [mjoin option_join].
  - by destruct (invoke cb c h2).
  - reflexivity.
Qed.

(** *** Integers as positional arguments *)

Lemma parse_stream_plain ws : forall fuel h parser p s,
  load_parser h parser = Ret p ->
  commands p = [] ->
  forallb plain_positional ws = true ->
  next_are s ws ->
  argstream_has_next (advance_by (length ws) s) = false ->
  length ws <= fuel ->
  argparser_parse_stream fuel h parser s true =
    Some (Ret (heap_set_parser h parser (set_arguments p (arguments p ++ ws)%list),
               advance_by (length ws) s)).
Proof.
  induction ws as [|w ws IH]; intros fuel h parser p s L C P N E F.
  - simpl in *. rewrite (parse_stream_done _ _ _ _ _ E). rewrite app_nil_r.
    replace (set_arguments p (arguments p)) with p by (by destruct p).
    by rewrite (heap_set_parser_id _ _ _ L).
  - destruct fuel as [|fuel]; [simpl in F; lia|].
    destruct N as [N N']. cbn [forallb] in P. apply andb_true_iff in P as [Pw P].
    rewrite (parse_stream_step _ _ _ _ _ _ N).
    rewrite (parse_argument_plain _ _ h parser p w _ Pw L C).
    unfold append_argument. rewrite L. cbn [bind].
    rewrite (store_parser_ok _ _ _ _ L). cbn [bindM lift].
    rewrite (IH fuel _ parser (set_arguments p (arglist_append (arguments p) w))
               (advance s) (load_set_parser_same _ _ _ _ L) C P N' E
               ltac:(simpl in F; lia)).
    rewrite heap_set_parser_twice. cbn [length advance_by].
    do 4 f_equal. unfold set_arguments, arglist_append. simpl.
    by rewrite <- app_assoc.
Qed.

Lemma isdigit_pretty_N_char d : (d < 10)%N -> isdigit (pretty_N_char d) = true.
Proof.
  intros H. destruct (small_N d H) as [->|[->|[->|[->|[->|[->|[->|[->|[->| ->]]]]]]]]];
    reflexivity.
Qed.

Lemma plain_positional_digit c rest :
  isdigit c = true -> plain_positional (String c rest) = true.
Proof.
  intros D. unfold plain_positional. apply orb_true_iff. right.
  change (char_at (String c rest) 0) with c.
  destruct c as [[] [] [] [] [] [] [] []]; try discriminate D; reflexivity.
Qed.

Lemma plain_positional_pretty (z : Z) : plain_positional (pretty z) = true.
Proof.
  destruct z as [|q|q]; [reflexivity| |].
  - unfold pretty, pretty_Z, pretty, pretty_positive, pretty, pretty_N.
    destruct (decide (N.pos q = 0%N)) as [?|_]; [lia|].
    destruct (pretty_N_go_head (N.pos q) "" ltac:(lia)) as (d & rest & Hd & ->).
    apply plain_positional_digit, isdigit_pretty_N_char. lia.
  - unfold pretty, pretty_Z, pretty, pretty_positive, pretty, pretty_N.
    destruct (decide (N.pos q = 0%N)) as [?|_]; [lia|].
    destruct (pretty_N_go_head (N.pos q) "" ltac:(lia)) as (d & rest & Hd & ->).
    unfold plain_positional, dash_or_dash_digit.
    change (char_at ("-" ++ String (pretty_N_char d) rest) 0) with "-"%char.
    change (char_at ("-" ++ String (pretty_N_char d) rest) 1) with (pretty_N_char d).
    rewrite isdigit_pretty_N_char by lia. change (Ascii.eqb "-" "-") with true.
    cbn [andb]. by rewrite orb_true_r.
Qed.

Lemma try_str_to_int_pretty_in_range z :
  (INT_MIN <= z <= INT_MAX)%Z -> try_str_to_int (pretty z) = Ret z.
Proof.
  intros R. rewrite <- (append_empty_r (pretty z)).
  rewrite (try_str_to_int_pretty z ""); [|done|by right].
  replace ((z <? INT_MIN) || (INT_MAX <? z))%Z with false; [done|].
  symmetry. apply orb_false_iff. split; apply Z.ltb_ge; lia.
Qed.

Lemma args_as_ints_pretty zs :
  Forall (fun z => (INT_MIN <= z <= INT_MAX)%Z) zs ->
  args_as_ints (map pretty zs) = Ret zs.
Proof.
  induction 1 as [|z zs R _ IH]; [done|].
  cbn [map args_as_ints]. rewrite (try_str_to_int_pretty_in_range z R). cbn [bind].
  by rewrite IH.
Qed.

(** X16. Integers, negative ones too, come back from the command line. On a
    parser without commands, a command line of integers of the range of [int]
    written in decimal is taken as positional arguments, none as an option,
    and [ap_get_args_as_ints] returns the integers. *)
Theorem integers_round_trip h parser p zs :
  load_parser h parser = Ret p ->
  commands p = [] ->
  arguments p = [] ->
  Forall (fun z => (INT_MIN <= z <= INT_MAX)%Z) zs ->
  exists h',
    argparser_parse h parser (length zs) (map pretty zs) = Some (Ret h')
    /\ ap_len_args h' parser = Ret (length zs)
    /\ ap_get_args h' parser = Ret (map pretty zs)
    /\ ap_get_args_as_ints h' parser = Ret zs.
Proof.
  intros L C A R.
  set (ws := map pretty zs).
  assert (Lw : length ws = length zs) by apply length_map.
  assert (P : forallb plain_positional ws = true).
  { apply forallb_forall. intros w [z [<- _]]%in_map_iff. apply plain_positional_pretty. }
  pose proof (next_are_new ws) as N. pose proof (new_stream_end ws) as End.
  rewrite Lw in N, End.
  eexists. split.
  - unfold argparser_parse.
    rewrite (parse_stream_plain ws _ h parser p _ L C P N); [reflexivity| |lia].
    by rewrite Lw.
  - rewrite A. cbn [app].
    unfold ap_len_args, ap_get_args, ap_get_args_as_ints, argparser_len_args,
      argparser_get_args, argparser_get_args_as_ints.
    rewrite (load_set_parser_same h parser p _ L). cbn [bind set_arguments arguments].
    repeat split; [by rewrite Lw|]. by apply args_as_ints_pretty.
Qed.

(** *** Hexadecimal and octal numerals *)

(** X17. Hexadecimal and octal numerals. With base 0, [strtol] reads the
    digits after [0x] or [0X] in base 16 and the digits after a leading zero
    in base 8: within the range of [int], [try_str_to_int] returns that value,
    with its sign. *)
Theorem try_str_to_int_hexadecimal_and_octal (neg : bool) ds :
  (all_digits 16 ds = true ->
   ds <> "" ->
   (INT_MIN <= signed neg (numeral 16 ds) <= INT_MAX)%Z ->
   try_str_to_int (sign_text neg ++ "0x" ++ ds) = Ret (signed neg (numeral 16 ds))
   /\ try_str_to_int (sign_text neg ++ "0X" ++ ds) = Ret (signed neg (numeral 16 ds)))
  /\ (all_digits 8 ds = true ->
      (INT_MIN <= signed neg (numeral 8 ds) <= INT_MAX)%Z ->
      try_str_to_int (sign_text neg ++ "0" ++ ds) = Ret (signed neg (numeral 8 ds))).
Proof.
  split.
  - intros A N R.
    pose proof (strtol_hexadecimal neg "x" ds "" eq_refl N A eq_refl) as Sx.
    pose proof (strtol_hexadecimal neg "X" ds "" eq_refl N A eq_refl) as SX.
    rewrite append_empty_r, (in_int_range_long _ R) in Sx, SX.
    split.
    + change (sign_text neg ++ "0x" ++ ds)
        with (sign_text neg ++ String "0" (String "x" ds)).
      by rewrite (try_str_to_int_of_strtol _ _ _ Sx R).
    + change (sign_text neg ++ "0X" ++ ds)
        with (sign_text neg ++ String "0" (String "X" ds)).
      by rewrite (try_str_to_int_of_strtol _ _ _ SX R).
  - intros A R.
    assert (S : strtol (sign_text neg ++ String "0" ds)
                = (signed neg (numeral 8 ds), "", false)).
    { rewrite strtol_leading_zero.
      - pose proof (strtol_digits_numeral 8 ds 0%Z true "" A eq_refl) as D.
        rewrite append_empty_r in D. rewrite D. cbn [fst snd].
        by apply in_int_range_long.
      - destruct ds as [|c ds]; [done|]. unfold all_digits in A.
        cbn [list_ascii_of_string forallb] in A. apply andb_true_iff in A as [A _].
        by apply octal_digit_isdigit. }
    change (sign_text neg ++ "0" ++ ds) with (sign_text neg ++ String "0" ds).
    by rewrite (try_str_to_int_of_strtol _ _ _ S R).
Qed.


(** *** Parsing goes wrong nowhere *)

Lemma valid_load_parser h (parser : ptr) :
  parser < length (heap_parsers h) -> exists p, load_parser h parser = Ret p.
Proof.
  intros V. unfold load_parser.
  destruct (heap_parsers h !! parser) as [p|] eqn:E; [eexists; reflexivity|].
  apply lookup_ge_None in E. lia.
Qed.

Lemma valid_load_opt h (opt : ptr) :
  opt < length (heap_options h) -> exists o, load_opt h opt = Ret o.
Proof.
  intros V. unfold load_opt.
  destruct (heap_options h !! opt) as [o|] eqn:E; [eexists; reflexivity|].
  apply lookup_ge_None in E. lia.
Qed.

Lemma wf_keeps h h' : keeps h h' -> wf_heap h -> wf_heap h'.
Proof.
  intros (Lo & Lp & _ & P) W parser p' L'.
  pose proof (load_parser_lt _ _ _ L') as V. rewrite Lp in V.
  destruct (valid_load_parser _ _ V) as [p L].
  destruct (P _ _ L) as (p2 & L2 & (_ & _ & Eo & Ec & _)).
  rewrite L' in L2. injection L2 as <-.
  destruct (W _ _ L) as [Wo Wc]. split.
  - intros key opt G. rewrite Eo in G. rewrite Lo. by eapply Wo.
  - intros key c G. rewrite Ec in G. destruct (Wc _ _ G) as (pc & Lc & Hc).
    destruct (P _ _ Lc) as (pc' & Lc' & (Eh & _)). exists pc'.
    split; [done|]. by rewrite Eh.
Qed.

Lemma valid_keeps h h' parser :
  keeps h h' -> parser < length (heap_parsers h) -> parser < length (heap_parsers h').
Proof. intros (_ & Lp & _) V. by rewrite Lp. Qed.

Lemma wf_stream_le s s' : stream_le s s' -> wf_stream s -> wf_stream s'.
Proof. unfold stream_le, wf_stream. intros (-> & -> & _). done. Qed.

Lemma nf_bind {A B : Type} (m : M A) (k : A -> M B) :
  m <> Some Fault ->
  (forall a, m = Some (Ret a) -> k a <> Some Fault) ->
  bindM m k <> Some Fault.
Proof.
  intros Hm Hk. destruct m as [[a| |]|]; cbn [bindM]; try done. by apply Hk.
Qed.

Lemma nf_lift {A B : Type} (m : Outcome A) (k : A -> M B) :
  m <> Fault ->
  (forall a, m = Ret a -> k a <> Some Fault) ->
  bindM (lift m) k <> Some Fault.
Proof.
  intros Hm Hk. destruct m as [a| |]; cbn [bindM lift]; try done. by apply Hk.
Qed.

Lemma nf_try_str_to_int arg : try_str_to_int arg <> Fault.
Proof.
  unfold try_str_to_int, err. destruct (strtol arg) as [[r e] g].
  destruct (g || (INT_MAX <? r)%Z || (r <? INT_MIN)%Z); [done|].
  by destruct (negb (e =? "")%string).
Qed.

Lemma nf_try_str_to_double arg : try_str_to_double arg <> Fault.
Proof.
  unfold try_str_to_double, err. destruct (strtod arg) as [[r e] g].
  destruct g; [done|]. by destruct (negb (e =? "")%string).
Qed.

Lemma nf_option_try_set h opt o arg :
  load_opt h opt = Ret o -> option_try_set h opt arg <> Fault.
Proof.
  intros O. rewrite (option_try_set_ok _ _ _ _ O). unfold coerce.
  destruct (opt_type o); cbn [bind]; try done.
  - pose proof (nf_try_str_to_int arg). by destruct (try_str_to_int arg).
  - pose proof (nf_try_str_to_double arg). by destruct (try_str_to_double arg).
Qed.

Lemma load_opt_keeps h h' opt o :
  keeps h h' -> load_opt h opt = Ret o -> exists o', load_opt h' opt = Ret o'.
Proof. intros (_ & _ & O & _) L. destruct (O _ _ L) as (o' & L' & _). by exists o'. Qed.

Lemma next_ok s :
  argstream_has_next s = true -> wf_stream s ->
  exists arg, argstream_next s = Ret (arg, advance s).
Proof.
  intros N W. apply has_next_lt in N. unfold wf_stream in W.
  unfold argstream_next.
  destruct (args s !! index s) as [arg|] eqn:E; [eexists; reflexivity|].
  apply lookup_ge_None in E. lia.
Qed.

Lemma nf_has_next_value s : wf_stream s -> argstream_has_next_value s <> Fault.
Proof.
  intros W. unfold argstream_has_next_value.
  destruct (argstream_has_next s) eqn:N; [|done].
  destruct (next_ok s N W) as [arg E]. unfold argstream_peek.
  unfold argstream_next in E. destruct (args s !! index s); [|discriminate].
  cbn [bind]. destruct (Ascii.eqb _ _); [|done]. by destruct (_ || _).
Qed.

Lemma wf_stream_advance s : wf_stream s -> wf_stream (advance s).
Proof. done. Qed.

Lemma nf_greedy_loop fuel : forall h opt o s,
  load_opt h opt = Ret o -> wf_stream s ->
  greedy_loop fuel h opt s <> Some Fault.
Proof.
  induction fuel as [|fuel IH]; intros h opt o s O W; cbn [greedy_loop];
    (apply nf_lift; [by apply nf_has_next_value|]); intros [|] M0; try done.
  destruct (next_ok s (has_next_value_true _ M0) W) as [arg ->]. cbn [bindM lift].
  apply nf_lift; [by eapply nf_option_try_set|]. intros h1 T.
  destruct (load_opt_keeps _ _ _ _ (keeps_option_try_set _ _ _ _ T) O) as [o1 O1].
  by eapply IH.
Qed.

Lemma nf_take_values fuel h opt o s key :
  load_opt h opt = Ret o -> wf_stream s ->
  match opt_type o with
  | FLAG => h <~ lift (option_set_flag h opt true);; lift (Ret (h, s))
  | _ =>
      more <~ lift (argstream_has_next_value s);;
      if more : bool then
        '(value, s) <~ lift (argstream_next s);;
        h <~ lift (option_try_set h opt value);;
        o <~ lift (load_opt h opt);;
        if opt_greedy o then greedy_loop fuel h opt s else lift (Ret (h, s))
      else lift (err key)
  end <> Some Fault.
Proof.
  intros O W.
  assert ((more <~ lift (argstream_has_next_value s);;
           if more : bool then
             '(value, s) <~ lift (argstream_next s);;
             h <~ lift (option_try_set h opt value);;
             o <~ lift (load_opt h opt);;
             if opt_greedy o then greedy_loop fuel h opt s else lift (Ret (h, s))
           else lift (err key)) <> Some Fault) as Take.
  { apply nf_lift; [by apply nf_has_next_value|]. intros [|] M0; [|done].
    destruct (next_ok s (has_next_value_true _ M0) W) as [arg ->]. cbn [bindM lift].
    apply nf_lift; [by eapply nf_option_try_set|]. intros h1 T.
    destruct (load_opt_keeps _ _ _ _ (keeps_option_try_set _ _ _ _ T) O) as [o1 O1].
    rewrite O1. cbn [bindM lift]. destruct (opt_greedy o1); [|done].
    by eapply nf_greedy_loop. }
  destruct (opt_type o); try exact Take.
  unfold option_set_flag. by rewrite (option_append_ok _ _ _ _ O).
Qed.

Lemma nf_equals_option h parser p prefix arg :
  load_parser h parser = Ret p ->
  (forall key opt, map_get (options p) key = Some opt -> opt < length (heap_options h)) ->
  has_equals arg = true ->
  argparser_parse_equals_option h parser prefix arg <> Fault.
Proof.
  intros L V E. unfold argparser_parse_equals_option. unfold has_equals in E.
  destruct (strchr_split arg "=") as [[name value]|]; [|discriminate].
  rewrite L. cbn [bind].
  destruct (map_get (options p) name) as [opt|] eqn:G; [|done].
  destruct (valid_load_opt _ _ (V _ _ G)) as [o O].
  rewrite (set_found_ok _ _ _ _ O). cbn [bind].
  rewrite (load_set_opt_same _ _ _ _ O). cbn [bind with_found opt_type].
  destruct (opt_type o) eqn:T; try done;
    (destruct (strlen value =? 0); [done|]);
    by eapply nf_option_try_set, load_set_opt_same.
Qed.

Lemma nf_long_option fuel h parser p arg s :
  load_parser h parser = Ret p ->
  (forall key opt, map_get (options p) key = Some opt -> opt < length (heap_options h)) ->
  wf_stream s ->
  argparser_parse_long_option fuel h parser arg s <> Some Fault.
Proof.
  intros L V W. unfold argparser_parse_long_option.
  destruct (has_equals arg) eqn:E.
  - apply nf_lift; [by eapply nf_equals_option|]. done.
  - rewrite L. cbn [bindM lift]. rewrite map_contains_get.
    destruct (map_get (options p) arg) as [opt|] eqn:G.
    + destruct (valid_load_opt _ _ (V _ _ G)) as [o O].
      rewrite (set_found_ok _ _ _ _ O). cbn [bindM lift].
      pose proof (load_set_opt_same _ _ _ (with_found o true) O) as O1.
      rewrite O1. cbn [bindM lift].
      by apply (nf_take_values fuel _ opt (with_found o true) s).
    + destruct (if (arg =? "help")%string then helptext p else None); [done|].
      by destruct (if (arg =? "version")%string then version p else None).
Qed.

Lemma nf_short_option_loop fuel parser arg : forall h s,
  wf_heap h -> parser < length (heap_parsers h) -> wf_stream s ->
  len s - index s <= fuel ->
  short_option_loop fuel h parser arg s <> Some Fault.
Proof.
  induction arg as [|c arg IH]; intros h s Wh V W F; cbn [short_option_loop]; [done|].
  destruct (valid_load_parser _ _ V) as [p L]. rewrite L. cbn [bindM lift].
  destruct (map_get (options p) (String c "")) as [opt|] eqn:G; [|done].
  destruct (Wh _ _ L) as [Vo _].
  destruct (valid_load_opt _ _ (Vo _ _ G)) as [o O].
  pose proof (set_found_ok _ _ _ true O) as SF. rewrite SF. cbn [bindM lift].
  pose proof (load_set_opt_same _ _ _ (with_found o true) O) as O1.
  rewrite O1. cbn [bindM lift].
  apply nf_bind; [by apply (nf_take_values fuel _ opt (with_found o true) s)|].
  intros [h2 s2] T.
  pose proof (keeps_take_values _ _ _ _ _ _ _ _ O1 T) as K2.
  pose proof (keeps_trans _ _ _ (keeps_set_found _ _ _ SF) K2) as K.
  destruct (take_values_total fuel (heap_set_opt h opt (with_found o true)) opt
              (opt_type (with_found o true)) s
              ("missing argument for the -" ++ String c "" ++ " option") F)
    as (r & Er & Hr).
  assert (Some r = Some (Ret (h2, s2))) as [= ->] by (rewrite <- Er; exact T).
  pose proof (Hr _ eq_refl) as Sl. simpl in Sl.
  apply IH.
  - by eapply wf_keeps.
  - by eapply valid_keeps.
  - by eapply wf_stream_le.
  - destruct Sl as (Hl & _ & Hi). lia.
Qed.

Lemma nf_short_option fuel h parser arg s :
  wf_heap h -> parser < length (heap_parsers h) -> wf_stream s ->
  len s - index s <= fuel ->
  argparser_parse_short_option fuel h parser arg s <> Some Fault.
Proof.
  intros Wh V W F. unfold argparser_parse_short_option.
  destruct (has_equals arg) eqn:E; [|by apply nf_short_option_loop].
  destruct (valid_load_parser _ _ V) as [p L]. destruct (Wh _ _ L) as [Vo _].
  apply nf_lift; [by eapply nf_equals_option|]. done.
Qed.

Lemma nf_append_argument h parser arg :
  parser < length (heap_parsers h) -> append_argument h parser arg <> Fault.
Proof.
  intros V. destruct (valid_load_parser _ _ V) as [p L]. unfold append_argument.
  rewrite L. cbn [bind]. by rewrite (store_parser_ok _ _ _ _ L).
Qed.

Lemma nf_parse_argument recurse fuel h parser arg s parsing :
  callbacks_keep -> callbacks_safe ->
  (forall h c s h' s', recurse h c s = Some (Ret (h', s')) -> keeps h h') ->
  (forall h c s, wf_heap h -> c < length (heap_parsers h) -> wf_stream s ->
     len s - index s <= fuel -> recurse h c s <> Some Fault) ->
  wf_heap h -> parser < length (heap_parsers h) -> wf_stream s ->
  len s - index s <= fuel ->
  parse_argument recurse fuel h parser arg s parsing <> Some Fault.
Proof.
  intros Ck Cs RecK Rec Wh V W F. unfold parse_argument.
  assert ((h' <~ lift (append_argument h parser arg);;
           lift (Ret (h', s, parsing))) <> Some Fault) as Pos.
  { apply nf_lift; [by apply nf_append_argument|done]. }
  destruct (valid_load_parser _ _ V) as [p L]. destruct (Wh _ _ L) as [Vo Vc].
  destruct (negb parsing); [exact Pos|].
  destruct (arg =? "--")%string; [done|].
  destruct (has_prefix "--" arg).
  { apply nf_bind; [by eapply nf_long_option|]. by intros [h1 s1] _. }
  destruct (Ascii.eqb (char_at arg 0) "-").
  { destruct ((strlen arg =? 1) || isdigit (char_at arg 1)); [exact Pos|].
    apply nf_bind; [by apply nf_short_option|]. by intros [h1 s1] _. }
  rewrite L. cbn [bindM lift]. rewrite map_contains_get.
  destruct (map_get (commands p) arg) as [c|] eqn:G.
  { destruct (Vc _ _ G) as (pc & Lc & _).
    pose proof (store_parser_ok h parser p (set_cmd p arg c) L) as St.
    rewrite St. cbn [bindM lift].
    pose proof (keeps_set_cmd _ _ _ _ _ _ L St) as K1.
    pose proof (load_parser_lt _ _ _ Lc) as Vc1.
    apply nf_bind.
    - apply Rec; [by eapply wf_keeps|by eapply valid_keeps|done|done].
    - intros [h2 s2] R. pose proof (RecK _ _ _ _ _ R) as K2.
      destruct (mjoin (map_get (callbacks p) arg)) as [cb|]; [|done].
      apply nf_lift; [|done]. apply Cs.
      + eapply wf_keeps; [exact K2|]. by eapply wf_keeps.
      + eapply valid_keeps; [exact K2|]. by eapply valid_keeps. }
  destruct (arg =? "help")%string; [|exact Pos].
  destruct (argstream_has_next s) eqn:N; [|done].
  destruct (next_ok s N W) as [name ->]. cbn [bindM lift].
  rewrite map_contains_get.
  destruct (map_get (commands p) name) as [c|] eqn:Gn; [|done].
  destruct (Vc _ _ Gn) as (pc & Lc & Hc). rewrite Lc. cbn [bindM lift].
  by destruct (helptext pc).
Qed.

Lemma nf_parse_stream fuel :
  callbacks_keep -> callbacks_safe ->
  forall h parser s parsing,
    wf_heap h -> parser < length (heap_parsers h) -> wf_stream s ->
    len s - index s <= fuel ->
    argparser_parse_stream fuel h parser s parsing <> Some Fault.
Proof.
  intros Ck Cs. induction fuel as [|fuel IH]; intros h parser s parsing Wh V W F;
    simpl; destruct (argstream_has_next s) eqn:N; try done.
  destruct (next_ok s N W) as [arg ->]. cbn [bindM lift].
  apply has_next_lt in N.
  assert (F1 : len (advance s) - index (advance s) <= fuel) by (simpl; lia).
  apply nf_bind.
  - apply nf_parse_argument; try done.
    + intros ? ? ? ? ? R. by eapply keeps_parse_stream.
    + intros h1 c s1 Wh1 V1 W1 F2. by apply IH.
  - intros [[h2 s2] parsing2] P.
    pose proof (keeps_parse_argument _ _ _ _ _ _ _ _ _ _ Ck
                  (fun h c s h' s' R => keeps_parse_stream fuel Ck h c s true h' s' R) P)
      as K.
    destruct (parse_argument_total
                (fun h cmd_parser stream =>
                   argparser_parse_stream fuel h cmd_parser stream true)
                fuel h parser arg (advance s) parsing
                (fun h c s F => parse_stream_total fuel h c s true F) F1)
      as (r & Er & Hr).
    assert (Some r = Some (Ret (h2, s2, parsing2))) as [= ->]
      by (rewrite <- Er; exact P).
    pose proof (Hr _ eq_refl) as Sl. simpl in Sl.
    apply IH.
    + by eapply wf_keeps.
    + by eapply valid_keeps.
    + eapply wf_stream_le; [exact Sl|done].
    + destruct Sl as (Hl & _ & Hi). simpl in *. lia.
Qed.

(** X19. What a parse keeps. When the callbacks do so, a parse that returns
    has allocated nothing and has kept every option and every parser: an
    option keeps its type and its greediness, stays marked when it was, and
    has only values of its type appended; a parser keeps its texts, its
    options, its commands, its callbacks and its parent, and has only
    arguments appended. *)
Theorem parsing_keeps_what_is_registered h parser argc argv h' :
  callbacks_keep ->
  ap_parse h parser argc argv = Some (Ret h') ->
  keeps h h'.
Proof.
  intros Ck H. unfold ap_parse, argparser_parse in H. bind_inv H.
  injection H as <-. by eapply keeps_parse_stream.
Qed.



(** *** The store that the interface builds *)











(** *** Teardown *)

Lemma map_free_loop_none {V : Type} `{EqDecision V} (entries : Map V) :
  forall seen f, map_free_loop None entries seen f = Some (Ret f).
Proof.
  induction entries as [|[k v] entries IH]; intros seen f; cbn [map_free_loop];
    [done|].
  destruct (bool_decide (v ∈ seen)); [apply IH|]. cbn [bindM lift]. apply IH.
Qed.

Lemma map_free_loop_options h (entries : Map ptr) : forall seen f,
  (forall k opt, (k, opt) ∈ entries -> opt < length (heap_options h)) ->
  (forall opt, opt ∈ freed_options f ->
     opt ∈ seen \/ forall k, (k, opt) ∉ entries) ->
  exists new,
    map_free_loop (Some (option_free_cb h)) entries seen f
    = Some (Ret {| freed_options := (freed_options f ++ new)%list;
                   freed_parsers := freed_parsers f |})
    /\ NoDup new
    /\ forall opt, opt ∈ new <-> (opt ∉ seen) /\ exists k, (k, opt) ∈ entries.
Proof.
  induction entries as [|[k v] entries IH]; intros seen f Va Fr;
    cbn [map_free_loop].
  - exists []. rewrite app_nil_r. split; [by destruct f|]. split; [constructor|].
    intros opt. split; [by intros ?%elem_of_nil|].
    intros [_ [k' ?%elem_of_nil]]. done.
  - destruct (decide (v ∈ seen)) as [S|S].
    + rewrite bool_decide_eq_true_2 by done.
      destruct (IH seen f) as (new & E & N & C).
      * intros k' opt I. apply (Va k'). by apply list_elem_of_further.
      * intros opt I. destruct (Fr opt I) as [?|Fo]; [by left|]. right.
        intros k' I'. apply (Fo k'). by apply list_elem_of_further.
      * exists new. split; [exact E|]. split; [exact N|].
        intros opt. rewrite C. split.
        -- intros [? [k' I]]. split; [done|]. exists k'. by apply list_elem_of_further.
        -- intros [Ns [k' I]]. split; [done|].
           apply elem_of_cons in I as [[= -> ->]|I]; [done|]. by exists k'.
    + rewrite bool_decide_eq_false_2 by done.
      assert (Nf : v ∉ freed_options f).
      { intros I. destruct (Fr v I) as [?|Fo]; [done|].
        apply (Fo k). apply list_elem_of_here. }
      destruct (valid_load_opt h v) as [o O].
      { apply (Va k). apply list_elem_of_here. }
      unfold option_free_cb at 1, option_free.
      rewrite bool_decide_eq_false_2 by done. rewrite O. cbn [bind bindM lift].
      destruct (IH (seen ++ [v])%list
                  {| freed_options := (freed_options f ++ [v])%list;
                     freed_parsers := freed_parsers f |})
        as (new & E & N & C).
      * intros k' opt I. apply (Va k'). by apply list_elem_of_further.
      * cbn [freed_options]. intros opt I. apply elem_of_app in I as [I|I].
        -- destruct (Fr opt I) as [?|Fo].
           ++ left. apply elem_of_app. by left.
           ++ right. intros k' I'. apply (Fo k'). by apply list_elem_of_further.
        -- left. apply elem_of_app. by right.
      * cbn [freed_options freed_parsers] in E. rewrite <- app_assoc in E.
        exists (v :: new). split; [exact E|]. split.
        -- constructor; [|exact N]. intros I. apply C in I as [Ns _].
           apply Ns. apply elem_of_app. right. apply list_elem_of_here.
        -- intros opt. rewrite elem_of_cons, C. split.
           ++ intros [->|[Ns [k' I]]].
              ** split; [done|]. exists k. apply list_elem_of_here.
              ** split.
                 --- intros I'. apply Ns. apply elem_of_app. by left.
                 --- exists k'. by apply list_elem_of_further.
           ++ intros [Ns [k' I]]. destruct (decide (opt = v)) as [->|Ne]; [by left|].
              right. split.
              ** intros [I'|I']%elem_of_app; [done|].
                 apply list_elem_of_singleton in I'. done.
              ** apply elem_of_cons in I as [[= -> ->]|I]; [done|]. by exists k'.
Qed.

(** *** Teardown of a tree of parsers *)

Lemma below_ge h a x : tree h -> below h a x -> a <= x.
Proof.
  intros (_ & T2 & _) B. induction B as [x|x c y C _ IH]; [done|].
  pose proof (T2 _ _ C). lia.
Qed.

Lemma below_trans h a b c : below h a b -> below h b c -> below h a c.
Proof.
  intros B1 B2. induction B1 as [x|x c' y C _ IH]; [done|].
  eapply below_step; [exact C|]. by apply IH.
Qed.

Lemma below_child h a c : child h a c -> below h a c.
Proof. intros C. eapply below_step; [exact C|apply below_refl]. Qed.

(** The last step of a path that is not empty. *)
Lemma below_parent h a x :
  below h a x -> a <> x -> exists y, below h a y /\ child h y x.
Proof.
  intros B. induction B as [x|x c y C B IH]; [done|]. intros _.
  destruct (decide (c = y)) as [->|N].
  - exists x. split; [apply below_refl|done].
  - destruct (IH N) as (z & Bz & Cz). exists z. split; [|done].
    eapply below_step; [exact C|exact Bz].
Qed.

(** The subtrees of two commands of one parser have no parser in common. *)
Lemma disjoint_subtrees h p c1 c2 x :
  tree h -> child h p c1 -> child h p c2 -> c1 <> c2 ->
  below h c1 x -> below h c2 x -> False.
Proof.
  intros T C1 C2 N. pose proof T as (_ & T2 & _ & T4).
  induction (lt_wf x) as [x _ IH]. intros B1 B2.
  destruct (decide (c1 = x)) as [<-|N1].
  { destruct (below_parent _ _ _ B2 (not_eq_sym N)) as (y & By & Cy).
    rewrite (T4 _ _ _ Cy C1) in By. apply (below_ge _ _ _ T) in By.
    pose proof (T2 _ _ C2). lia. }
  destruct (decide (c2 = x)) as [<-|N2].
  { destruct (below_parent _ _ _ B1 N) as (y & By & Cy).
    rewrite (T4 _ _ _ Cy C2) in By. apply (below_ge _ _ _ T) in By.
    pose proof (T2 _ _ C1). lia. }
  destruct (below_parent _ _ _ B1 N1) as (y1 & By1 & Cy1).
  destruct (below_parent _ _ _ B2 N2) as (y2 & By2 & Cy2).
  rewrite (T4 _ _ _ Cy2 Cy1) in By2.
  apply (IH y1); [|done|done]. pose proof (T2 _ _ Cy1). lia.
Qed.


(** The loop of [map_free] over the commands of [parser], given that
    [argparser_free] does on a command what it should. *)
Lemma map_free_loop_commands h parser fuel (entries : Map ptr) :
  tree h ->
  (forall c f, child h parser c -> free_pre h c f ->
     exists f', argparser_free fuel h f c = Some (Ret f') /\ free_post h c f f') ->
  forall seen f,
    (forall k c, (k, c) ∈ entries -> child h parser c) ->
    (forall c, c ∈ seen -> child h parser c) ->
    NoDup (freed_options f) -> NoDup (freed_parsers f) ->
    (forall c x, child h parser c -> c ∉ seen -> below h c x -> x ∉ freed_parsers f) ->
    (forall c x opt, child h parser c -> c ∉ seen -> below h c x -> owns h x opt ->
       opt ∉ freed_options f) ->
    exists f',
      map_free_loop (Some (argparser_free fuel h)) entries seen f = Some (Ret f')
      /\ NoDup (freed_options f') /\ NoDup (freed_parsers f')
      /\ (forall x, x ∈ freed_parsers f' <->
            x ∈ freed_parsers f
            \/ exists k c, (k, c) ∈ entries /\ (c ∉ seen) /\ below h c x)
      /\ (forall opt, opt ∈ freed_options f' <->
            opt ∈ freed_options f
            \/ exists k c x, (k, c) ∈ entries /\ (c ∉ seen) /\ below h c x
                             /\ owns h x opt).
Proof.
  intros T Free. pose proof T as (_ & _ & T3 & _).
  induction entries as [|[k v] entries IH]; intros seen f Ce Cs No Np Fp Fo;
    cbn [map_free_loop].
  - exists f. split; [done|]. split; [done|]. split; [done|]. split.
    + intros x. split; [by left|]. intros [?|(? & ? & I & _)]; [done|].
      by apply elem_of_nil in I.
    + intros opt. split; [by left|]. intros [?|(? & ? & ? & I & _)]; [done|].
      by apply elem_of_nil in I.
  - assert (Cv : child h parser v) by (apply (Ce k), list_elem_of_here).
    assert (Ce' : forall k' c, (k', c) ∈ entries -> child h parser c).
    { intros k' c I. apply (Ce k'). by apply list_elem_of_further. }
    destruct (decide (v ∈ seen)) as [S|S].
    + rewrite bool_decide_eq_true_2 by done.
      destruct (IH seen f Ce' Cs No Np Fp Fo) as (f' & E & No' & Np' & Xp & Xo).
      exists f'. split; [exact E|]. split; [done|]. split; [done|]. split.
      * intros x. rewrite Xp. split.
        -- intros [?|(k' & c & I & Nc & B)]; [by left|]. right.
           exists k', c. split; [by apply list_elem_of_further|done].
        -- intros [?|(k' & c & I & Nc & B)]; [by left|]. right.
           apply elem_of_cons in I as [[= -> ->]|I]; [done|]. by exists k', c.
      * intros opt. rewrite Xo. split.
        -- intros [?|(k' & c & x & I & Nc & B)]; [by left|]. right.
           exists k', c, x. split; [by apply list_elem_of_further|done].
        -- intros [?|(k' & c & x & I & Nc & B)]; [by left|]. right.
           apply elem_of_cons in I as [[= -> ->]|I]; [done|]. by exists k', c, x.
    + rewrite bool_decide_eq_false_2 by done.
      destruct (Free v f Cv) as (f1 & E1 & No1 & Np1 & Xp1 & Xo1).
      { split; [done|]. split; [done|]. split.
        - intros x B. by apply (Fp v).
        - intros x opt B O. by apply (Fo v x). }
      rewrite E1. cbn [bindM].
      destruct (IH (seen ++ [v])%list f1) as (f' & E & No' & Np' & Xp & Xo);
        try done.
      * intros c [I|I]%elem_of_app; [by apply Cs|].
        apply list_elem_of_singleton in I. by subst.
      * intros c x Cc Nc B I. apply Xp1 in I as [I|I].
        -- apply (Fp c x Cc); [|done|done]. intros ?. apply Nc, elem_of_app. by left.
        -- apply (disjoint_subtrees h parser v c x T Cv Cc); [|done|done].
           intros ->. apply Nc, elem_of_app. right. apply list_elem_of_here.
      * intros c x opt Cc Nc B O I. apply Xo1 in I as [I|(x' & B' & O')].
        -- apply (Fo c x opt Cc); [|done|done|done].
           intros ?. apply Nc, elem_of_app. by left.
        -- rewrite (T3 _ _ _ O' O) in B'.
           apply (disjoint_subtrees h parser v c x T Cv Cc); [|done|done].
           intros ->. apply Nc, elem_of_app. right. apply list_elem_of_here.
      * exists f'. split; [exact E|]. split; [done|]. split; [done|]. split.
        -- intros x. rewrite Xp, Xp1. split.
           ++ intros [[?|B]|(k' & c & I & Nc & B)].
              ** by left.
              ** right. exists k, v. split; [apply list_elem_of_here|done].
              ** right. exists k', c. split; [by apply list_elem_of_further|].
                 split; [|done]. intros ?. apply Nc, elem_of_app. by left.
           ++ intros [?|(k' & c & I & Nc & B)]; [by left; left|].
              destruct (decide (c = v)) as [->|Ne]; [by left; right|].
              right. exists k', c.
              apply elem_of_cons in I as [[= -> ->]|I]; [done|].
              split; [done|]. split; [|done].
              intros [?|I']%elem_of_app; [done|].
              by apply list_elem_of_singleton in I'.
        -- intros opt. rewrite Xo, Xo1. split.
           ++ intros [[?|(x & B & O)]|(k' & c & x & I & Nc & B)].
              ** by left.
              ** right. exists k, v, x. split; [apply list_elem_of_here|done].
              ** right. exists k', c, x. split; [by apply list_elem_of_further|].
                 split; [|done]. intros ?. apply Nc, elem_of_app. by left.
           ++ intros [?|(k' & c & x & I & Nc & B & O)]; [by left; left|].
              destruct (decide (c = v)) as [->|Ne]; [left; right; by exists x|].
              right. exists k', c, x.
              apply elem_of_cons in I as [[= -> ->]|I]; [done|].
              split; [done|]. split; [|done].
              intros [?|I']%elem_of_app; [done|].
              by apply list_elem_of_singleton in I'.
Qed.

Lemma argparser_free_subtree h fuel : forall parser f,
  tree h ->
  parser < length (heap_parsers h) ->
  length (heap_parsers h) - parser <= fuel ->
  free_pre h parser f ->
  exists f', argparser_free fuel h f parser = Some (Ret f') /\ free_post h parser f f'.
Proof.
  induction fuel as [|fuel IH]; intros parser f T V F (No & Np & Fp & Fo); [lia|].
  pose proof T as (T1 & T2 & T3 & T4).
  cbn [argparser_free].
  rewrite bool_decide_eq_false_2 by (apply Fp, below_refl).
  destruct (valid_load_parser _ _ V) as [p L]. rewrite L. cbn [bindM lift].
  unfold map_free.
  (* the options *)
  destruct (map_free_loop_options h (options p) [] f) as (new & E & Nn & Cn).
  { intros k opt I. apply (T1 parser). by exists p, k. }
  { intros opt I. right. intros k I'. apply (Fo parser opt (below_refl _ _)); [|done].
    by exists p, k. }
  rewrite E. cbn [bindM]. clear E.
  set (f1 := {| freed_options := (freed_options f ++ new)%list;
                freed_parsers := freed_parsers f |}).
  assert (On : forall opt, opt ∈ new <-> owns h parser opt).
  { intros opt. rewrite Cn. split.
    - intros [_ [k I]]. by exists p, k.
    - intros (p' & k & L' & I). rewrite L in L'. injection L' as <-.
      split; [apply not_elem_of_nil|by exists k]. }
  assert (No1 : NoDup (freed_options f1)).
  { apply NoDup_app. split; [done|]. split; [|done].
    intros opt I I'. apply On in I'. by apply (Fo parser opt (below_refl _ _)). }
  (* the commands *)
  destruct (map_free_loop_commands h parser fuel (commands p) T) with (seen := @nil ptr)
    (f := f1) as (f2 & E & No2 & Np2 & Xp & Xo); try done.
  { intros c f0 C Pre. apply IH; try done; pose proof (T2 _ _ C); lia. }
  { intros k c I. by exists p, k. }
  { intros c I. by apply elem_of_nil in I. }
  { intros c x C _ B. apply Fp. by eapply below_step. }
  { intros c x opt C _ B O [I|I]%elem_of_app.
    - apply (Fo x opt); [by eapply below_step|done|done].
    - apply On in I. rewrite <- (T3 _ _ _ I O) in B. apply (below_ge _ _ _ T) in B.
      pose proof (T2 _ _ C). lia. }
  rewrite E. cbn [bindM]. clear E.
  (* the callbacks, and the parser itself *)
  rewrite map_free_loop_none. cbn [bindM lift].
  eexists. split; [reflexivity|].
  assert (Ch : forall x, below h parser x <->
                 x = parser \/ exists k c, (k, c) ∈ commands p /\ (c ∉ []) /\ below h c x).
  { intros x. split.
    - intros B. inversion B as [|? c ? C B']; subst; [by left|]. right.
      destruct C as (p' & k & L' & I). rewrite L in L'. injection L' as <-.
      exists k, c. split; [done|]. split; [apply not_elem_of_nil|done].
    - intros [->|(k & c & I & _ & B)]; [apply below_refl|].
      eapply below_step; [|exact B]. by exists p, k. }
  split; [done|]. cbn [freed_options freed_parsers]. split; [|split].
  - apply NoDup_app. split; [done|]. split; [|apply NoDup_singleton].
    intros x I ->%list_elem_of_singleton. apply Xp in I as [I|(k & c & I & _ & B)].
    + by apply (Fp parser (below_refl _ _)).
    + apply (below_ge _ _ _ T) in B.
      assert (child h parser c) as C by (by exists p, k).
      pose proof (T2 _ _ C). lia.
  - intros x. rewrite elem_of_app, list_elem_of_singleton, Xp, Ch.
    cbn [freed_parsers f1]. tauto.
  - intros opt. rewrite Xo. cbn [freed_options f1]. rewrite elem_of_app, On. split.
    + intros [[?|O]|(k & c & x & I & _ & B & O)].
      * by left.
      * right. exists parser. split; [apply below_refl|done].
      * right. exists x. split; [|done]. eapply below_step; [|exact B]. by exists p, k.
    + intros [?|(x & B & O)]; [by left; left|].
      apply Ch in B as [->|(k & c & I & Nc & B)]; [by left; right|].
      right. by exists k, c, x.
Qed.

(** X23. The teardown of a tree of parsers. On a store whose parsers form
    trees, [ap_free] returns; it has freed no block twice and read none after
    its release, and it has freed exactly the parsers at or under the one it
    was given and exactly their options, each once, however many names an
    option or a command has. *)
Theorem ap_free_frees_every_block_once h parser :
  tree h ->
  parser < length (heap_parsers h) ->
  exists f,
    ap_free h parser = Some (Ret f)
    /\ NoDup (freed_parsers f)
    /\ NoDup (freed_options f)
    /\ (forall x, x ∈ freed_parsers f <-> below h parser x)
    /\ (forall opt, opt ∈ freed_options f <->
          exists x, below h parser x /\ owns h x opt).
Proof.
  intros T V. unfold ap_free.
  destruct (argparser_free_subtree h (length (heap_parsers h)) parser nothing_freed T V)
    as (f & E & No & Np & Xp & Xo); [lia| |].
  { split; [constructor|]. split; [constructor|].
    split; intros; apply not_elem_of_nil. }
  exists f. split; [exact E|]. split; [done|]. split; [done|]. split.
  - intros x. rewrite Xp. split; [intros [I|?]; [by apply elem_of_nil in I|done]|by right].
  - intros opt. rewrite Xo.
    split; [intros [I|?]; [by apply elem_of_nil in I|done]|by right].
Qed.

(** *** The interface builds trees *)











(** *** The values of an option are of its type *)










(** A token that is not option syntax and is not the name of a command. *)
Lemma parse_argument_no_command recurse fuel h parser p tok stream :
  plain_positional tok = true ->
  load_parser h parser = Ret p ->
  map_get (commands p) tok = None ->
  parse_argument recurse fuel h parser tok stream true =
    (h' <~ lift (append_argument h parser tok);; lift (Ret (h', stream, true))).
Proof.
  intros P L C. unfold plain_positional in P. apply orb_true_iff in P as [D|P].
  - by apply parse_argument_dash.
  - apply andb_true_iff in P as [E H]. apply negb_true_iff in E, H.
    unfold parse_argument. cbn [negb].
    destruct (plain_token_tests _ E) as [-> ->]. rewrite E, L. cbn [bindM lift].
    rewrite map_contains_get, C. by rewrite H.
Qed.

Lemma parse_stream_no_command ws : forall fuel h parser p s,
  load_parser h parser = Ret p ->
  forallb plain_positional ws = true ->
  Forall (fun w => map_get (commands p) w = None) ws ->
  next_are s ws ->
  argstream_has_next (advance_by (length ws) s) = false ->
  length ws <= fuel ->
  argparser_parse_stream fuel h parser s true =
    Some (Ret (heap_set_parser h parser (set_arguments p (arguments p ++ ws)%list),
               advance_by (length ws) s)).
Proof.
  induction ws as [|w ws IH]; intros fuel h parser p s L P C N E F.
  - simpl in *. rewrite (parse_stream_done _ _ _ _ _ E). rewrite app_nil_r.
    replace (set_arguments p (arguments p)) with p by (by destruct p).
    by rewrite (heap_set_parser_id _ _ _ L).
  - destruct fuel as [|fuel]; [simpl in F; lia|].
    destruct N as [N N']. cbn [forallb] in P. apply andb_true_iff in P as [Pw P].
    inversion C as [|? ? Cw C']; subst.
    rewrite (parse_stream_step _ _ _ _ _ _ N).
    rewrite (parse_argument_no_command _ _ h parser p w _ Pw L Cw).
    unfold append_argument. rewrite L. cbn [bind].
    rewrite (store_parser_ok _ _ _ _ L). cbn [bindM lift].
    rewrite (IH fuel _ parser (set_arguments p (arglist_append (arguments p) w))
               (advance s) (load_set_parser_same _ _ _ _ L) P C' N' E
               ltac:(simpl in F; lia)).
    rewrite heap_set_parser_twice. cbn [length advance_by].
    do 4 f_equal. unfold set_arguments, arglist_append. simpl.
    by rewrite <- app_assoc.
Qed.

(** *** The errors of the option handlers *)

(** X13. The errors of the long form. A name that is not registered (and is
    not an automatic [help] or [version]) is not a recognised option, with or
    without an equals sign; a flag does not take a value after an equals sign;
    an option that is not a flag and has no value-shaped argument after it
    misses its argument. Each ends the process with status 1. *)
Theorem long_option_errors fuel h parser p name s :
  load_parser h parser = Ret p ->
  has_equals name = false ->
  (map_get (options p) name = None ->
   name <> "help" -> name <> "version" ->
   argparser_parse_long_option fuel h parser name s
   = Some (err ("--" ++ name ++ " is not a recognised option")))
  /\ (forall v,
        map_get (options p) name = None ->
        argparser_parse_long_option fuel h parser (name ++ "=" ++ v) s
        = Some (err ("--" ++ name ++ " is not a recognised option")))
  /\ (forall opt o,
        map_get (options p) name = Some opt ->
        load_opt h opt = Ret o ->
        (opt_type o = FLAG ->
         forall v,
           argparser_parse_long_option fuel h parser (name ++ "=" ++ v) s
           = Some (err ("invalid format for boolean flag --" ++ name)))
        /\ (opt_type o <> FLAG ->
            (argstream_has_next s = false
             \/ exists tok, next_is s tok /\ spec_value_shaped tok = false) ->
            argparser_parse_long_option fuel h parser name s
            = Some (err ("missing argument for the --" ++ name ++ " option")))).
Proof.
  intros L E. split; [|split].
  - intros G Nh Nv. unfold argparser_parse_long_option. rewrite E, L.
    cbn [bindM lift]. rewrite map_contains_get, G.
    apply String.eqb_neq in Nh, Nv. by rewrite Nh, Nv.
  - intros v G. unfold argparser_parse_long_option.
    change (name ++ "=" ++ v) with (name ++ String "=" v). rewrite has_equals_app.
    unfold argparser_parse_equals_option. rewrite (strchr_split_app _ _ E), L.
    cbn [bind]. by rewrite G.
  - intros opt o G O. split.
    + intros T v. unfold argparser_parse_long_option.
      change (name ++ "=" ++ v) with (name ++ String "=" v). rewrite has_equals_app.
      unfold argparser_parse_equals_option. rewrite (strchr_split_app _ _ E), L.
      cbn [bind]. rewrite G.
      rewrite (set_found_ok _ _ _ _ O). cbn [bind].
      rewrite (load_set_opt_same _ _ _ _ O). cbn [bind with_found opt_type].
      by rewrite T.
    + intros T Nx. unfold argparser_parse_long_option. rewrite E, L.
      cbn [bindM lift]. rewrite map_contains_get, G.
      rewrite (set_found_ok _ _ _ _ O). cbn [bindM lift].
      rewrite (load_set_opt_same _ _ _ _ O). cbn [bindM lift with_found opt_type].
      rewrite (opt_type_not_flag _ _ _ T).
      assert (argstream_has_next_value s = Ret false) as ->; [|done].
      destruct Nx as [Nx|(tok & Nx & V)].
      * by apply no_next_has_next_value.
      * by rewrite (next_is_has_next_value _ _ Nx), V.
Qed.

Section PrintingFacts.
Context `{stdio : !Stdio}.

(** *** Printing *)

Lemma str_not_empty s : malloc_ok = true -> s <> "" -> str s = Some s.
Proof. intros A N. unfold str. rewrite A. by destruct s. Qed.

Lemma pretty_Z_not_empty (z : Z) : pretty z <> "".
Proof.
  destruct z as [|q|q]; [done| |];
    unfold pretty, pretty_Z, pretty, pretty_positive, pretty, pretty_N;
    (destruct (decide (N.pos q = 0%N)) as [?|_]; [lia|]);
    destruct (pretty_N_go_head (N.pos q) "" ltac:(lia)) as (d & rest & _ & ->);
    done.
Qed.

Lemma value_str_typed t v :
  malloc_ok = true ->
  value_type v = t -> value_str t v = Ret (Some (value_text v)).
Proof.
  intros A <-. destruct v; cbn [value_type value_str value_text]; unfold str_dup;
    rewrite ?A; try done.
  - by rewrite (str_not_empty _ A (pretty_Z_not_empty i)).
  - by rewrite (str_not_empty _ A (format_f_not_empty d)).
Qed.

Lemma append_not_empty a b : a <> "" -> a ++ b <> "".
Proof. by destruct a. Qed.

Lemma option_str_loop_text t values : forall i acc,
  malloc_ok = true ->
  acc <> "" ->
  Forall (fun v => value_type v = t) values ->
  option_str_loop t values i (Some acc)
  = Ret (Some (acc ++ match values with
                     | [] => ""
                     | _ => (if i =? 0 then "" else ", ")
                            ++ comma_separated (map value_text values)
                     end)).
Proof.
  induction values as [|v values IH]; intros i acc A Na Ty; cbn [option_str_loop].
  - by rewrite append_empty_r.
  - inversion Ty as [|? ? Tv Ty']; subst.
    rewrite (value_str_typed _ _ A eq_refl). cbn [bind percent_s].
    assert (E : (if i =? 0 then acc ++ value_text v else acc ++ ", " ++ value_text v)
                = acc ++ (if i =? 0 then "" else ", ") ++ value_text v).
    { by destruct (i =? 0). }
    rewrite E, (str_not_empty _ A) by (by apply append_not_empty).
    rewrite IH; [|done|by apply append_not_empty|done].
    do 2 f_equal. rewrite !append_assoc. f_equal. f_equal.
    destruct values as [|v' values]; [by rewrite append_empty_r|].
    reflexivity.
Qed.

Lemma option_str_typed h opt o :
  malloc_ok = true ->
  load_opt h opt = Ret o ->
  typed o ->
  option_str h opt = Ret (Some (option_text o)).
Proof.
  intros A O Ty. unfold option_str. rewrite O. cbn [bind]. unfold str_dup. rewrite A.
  rewrite (option_str_loop_text _ _ 0 "[" A ltac:(done) Ty). cbn [bind percent_s].
  rewrite (str_not_empty _ A) by done. unfold option_text. do 2 f_equal.
  change ("[" ++ ?x) with (String "[" x).
  change (String "[" ?x ++ "]") with (String "[" (x ++ "]")). f_equal.
  by destruct (opt_values o).
Qed.

(** Without memory the first [str_dup] returns NULL, which is then the
    argument of a ["%s"]. *)
Lemma option_str_no_memory h opt o :
  malloc_ok = false ->
  load_opt h opt = Ret o ->
  typed o ->
  option_str h opt = Fault.
Proof.
  intros A O Ty. unfold option_str. rewrite O. cbn [bind]. unfold str_dup. rewrite A.
  unfold typed in Ty. destruct (opt_values o) as [|v vs]; [reflexivity|].
  inversion Ty as [|? ? Tv _]; subst. cbn [option_str_loop]. rewrite <- Tv.
  destruct v; cbn [value_type value_str]; unfold str_dup, str; rewrite ?A;
    reflexivity.
Qed.

(** X26. The text of an option.  For an option whose values are of its type
    (a string value being a string, not NULL): when [malloc] returns its
    blocks, [option_str] returns the texts of the values in order, with a
    comma and a space between them, between brackets, [[]] for an option
    without values; when [malloc] returns none, the NULL of the first
    [str_dup] is handed to a conversion [%s], which is undefined. *)
Theorem option_str_text h opt o :
  load_opt h opt = Ret o ->
  typed o ->
  (malloc_ok = true -> option_str h opt = Ret (Some (option_text o)))
  /\ (malloc_ok = false -> option_str h opt = Fault).
Proof.
  intros O Ty. split; intros A.
  - by apply option_str_typed.
  - by eapply option_str_no_memory.
Qed.

Lemma print_options_text h (map : Map ptr) :
  malloc_ok = true ->
  (forall j k opt, map !! j = Some (k, opt) ->
     exists o, load_opt h opt = Ret o /\ typed o) ->
  forall n i, i + n = length map ->
  exists lines,
    Forall2 (option_line h) (drop i map) lines
    /\ print_options h map i n = Ret (lines_text lines).
Proof.
  intros A V. induction n as [|n IH]; intros i L.
  - exists []. rewrite drop_ge by lia. by split; [constructor|].
  - destruct (map !! i) as [[k opt]|] eqn:E;
      [|apply lookup_ge_None in E; lia].
    destruct (V i k opt E) as (o & O & Ty).
    destruct (IH (S i) ltac:(lia)) as (lines & F & P).
    exists (("  " ++ k ++ ": " ++ option_text o ++ newline) :: lines). split.
    + rewrite (drop_S _ _ _ E). constructor; [|done]. by exists o.
    + cbn [print_options]. unfold map_key_at_index, map_value_at_index.
      rewrite E. cbn [bind]. rewrite (option_str_typed h opt o A O Ty).
      cbn [bind percent_s]. rewrite P. cbn [bind lines_text foldr].
      f_equal. by rewrite !append_assoc.
Qed.

(** X27. What [ap_print] prints.  When [malloc] returns its blocks, on a
    store whose parsers form trees and whose options hold values of their
    type (a string value being a string, not NULL), [ap_print] returns,
    having printed: for every entry of the options in the order of
    registration, names of one option each on a line of their own, the name
    and the text of the option, or [[none]]; the positional arguments, or
    [[none]]; the name of the command that was found, or [[none]]. *)
Theorem ap_print_text h parser p :
  malloc_ok = true ->
  tree h ->
  typed_heap h ->
  load_parser h parser = Ret p ->
  exists lines,
    Forall2 (option_line h) (options p) lines
    /\ ap_print h parser
       = Ret ("Options:" ++ newline
              ++ (if 0 <? length (options p) then lines_text lines
                  else "  [none]" ++ newline)
              ++ newline
              ++ arglist_print (arguments p)
              ++ newline ++ "Command:" ++ newline
              ++ match cmd_name p with
                 | Some name => "  " ++ name ++ newline
                 | None => "  [none]" ++ newline
                 end).
Proof.
  intros A (T1 & _) Ty P.
  assert (V : forall j k opt, options p !! j = Some (k, opt) ->
                exists o, load_opt h opt = Ret o /\ typed o).
  { intros j k opt E.
    assert (opt < length (heap_options h)) as Lt.
    { apply (T1 parser). exists p, k. split; [done|]. by eapply list_elem_of_lookup_2. }
    unfold load_opt at 1.
    destruct (heap_options h !! opt) as [o|] eqn:O;
      [|apply lookup_ge_None in O; lia].
    exists o. split; [done|]. apply (Ty opt). unfold load_opt. by rewrite O. }
  destruct (print_options_text h (options p) A V (length (options p)) 0 eq_refl)
    as (lines & F & Pr).
  exists lines. split; [done|].
  unfold ap_print, argparser_print, argparser_has_cmd, argparser_get_cmd_name.
  rewrite P. cbn [bind]. rewrite Pr.
  destruct (0 <? length (options p)); cbn [bind];
    destruct (cmd_name p); reflexivity.
Qed.

End PrintingFacts.

End Facts.

(* ------------------------------------------------------------------------- *)
(** ** Properties of the program [en] *)
(* ------------------------------------------------------------------------- *)

Section EnFacts.
Context `{libc : Libc} `{errh : ErrH}.

#[local] Existing Instance en_callbacks.

Lemma en_callbacks_keep : callbacks_keep.
Proof.
  intros cb parser h h' H. cbn [invoke en_callbacks] in H.
  unfold ip_show, system in H. destruct (ip_show_cmd h parser); try discriminate.
  injection H as <-. apply keeps_refl.
Qed.

Lemma ip_show_cmd_ok h ap p :
  load_parser h ap = Ret p ->
  ip_show_cmd h ap
  = Ret match arguments p with
        | [] => "ifconfig"
        | arg :: _ => snprintf 256 ("ifconfig " ++ arg)
        end.
Proof.
  intros L. unfold ip_show_cmd, ap_has_args, argparser_has_args, ap_get_arg,
    argparser_get_arg. rewrite L. cbn [bind]. by destruct (arguments p).
Qed.

Lemma en_callbacks_safe : callbacks_safe.
Proof.
  intros cb parser h W V. cbn [invoke en_callbacks]. unfold ip_show, system.
  destruct (valid_load_parser h parser V) as [p L].
  by rewrite (ip_show_cmd_ok _ _ _ L).
Qed.

Lemma main_parses argc argv :
  main argc argv =
    (h <~ ap_parse en_heap 0 argc argv;;
     has_cmd <~ lift (ap_has_cmd h 0);;
     if negb has_cmd then lift (errx 1 "Missing cmd")
     else _ <~ ap_free h 0;; lift (Ret 0%Z)).
Proof. reflexivity. Qed.

Lemma wf_en_heap : wf_heap en_heap.
Proof.
  intros parser p L. destruct parser as [|[|parser]]; try discriminate L;
    injection L as <-; split; try done.
  intros key c G. cbn in G. destruct (key =? "show")%string; [|discriminate].
  injection G as <-. exists en_show. by split.
Qed.

Lemma en_free h :
  keeps en_heap h ->
  ap_free h 0 = Some (Ret {| freed_options := []; freed_parsers := [1; 0] |}).
Proof.
  intros (_ & Lp & _ & Kp).
  destruct (Kp 0 en_root eq_refl) as (p0 & L0 & _ & _ & O0 & C0 & B0 & _).
  destruct (Kp 1 en_show eq_refl) as (p1 & L1 & _ & _ & O1 & C1 & B1 & _).
  unfold ap_free. rewrite Lp. cbn [en_heap heap_parsers length argparser_free].
  rewrite bool_decide_eq_false_2 by apply not_elem_of_nil.
  rewrite L0. cbn [bindM lift]. rewrite O0, C0, B0.
  cbn [en_root options commands callbacks map_new map_free map_free_loop bindM lift].
  rewrite bool_decide_eq_false_2 by apply not_elem_of_nil.
  rewrite bool_decide_eq_false_2 by apply not_elem_of_nil.
  rewrite L1. cbn [bindM lift]. rewrite O1, C1, B1. reflexivity.
Qed.

(** X28. When allocation succeeds, the program goes wrong nowhere.  The
    model has every block allocated; what the code does when [malloc] or
    [realloc] returns NULL is outside this property.  For every command
    line of the basic character set (an array that holds the arguments
    counted), [main] returns or ends the process: the parse and the callback
    [ip_show] reach only allocated parsers and arguments that are there, and
    the teardown frees no block twice and reads none that it has freed. *)
Theorem en_goes_wrong_nowhere argc argv :
  argc <= length argv ->
  Forall (fun arg => ascii_text arg = true) argv ->
  exists o, main argc argv = Some o /\ o <> Fault.
Proof.
  intros A _. rewrite main_parses. unfold ap_parse, argparser_parse.
  set (s := argstream_new (argc - 1) (tail argv)).
  assert (Ws : wf_stream s).
  { unfold wf_stream, s. simpl. destruct argv; simpl in *; lia. }
  assert (F : len s - index s <= argc - 1) by (simpl; lia).
  pose proof (nf_parse_stream (argc - 1) en_callbacks_keep en_callbacks_safe
                en_heap 0 s true wf_en_heap ltac:(simpl; lia) Ws F) as N.
  destruct (parse_stream_total (argc - 1) en_heap 0 s true F) as (o & E & _).
  rewrite E in *. destruct o as [[h' s']| |]; cbn [bindM lift]; try done.
  - pose proof (keeps_parse_stream _ en_callbacks_keep _ _ _ _ _ _ E) as K.
    destruct K as (Ko & Lp & Ko' & Kp).
    destruct (Kp 0 en_root eq_refl) as (p0 & L0 & _).
    unfold ap_has_cmd, argparser_has_cmd. rewrite L0. cbn [bind bindM lift].
    destruct (cmd_name p0); cbn [negb].
    + rewrite en_free by done. cbn [bindM lift]. by eexists.
    + by eexists.
  - by eexists.
Qed.

(** X29. The command [show]. For arguments after [show] that are neither
    option syntax nor the help command, the parse records the command, the
    parser of the command holds the arguments, [ip_show] runs [ifconfig]
    alone, or followed by the first argument within 255 characters, and [main]
    returns 0. *)
Theorem en_show_runs_ifconfig prog ws :
  forallb plain_positional ws = true ->
  exists h,
    ap_parse en_heap 0 (2 + length ws) (prog :: "show" :: ws) = Some (Ret h)
    /\ ap_get_cmd_name h 0 = Ret (Some "show")
    /\ ap_get_args h 1 = Ret ws
    /\ ip_show_cmd h 1
       = Ret match ws with
             | [] => "ifconfig"
             | arg :: _ => snprintf 256 ("ifconfig " ++ arg)
             end
    /\ main (2 + length ws) (prog :: "show" :: ws) = Some (Ret 0%Z).
Proof.
  intros P.
  set (h1 := heap_set_parser en_heap 0 (set_cmd en_root "show" 1)).
  set (h2 := heap_set_parser h1 1 (set_arguments en_show ws)).
  assert (Pa : ap_parse en_heap 0 (2 + length ws) (prog :: "show" :: ws)
               = Some (Ret h2)).
  { unfold ap_parse. cbn [tail Nat.sub Nat.add]. unfold argparser_parse.
    pose proof (next_are_new ("show" :: ws)) as [N0 N].
    pose proof (new_stream_end ("show" :: ws)) as End.
    cbn [length advance_by] in *.
    rewrite (parse_stream_step _ _ _ _ _ _ N0). unfold parse_argument. cbn [negb].
    change ("show" =? "--")%string with false.
    change (has_prefix "--" "show") with false.
    change (Ascii.eqb (char_at "show" 0) "-") with false. cbv iota.
    change (load_parser en_heap 0) with (Ret en_root). cbn [bindM lift].
    change (map_contains (commands en_root) "show") with true. cbv iota.
    change (map_get (commands en_root) "show") with (Some 1).
    change (mjoin (map_get (callbacks en_root) "show")) with (Some ip_show_address).
    cbv iota.
    rewrite (store_parser_ok en_heap 0 en_root _ eq_refl). cbn [bindM lift]. fold h1.
    rewrite (parse_stream_plain ws _ h1 1 en_show _ eq_refl eq_refl P N End);
      [|lia].
    change (arguments en_show ++ ws)%list with ws. fold h2.
    cbn [bindM lift invoke en_callbacks].
    unfold ip_show, system.
    rewrite (ip_show_cmd_ok h2 1 (set_arguments en_show ws) eq_refl).
    cbn [bind bindM lift]. rewrite (parse_stream_done _ _ _ _ _ End). reflexivity. }
  exists h2. split; [exact Pa|]. split; [reflexivity|]. split; [reflexivity|].
  split.
  - rewrite (ip_show_cmd_ok h2 1 (set_arguments en_show ws) eq_refl). reflexivity.
  - rewrite main_parses, Pa. cbn [bindM lift].
    unfold ap_has_cmd, argparser_has_cmd.
    change (load_parser h2 0) with (Ret (set_cmd en_root "show" 1)).
    cbn [bind bindM lift set_cmd cmd_name negb].
    rewrite (en_free h2); [reflexivity|].
    apply (keeps_trans _ h1).
    + apply (keeps_set_parser en_heap 0 en_root); [done|]. by repeat split.
    + apply (keeps_set_parser h1 1 en_show); [done|]. repeat split.
      by exists ws.
Qed.

(** X30. The program without a command. For arguments that are neither option
    syntax, nor the help command, nor [show], [main] ends the process with
    status 1 and the message of a missing command. *)
Theorem en_without_a_command prog ws :
  forallb plain_positional ws = true ->
  Forall (fun w => w <> "show") ws ->
  main (1 + length ws) (prog :: ws) = Some (errx 1 "Missing cmd").
Proof.
  intros P NS. rewrite main_parses. unfold ap_parse. cbn [tail Nat.sub Nat.add].
  rewrite Nat.sub_0_r. unfold argparser_parse.
  pose proof (next_are_new ws) as N. pose proof (new_stream_end ws) as End.
  assert (C : Forall (fun w => map_get (commands en_root) w = None) ws).
  { eapply Forall_impl; [exact NS|]. intros w Hw. cbn.
    destruct (String.eqb_spec w "show"); [done|reflexivity]. }
  rewrite (parse_stream_no_command ws _ en_heap 0 en_root _ eq_refl P C N End);
    [reflexivity|lia].
Qed.

End EnFacts.

(* ------------------------------------------------------------------------- *)
(** ** The library on concrete command lines *)
(* ------------------------------------------------------------------------- *)

#[local] Existing Instance no_float.
#[local] Existing Instance no_callbacks.

Lemma no_callbacks_keep : @callbacks_keep no_float no_callbacks.
Proof. intros cb parser h h' H. injection H as <-. apply keeps_refl. Qed.


Example try_str_to_int_hex : try_str_to_int " -0x1F" = Ret (-31)%Z.
Proof. reflexivity. Qed.

Example try_str_to_int_octal : try_str_to_int "010" = Ret 8%Z.
Proof. reflexivity. Qed.

Example try_str_to_int_empty : try_str_to_int "" = Ret 0%Z.
Proof. reflexivity. Qed.

Example try_str_to_int_int_max : try_str_to_int "2147483647" = Ret INT_MAX.
Proof. reflexivity. Qed.

Example strtok_aliases : strtok " v  version " "" = ["v"; "version"].
Proof. reflexivity. Qed.

(** Aliases of one registration share the option. *)
Example aliases_share_the_option :
  (let '(h, root) := ap_new empty_heap None None in
   h <~ lift (ap_add_flag h root "v verbose");;
   h <~ ap_parse h root 2 ["prog"; "-v"];;
   lift (ap_get_flag h root "verbose")) = Some (Ret true).
Proof. vm_compute. reflexivity. Qed.

(** In the space form a greedy list takes every value-shaped argument that
    follows, in the equals form the one value after the sign. *)
Example greedy_space_form_and_equals_form :
  (let '(h, root) := ap_new empty_heap None None in
   h <~ lift (ap_add_str_list h root "tags" true);;
   h <~ ap_parse h root 4 ["prog"; "--tags"; "a"; "b"];;
   lift (tags <- ap_get_str_list h root "tags";;
         positionals <- ap_get_args h root;;
         Ret (tags, positionals))) = Some (Ret (Some ["a"; "b"], []))
  /\ (let '(h, root) := ap_new empty_heap None None in
      h <~ lift (ap_add_str_list h root "tags" true);;
      h <~ ap_parse h root 3 ["prog"; "--tags=a"; "b"];;
      lift (tags <- ap_get_str_list h root "tags";;
            positionals <- ap_get_args h root;;
            Ret (tags, positionals))) = Some (Ret (Some ["a"], ["b"])).
Proof. split; vm_compute; reflexivity. Qed.

(** The argument of the help command is read as the name of a command,
    whatever it looks like, and the process stops there. *)
Example help_takes_any_argument :
  (let '(h, root) := ap_new empty_heap (Some "usage") None in
   ap_parse h root 3 ["prog"; "help"; "-5"])
  = Some (Exit 1 stderr ("Error: '-5' is not a recognised command." ++ newline)).
Proof. vm_compute. reflexivity. Qed.

(** The claim C1 fails on [-ab x y] with two string options: after [a] has
    claimed [x] the loop goes on to [b], which claims [y]; it does not stop at
    [a], which would leave [b] not found and [y] a positional argument.  It
    fails as well when [a] is a greedy list and [b] a flag: after [a] has
    claimed [x] and [y] the loop goes on to [b] and sets it. *)
Lemma C1_counterexample :
  (let '(h, root) := ap_new empty_heap None None in
   h <~ lift (ap_add_str h root "a" "");;
   h <~ lift (ap_add_str h root "b" "");;
   h <~ ap_parse h root 4 ["prog"; "-ab"; "x"; "y"];;
   lift (a <- ap_get_str h root "a";;
         found_b <- ap_found h root "b";;
         b <- ap_get_str h root "b";;
         positionals <- ap_get_args h root;;
         Ret (a, found_b, b, positionals)))
  = Some (Ret ("x", true, "y", []))
  /\ (let h := plain_heap [fresh_option STRING false [str_val ""];
                          fresh_option STRING false [str_val ""]]
                         [("a", 0); ("b", 1)] in
      let s := {| len := 3; index := 1; args := ["-ab"; "x"; "y"] |} in
      short_option_loop 2 h 0 "ab" s <> short_option_loop 2 h 0 "a" s)
  /\ (let '(h, root) := ap_new empty_heap None None in
      h <~ lift (ap_add_str_list h root "a" true);;
      h <~ lift (ap_add_flag h root "b");;
      h <~ ap_parse h root 4 ["prog"; "-ab"; "x"; "y"];;
      lift (a <- ap_get_str_list h root "a";;
            found_b <- ap_found h root "b";;
            b <- ap_get_flag h root "b";;
            positionals <- ap_get_args h root;;
            Ret (a, found_b, b, positionals)))
     = Some (Ret (Some ["x"; "y"], true, true, []))
  /\ (let h := plain_heap [fresh_option STRING true [];
                          fresh_option FLAG false [bool_val false]]
                         [("a", 0); ("b", 1)] in
      let s := {| len := 3; index := 1; args := ["-ab"; "x"; "y"] |} in
      short_option_loop 2 h 0 "ab" s <> short_option_loop 2 h 0 "a" s).
Proof.
  split; [vm_compute; reflexivity|]. split; [vm_compute; discriminate|].
  split; [vm_compute; reflexivity|]. vm_compute. discriminate.
Qed.

Lemma C1_witness :
  let h := plain_heap [fresh_option STRING false [str_val ""];
                       fresh_option STRING false [str_val ""]]
                      [("a", 0); ("b", 1)] in
  let s := {| len := 3; index := 1; args := ["-ab"; "x"; "y"] |} in
  let g := plain_heap [fresh_option STRING true [];
                       fresh_option FLAG false [bool_val false]]
                      [("a", 0); ("b", 1)] in
  load_parser h 0 = Ret (plain_parser [("a", 0); ("b", 1)])
  /\ short_option_loop 2 h 0 "ab" s =
       short_option_loop 2
         (heap_set_opt h 0 (matched (fresh_option STRING false [str_val ""])
                                    (str_val "x")))
         0 "b" (advance s)
  /\ short_option_loop 2 g 0 "ab" s =
       short_option_loop 2
         (heap_set_opt g 0
            (with_values (with_found (fresh_option STRING true []) true)
               [str_val "x"; str_val "y"]))
         0 "b" (advance_by 2 s).
Proof.
  intros h s g. split; [reflexivity|]. split.
  - refine (proj1 (proj2 (proj2 (C1_bundle_goes_on_after_a_value
                          2 h 0 (plain_parser [("a", 0); ("b", 1)]) "a" "b" s eq_refl)))
              0 (fresh_option STRING false [str_val ""]) "x" (str_val "x")
              eq_refl eq_refl eq_refl _ eq_refl eq_refl).
    split; [simpl; lia|reflexivity].
  - refine (proj2 (proj2 (proj2 (C1_bundle_goes_on_after_a_value
                          2 g 0 (plain_parser [("a", 0); ("b", 1)]) "a" "b" s eq_refl)))
              0 (fresh_option STRING true []) "x" (str_val "x") ["y"] [str_val "y"]
              eq_refl eq_refl eq_refl _ eq_refl _ eq_refl _).
    + repeat split; simpl; lia.
    + repeat constructor.
    + simpl. lia.
Defined.

Lemma C2_witness :
  let root := {| helptext := None; version := None; options := map_new;
                 commands := [("sub", 1)]; callbacks := [("sub", None)];
                 arguments := arglist_new; cmd_name := None; cmd_parser := None;
                 parent := None |} in
  let h := {| heap_options := []; heap_parsers := [root; plain_parser []] |} in
  let s := argstream_new 2 ["sub"; "file"] in
  load_parser h 0 = Ret root
  /\ next_is s "sub"
  /\ Ascii.eqb (char_at "sub" 0) "-" = false
  /\ map_get (commands root) "sub" = Some 1
  /\ argparser_parse_stream 2 h 0 s true =
       ('(h', s') <~
          argparser_parse_stream 1 (heap_set_parser h 0 (set_cmd root "sub" 1)) 1
            (advance s) true;;
        h'' <~ lift (Ret h');;
        lift (Ret (h'', s'))).
Proof.
  intros root h s. split; [reflexivity|].
  split; [split; [simpl; lia|reflexivity]|].
  split; [reflexivity|]. split; [reflexivity|].
  refine (proj2 (C2_command_takes_the_rest_of_the_stream None None None "prog")
            1 h 0 root s "sub" 1 eq_refl _ eq_refl eq_refl).
  split; [simpl; lia|reflexivity].
Defined.

Lemma C6_witness :
  spec_value_shaped "val1" = true
  /\ coerce (scalar_type (scalar_str "")) "val1" = Ret (Some (str_val "val1"))
  /\ plain_positional "val2" = true
  /\ (let '(h, root) := ap_new empty_heap None None in
      h <~ lift (ap_add_flag h root "a");;
      h <~ lift (ap_add_flag h root "b");;
      h <~ lift (ap_add_str h root "c" "");;
      h <~ ap_parse h root 4 ["app"; "-abc"; "val1"; "val2"];;
      lift (a <- ap_get_flag h root "a";;
            b <- ap_get_flag h root "b";;
            c <- ap_get_str h root "c";;
            positionals <- ap_get_args h root;;
            Ret (a, b, str_val c, positionals)))
     = Some (Ret (true, true, str_val "val1", ["val2"])).
Proof.
  split; [reflexivity|]. split; [reflexivity|]. split; [reflexivity|].
  exact (C6_bundle_with_a_value None None "app" (scalar_str "") "val1" "val2"
           (str_val "val1") eq_refl eq_refl eq_refl).
Defined.

Lemma C3_witness :
  ["x"; "y"; "z"] <> []
  /\ forallb spec_value_shaped ["x"; "y"; "z"] = true
  /\ spec_value_shaped "--" = false
  /\ (let '(h, root) := ap_new empty_heap None None in
      h <~ lift (ap_add_str_list h root "tags" true);;
      h <~ ap_parse h root 7 ["app"; "--tags"; "x"; "y"; "z"; "--"; "w"];;
      lift (tags <- ap_get_str_list h root "tags";;
            positionals <- ap_get_args h root;;
            Ret (tags, positionals)))
     = Some (Ret (Some ["x"; "y"; "z"], ["w"])).
Proof.
  split; [discriminate|]. split; [reflexivity|].
  apply (C3_greedy_list_stops_at_double_dash None None "app" ["x"; "y"; "z"] ["w"]);
    [discriminate|reflexivity].
Defined.

(** The claim C4 fails on the text [-x] for a string option: it is not
    empty and converts to a string, [--name=-x] stores it, and [--name -x]
    stops the process, since [-x] is not value-shaped. *)
Lemma C4_counterexample :
  let o := fresh_option STRING false [str_val ""] in
  let h := plain_heap [o] [("name", 0)] in
  opt_type o <> FLAG
  /\ opt_greedy o = false
  /\ "-x" <> ""
  /\ coerce (opt_type o) "-x" = Ret (Some (str_val "-x"))
  /\ argparser_parse h 0 1 ["--name=-x"]
     = Some (Ret (heap_set_opt h 0 (matched o (str_val "-x"))))
  /\ argparser_parse h 0 2 ["--name"; "-x"]
     = Some (Exit 1 stderr ("Error: missing argument for the --name option."
                            ++ newline))
  /\ argparser_parse h 0 1 ["--name=-x"] <> argparser_parse h 0 2 ["--name"; "-x"].
Proof.
  cbv zeta. repeat split; try discriminate; reflexivity.
Qed.

Lemma C4_witness :
  let o := fresh_option STRING false [str_val ""] in
  let h := plain_heap [o] [("name", 0)] in
  load_parser h 0 = Ret (plain_parser [("name", 0)])
  /\ map_get (options (plain_parser [("name", 0)])) "name" = Some 0
  /\ load_opt h 0 = Ret o
  /\ opt_type o <> FLAG
  /\ opt_greedy o = false
  /\ "name" <> ""
  /\ has_equals "name" = false
  /\ "v" <> ""
  /\ spec_value_shaped "v" = true
  /\ argparser_parse h 0 1 ["--name=v"] = argparser_parse h 0 2 ["--name"; "v"]
  /\ argparser_parse h 0 2 ["--name"; "v"]
     = Some (Ret (heap_set_opt h 0 (matched o (str_val "v")))).
Proof.
  intros o h.
  assert (STRING <> FLAG /\ "name" <> "" /\ "v" <> "") as (T & N & V)
    by (repeat split; discriminate).
  pose proof (C4_equals_form_and_space_form_agree
                h 0 (plain_parser [("name", 0)]) "name" "v" 0 o
                eq_refl eq_refl eq_refl T eq_refl N eq_refl V eq_refl) as [E1 E2].
  split; [reflexivity|]. split; [reflexivity|]. split; [reflexivity|].
  split; [exact T|]. split; [reflexivity|]. split; [exact N|].
  split; [reflexivity|]. split; [exact V|]. split; [reflexivity|].
  split; [exact E1|exact (E2 (str_val "v") eq_refl)].
Defined.



(** The claim C7 fails on the command line [help]: the process stops with
    an error and no store is returned in which [help] would be a positional
    argument. *)
Lemma C7_counterexample :
  let '(h, root) := ap_new empty_heap None None in
  ap_parse h root 2 ["prog"; "help"]
  = Some (Exit 1 stderr ("Error: the help command requires an argument." ++ newline))
  /\ ~ exists h', ap_parse h root 2 ["prog"; "help"] = Some (Ret h')
                  /\ ap_get_args h' root = Ret ["help"].
Proof.
  cbv beta iota zeta. split; [vm_compute; reflexivity|].
  intros (h' & H & _). vm_compute in H. discriminate.
Qed.

Lemma C7_witness :
  let s := argstream_new 1 ["help"] in
  load_parser (plain_heap [] []) 0 = Ret (plain_parser [])
  /\ map_contains (commands (plain_parser [])) "help" = false
  /\ next_is s "help"
  /\ argstream_has_next (advance s) = false
  /\ argparser_parse_stream 1 (plain_heap [] []) 0 s true =
       Some (Exit 1 stderr ("Error: the help command requires an argument."
                            ++ newline)).
Proof.
  intros s. split; [reflexivity|]. split; [reflexivity|].
  split; [split; [simpl; lia|reflexivity]|]. split; [reflexivity|].
  apply (C7_help_without_argument_is_fatal 0 (plain_heap [] []) 0 (plain_parser []) s);
    [reflexivity|reflexivity|split; [simpl; lia|reflexivity]|reflexivity].
Defined.

(** The claim C8 fails on [2147483648x]: characters follow the numeral, and
    the coercion reports the range, which it tests first, not the format. *)
Lemma C8_counterexample :
  try_str_to_int "2147483648x"
  = Exit 1 stderr ("Error: '2147483648x' is out of range." ++ newline)
  /\ (let '(h, root) := ap_new empty_heap None None in
      h <~ ap_parse h root 3 ["prog"; "10"; "2147483648x"];;
      lift (ap_get_args_as_ints h root))
     = Some (Exit 1 stderr ("Error: '2147483648x' is out of range." ++ newline)).
Proof. split; vm_compute; reflexivity. Qed.

Lemma C8_witness :
  let out := "Error: '" ++ (" " ++ "+" ++ "0x80000000" ++ "x") ++ "' is out of range."
             ++ newline in
  let bad := "Error: cannot parse '" ++ ("" ++ "-" ++ "017" ++ "8")
             ++ "' as an integer." ++ newline in
  try_str_to_int (" " ++ "+" ++ "0x80000000" ++ "x") = Exit 1 stderr out
  /\ try_str_to_int ("" ++ "-" ++ "017" ++ "8") = Exit 1 stderr bad
  /\ try_str_to_int ("  " ++ "-" ++ "2147483648" ++ "") = Ret (-2147483648)%Z
  /\ try_str_to_int (" " ++ "-" ++ "x") =
       Exit 1 stderr
         ("Error: cannot parse '" ++ (" " ++ "-" ++ "x") ++ "' as an integer."
          ++ newline)
  /\ args_as_ints (["10"] ++ "x" :: ["20"])
     = Exit 1 stderr ("Error: cannot parse 'x' as an integer." ++ newline).
Proof.
  intros out bad.
  pose proof (@C8_integer_coercion no_float) as (_ & N & M & _ & F).
  split; [|split; [|split; [|split]]].
  - refine (proj1 (N " " "+" (hexadecimal "x" "80000000") "x"
                     eq_refl eq_refl eq_refl eq_refl) _).
    right. vm_compute. reflexivity.
  - refine (proj1 (proj2 (N "" "-" (octal "17") "8"
                            eq_refl eq_refl eq_refl eq_refl)) _ _).
    + vm_compute. split; discriminate.
    + discriminate.
  - refine (proj2 (proj2 (N "  " "-" (decimal "2147483648") ""
                            eq_refl eq_refl eq_refl eq_refl)) _ eq_refl).
    vm_compute. split; discriminate.
  - refine (proj1 (M " " "-" "x" eq_refl eq_refl eq_refl) _). discriminate.
  - exact (proj1 (F ["10"] [10%Z] "x" ["20"] 1%Z stderr _ eq_refl eq_refl)).
Defined.

(** The claim C9 fails on [ap_clear_list] applied to a scalar option: the
    call empties the values, default included, and the getter of the current
    value then reads before the start of the array. *)
Lemma C9_counterexample :
  (let '(h, root) := ap_new empty_heap None None in
   h <~ lift (ap_add_str h root "name" "default");;
   before <~ lift (ap_get_str h root "name");;
   h <~ run_op h (op_clear_list root "name");;
   lift (n <- ap_len_list h root "name";; Ret (before, n)))
  = Some (Ret ("default", 0))
  /\ (let '(h, root) := ap_new empty_heap None None in
      h <~ lift (ap_add_str h root "name" "default");;
      h <~ run_op h (op_clear_list root "name");;
      lift (ap_get_str h root "name"))
     = Some Fault.
Proof. split; vm_compute; reflexivity. Qed.

Lemma C9_witness :
  let o := fresh_option STRING false [str_val "d"] in
  let l := fresh_option STRING false [str_val "a"; str_val "b"] in
  let h := plain_heap [o; l] [("name", 0); ("list", 1)] in
  callbacks_grow
  /\ (exists o',
        load_opt (heap_set_opt h 0 (push_value o (str_val "v"))) 0 = Ret o'
        /\ opt_values o' !! 0 = opt_values o !! 0
        /\ last (opt_values o') <> None)
  /\ (exists o',
        load_opt (heap_set_opt h 1 (with_values l [])) 0 = Ret o'
        /\ opt_values o' !! 0 = opt_values o !! 0
        /\ last (opt_values o') <> None).
Proof.
  intros o l h.
  assert (@callbacks_grow no_float no_callbacks) as Cb.
  { intros cb parser h0 h1 H. injection H as <-. apply grows_refl. }
  assert (opt_values o <> []) as NE by discriminate.
  split; [exact Cb|]. split.
  - refine (proj1 (proj2 (C9_values_stay_unless_cleared Cb))
              h (op_set_str 0 "name" "v") _ 0 o _ eq_refl eq_refl NE).
    intros [].
  - refine (proj1 (proj2 (C9_values_stay_unless_cleared Cb))
              h (op_clear_list 0 "list") _ 0 o _ eq_refl eq_refl NE).
    discriminate.
Defined.

Lemma C10_witness :
  let o := fresh_option STRING true [] in
  let h := plain_heap [o] [("tags", 0)] in
  let s := {| len := 3; index := 1; args := ["--tags=a"; "b"; "c"] |} in
  load_parser h 0 = Ret (plain_parser [("tags", 0)])
  /\ map_get (options (plain_parser [("tags", 0)])) "tags" = Some 0
  /\ load_opt h 0 = Ret o
  /\ opt_greedy o = true
  /\ has_equals "tags" = false
  /\ "a" <> ""
  /\ coerce (opt_type o) "a" = Ret (Some (str_val "a"))
  /\ argstream_has_next_value s = Ret true
  /\ argparser_parse_long_option 2 h 0 "tags=a" s =
       Some (Ret (heap_set_opt h 0 (matched o (str_val "a")), s))
  /\ argparser_parse_short_option 2 h 0 "tags=a" s =
       Some (Ret (heap_set_opt h 0 (matched o (str_val "a")), s)).
Proof.
  intros o h s.
  assert ("a" <> "") as V by discriminate.
  split; [reflexivity|]. split; [reflexivity|]. split; [reflexivity|].
  split; [reflexivity|]. split; [reflexivity|]. split; [exact V|].
  split; [reflexivity|]. split; [reflexivity|].
  exact (C10_equals_form_leaves_the_stream 2 h 0 (plain_parser [("tags", 0)])
           "tags" "a" 0 o (str_val "a") s
           eq_refl eq_refl eq_refl eq_refl eq_refl V eq_refl).
Defined.

(* ------------------------------------------------------------------------- *)
(** ** The rest of the library on concrete stores *)
(* ------------------------------------------------------------------------- *)

Lemma map_add_splitkey_words_witness :
  is_word "verbose" = true
  /\ map_add_splitkey [("v", 0)] "verbose" 1 = map_add [("v", 0)] "verbose" 1.
Proof.
  split; [reflexivity|].
  exact (proj1 (proj2 (map_add_splitkey_words [("v", 0)] 1)) "verbose" eq_refl).
Defined.

Lemma registration_round_trip_witness :
  let h := plain_heap [] [] in
  "verbose" ∈ strtok "v verbose" ""
  /\ exists h',
       ap_add h 0 "v verbose" (reg_int 3) = Ret h'
       /\ argparser_get_opt h' 0 "verbose" = Ret 0
       /\ load_opt h' 0 = Ret (registered (reg_int 3))
       /\ ap_found h' 0 "verbose" = Ret false
       /\ ap_len_list h' 0 "verbose" = Ret 1
       /\ (forall v, last [int_val 3] = Some v ->
             ap_get_scalar h' 0 "verbose" INTEGER = Ret v).
Proof.
  intros h.
  assert ("verbose" ∈ strtok "v verbose" "") as K
    by (apply list_elem_of_further, list_elem_of_here).
  split; [exact K|].
  exact (registration_round_trip h 0 (plain_parser []) "v verbose" "verbose"
           (reg_int 3) eq_refl K eq_refl).
Defined.

Lemma registered_names_stay_witness :
  let o := fresh_option STRING false [str_val "first"] in
  let h := plain_heap [o] [("name", 0)] in
  exists h',
    ap_add h 0 "name" (reg_str "second") = Ret h'
    /\ argparser_get_opt h' 0 "name" = Ret 0
    /\ load_opt h' 0 = Ret o.
Proof.
  intros o h.
  exact (registered_names_stay h 0 (plain_parser [("name", 0)]) "name" 0 o "name"
           (reg_str "second") eq_refl eq_refl eq_refl).
Defined.

Lemma set_then_get_witness :
  let o := fresh_option INTEGER false [int_val 1] in
  let h := plain_heap [o] [("n", 0)] in
  exists h',
    ap_set h 0 "n" (int_val 7) = Ret h'
    /\ ap_get_scalar h' 0 "n" INTEGER = Ret (int_val 7)
    /\ ap_len_list h' 0 "n" = Ret 2
    /\ ap_found h' 0 "n" = Ret false.
Proof.
  intros o h.
  exact (set_then_get h 0 "n" 0 o (int_val 7) eq_refl eq_refl).
Defined.

Lemma unregistered_name_aborts_witness :
  let h := plain_heap [] [] in
  ap_found h 0 "x" = Exit 1 stderr (abort_text "x")
  /\ ap_get_int h 0 "x" = Exit 1 stderr (abort_text "x")
  /\ abort_text "x" = "Abort: 'x' is not a registered option." ++ newline.
Proof.
  intros h.
  pose proof (unregistered_name_aborts h 0 (plain_parser []) "x" eq_refl eq_refl)
    as (F & _ & _ & G & _).
  split; [exact F|]. split; [exact G|reflexivity].
Defined.

Lemma clear_then_set_witness :
  let o := fresh_option STRING false [str_val "a"; str_val "b"] in
  let h := plain_heap [o] [("s", 0)] in
  exists h1,
    ap_clear_list h 0 "s" = Ret h1
    /\ ap_len_list h1 0 "s" = Ret 0
    /\ ap_found h1 0 "s" = Ret false
    /\ ap_get_flag_list h1 0 "s" = Ret None
    /\ ap_get_str_list h1 0 "s" = Ret None
    /\ ap_get_int_list h1 0 "s" = Ret None
    /\ ap_get_float_list h1 0 "s" = Ret None
    /\ forall v, exists h2,
         ap_set h1 0 "s" v = Ret h2
         /\ ap_len_list h2 0 "s" = Ret 1
         /\ ap_get_scalar h2 0 "s" (value_type v) = Ret v.
Proof.
  intros o h. exact (clear_then_set h 0 "s" 0 o eq_refl eq_refl).
Defined.

Lemma double_dash_ends_option_parsing_witness :
  let h := plain_heap [] [] in
  argparser_parse h 0 4 ["--"; "--force"; "help"; "-x"]
  = Some (Ret (heap_set_parser h 0
                 (set_arguments (plain_parser []) ["--force"; "help"; "-x"]))).
Proof.
  intros h.
  exact (double_dash_ends_option_parsing h 0 (plain_parser [])
           ["--force"; "help"; "-x"] eq_refl).
Defined.

Lemma repeated_flag_is_counted_witness :
  let o := fresh_option FLAG false [bool_val false] in
  let h := plain_heap [o] [("v", 0); ("verbose", 0)] in
  exists h',
    argparser_parse h 0 1 ["-vvv"] = Some (Ret h')
    /\ load_opt h' 0
       = Ret (with_values (with_found o true)
                [bool_val false; bool_val true; bool_val true; bool_val true])
    /\ forall name, map_get [("v", 0); ("verbose", 0)] name = Some 0 ->
         ap_len_list h' 0 name = Ret 4
         /\ ap_found h' 0 name = Ret true
         /\ ap_get_flag h' 0 name = Ret true.
Proof.
  intros o h.
  exact (repeated_flag_is_counted h 0 (plain_parser [("v", 0); ("verbose", 0)])
           "v" 0 o 2 eq_refl eq_refl eq_refl eq_refl eq_refl eq_refl eq_refl).
Defined.

Lemma equals_form_with_one_dash_or_two_witness :
  let o := fresh_option STRING false [str_val "d"] in
  let h := plain_heap [o] [("n", 0)] in
  let s := argstream_new 0 [] in
  has_equals "n=v" = true
  /\ argparser_parse_short_option 0 h 0 "n=v" s
     = Some (Ret (heap_set_opt h 0 (matched o (str_val "v")), s))
  /\ argparser_parse_long_option 0 h 0 "n=v" s
     = Some (Ret (heap_set_opt h 0 (matched o (str_val "v")), s)).
Proof.
  intros o h s. split; [reflexivity|].
  assert (argparser_parse_short_option 0 h 0 "n=v" s
          = Some (Ret (heap_set_opt h 0 (matched o (str_val "v")), s))) as S
    by reflexivity.
  split; [exact S|].
  exact (proj1 (equals_form_with_one_dash_or_two 0 h 0 "n=v" s eq_refl _) S).
Defined.

Lemma empty_value_of_an_integer_option_witness :
  let o := fresh_option INTEGER false [int_val 5] in
  let h := plain_heap [o] [("count", 0)] in
  let s := {| len := 2; index := 1; args := ["--count"; ""] |} in
  next_is s ""
  /\ argparser_parse_long_option 0 h 0 "count" s
     = Some (Ret (heap_set_opt h 0 (matched o (int_val 0)), advance s))
  /\ argparser_parse_long_option 0 h 0 ("count" ++ "=") s
     = Some (err ("missing argument for the --" ++ "count" ++ " option")).
Proof.
  intros o h s.
  assert (next_is s "") as N by (split; [simpl; lia|reflexivity]).
  split; [exact N|].
  exact (empty_value_of_an_integer_option 0 h 0 (plain_parser [("count", 0)])
           "count" 0 o s eq_refl eq_refl eq_refl eq_refl eq_refl eq_refl N).
Defined.

Lemma automatic_help_and_version_witness :
  let p := {| helptext := Some "usage"; version := None; options := [];
              commands := []; callbacks := []; arguments := [];
              cmd_name := None; cmd_parser := None; parent := None |} in
  let h := {| heap_options := []; heap_parsers := [p] |} in
  let s := argstream_new 0 [] in
  argparser_parse_long_option 0 h 0 "help" s
  = Some (Exit 0 stdout ("usage" ++ newline))
  /\ argparser_parse_long_option 0 h 0 "version" s
     = Some (err "--version is not a recognised option").
Proof.
  intros p h s.
  pose proof (automatic_help_and_version 0 h 0 p s eq_refl) as (H & V & _).
  split; [exact (H eq_refl)|exact (V eq_refl)].
Defined.

Lemma long_option_errors_witness :
  let o := fresh_option STRING false [str_val "d"] in
  let h := plain_heap [o] [("name", 0)] in
  let s := {| len := 2; index := 1; args := ["--name"; "-x"] |} in
  (exists tok, next_is s tok /\ spec_value_shaped tok = false)
  /\ argparser_parse_long_option 0 h 0 "name" s
     = Some (err ("missing argument for the --" ++ "name" ++ " option")).
Proof.
  intros o h s.
  assert (exists tok, next_is s tok /\ spec_value_shaped tok = false) as N.
  { exists "-x". split; [split; [simpl; lia|reflexivity]|reflexivity]. }
  split; [exact N|].
  pose proof (long_option_errors 0 h 0 (plain_parser [("name", 0)]) "name" s
                eq_refl eq_refl) as (_ & _ & R).
  destruct (R 0 o eq_refl eq_refl) as [_ M].
  apply M; [discriminate|]. right. exact N.
Defined.

Lemma help_command_and_help_flag_witness :
  argparser_parse en_heap 0 2 ["show"; "--help"]
  = Some (Exit 0 stdout ("Command!" ++ newline))
  /\ argparser_parse en_heap 0 2 ["help"; "show"]
     = Some (Exit 0 stdout ("Command!" ++ newline)).
Proof.
  exact (help_command_and_help_flag en_heap 0 en_root "show" 1 en_show "Command!"
           eq_refl eq_refl eq_refl eq_refl eq_refl eq_refl eq_refl).
Defined.

Lemma command_round_trip_witness :
  let h := plain_heap [] [] in
  exists h1 h2,
    ap_add_cmd h 0 "show sh" (Some "help") None = Ret (h1, 1)
    /\ ap_get_parent h1 1 = Ret (Some 0)
    /\ ap_has_cmd h2 0 = Ret true
    /\ ap_get_cmd_name h2 0 = Ret (Some "sh")
    /\ ap_get_cmd_parser h2 0 = Ret (Some 1)
    /\ ap_has_args h2 1 = Ret false
    /\ ap_parse h1 0 2 ["prog"; "sh"] = Some (Ret h2).
Proof.
  intros h.
  assert ("sh" ∈ strtok "show sh" "") as K
    by (apply list_elem_of_further, list_elem_of_here).
  exact (command_round_trip h 0 (plain_parser []) "show sh" "sh" (Some "help") None
           "prog" eq_refl K eq_refl eq_refl eq_refl).
Defined.

Lemma integers_round_trip_witness :
  let h := plain_heap [] [] in
  exists h',
    argparser_parse h 0 3 (map pretty [(-5)%Z; 0%Z; 17%Z]) = Some (Ret h')
    /\ ap_len_args h' 0 = Ret 3
    /\ ap_get_args h' 0 = Ret ["-5"; "0"; "17"]
    /\ ap_get_args_as_ints h' 0 = Ret [(-5)%Z; 0%Z; 17%Z].
Proof.
  intros h.
  assert (Forall (fun z => (INT_MIN <= z <= INT_MAX)%Z) [(-5)%Z; 0%Z; 17%Z]) as R.
  { repeat constructor; unfold INT_MIN, INT_MAX; lia. }
  exact (integers_round_trip h 0 (plain_parser []) [(-5)%Z; 0%Z; 17%Z]
           eq_refl eq_refl eq_refl R).
Defined.

Lemma try_str_to_int_hexadecimal_and_octal_witness :
  try_str_to_int "-0x1f" = Ret (-31)%Z
  /\ try_str_to_int "-0X1f" = Ret (-31)%Z
  /\ try_str_to_int "017" = Ret 15%Z.
Proof.
  assert ((INT_MIN <= -31 <= INT_MAX)%Z /\ (INT_MIN <= 15 <= INT_MAX)%Z) as [R R']
    by (unfold INT_MIN, INT_MAX; lia).
  destruct (proj1 (try_str_to_int_hexadecimal_and_octal true "1f")
              eq_refl ltac:(discriminate) R) as [A B].
  split; [exact A|]. split; [exact B|].
  exact (proj2 (try_str_to_int_hexadecimal_and_octal false "17") eq_refl R').
Defined.


Lemma parsing_keeps_what_is_registered_witness :
  let o := fresh_option FLAG false [bool_val false] in
  let h := plain_heap [o] [("v", 0)] in
  let h' := {| heap_options := [matched o (bool_val true)];
               heap_parsers := [set_arguments (plain_parser [("v", 0)]) ["x"]] |} in
  ap_parse h 0 3 ["prog"; "-v"; "x"] = Some (Ret h') /\ keeps h h'.
Proof.
  intros o h h'.
  assert (ap_parse h 0 3 ["prog"; "-v"; "x"] = Some (Ret h')) as P by reflexivity.
  split; [exact P|].
  exact (parsing_keeps_what_is_registered h 0 3 ["prog"; "-v"; "x"] h'
           no_callbacks_keep P).
Defined.






#[local] Existing Instance en_errh.

Lemma en_goes_wrong_nowhere_witness :
  exists o, main 3 ["en"; "show"; "eth0"] = Some o /\ o <> Fault.
Proof.
  exact (en_goes_wrong_nowhere 3 ["en"; "show"; "eth0"] ltac:(simpl; lia)
           ltac:(repeat constructor)).
Defined.

Lemma en_show_runs_ifconfig_witness :
  exists h,
    ap_parse (cbs := en_callbacks) en_heap 0 3 ["en"; "show"; "eth0"] = Some (Ret h)
    /\ ap_get_cmd_name h 0 = Ret (Some "show")
    /\ ap_get_args h 1 = Ret ["eth0"]
    /\ ip_show_cmd h 1 = Ret "ifconfig eth0"
    /\ main 3 ["en"; "show"; "eth0"] = Some (Ret 0%Z).
Proof.
  exact (en_show_runs_ifconfig "en" ["eth0"] eq_refl).
Defined.

Lemma en_without_a_command_witness :
  main 2 ["en"; "eth0"] = Some (errx 1 "Missing cmd")
  /\ errx (A := Z) 1 "Missing cmd" = Exit 1 stderr ("en: Missing cmd" ++ newline).
Proof.
  assert (Forall (fun w : string => w <> "show") ["eth0"]) as N
    by (repeat constructor; discriminate).
  split; [exact (en_without_a_command "en" ["eth0"] eq_refl N)|reflexivity].
Defined.

Lemma ap_free_frees_every_block_once_witness :
  let o := fresh_option FLAG false [bool_val false] in
  let root :=
    {| helptext := None; version := None;
       options := [("v", 0); ("verbose", 0)];
       commands := [("show", 1)]; callbacks := [("show", None)];
       arguments := arglist_new; cmd_name := None; cmd_parser := None;
       parent := None |} in
  let show := set_parent (plain_parser [("q", 1)]) 0 in
  let h := {| heap_options := [o; o]; heap_parsers := [root; show] |} in
  exists f,
    ap_free h 0 = Some (Ret f)
    /\ NoDup (freed_parsers f)
    /\ NoDup (freed_options f)
    /\ (forall x, x ∈ freed_parsers f <-> below h 0 x)
    /\ (forall opt, opt ∈ freed_options f <-> exists x, below h 0 x /\ owns h x opt).
Proof.
  intros o root show h.
  assert (Ow : forall parser opt, owns h parser opt ->
                 (parser = 0 /\ opt = 0) \/ (parser = 1 /\ opt = 1)).
  { intros parser opt (p & k & L & I).
    destruct parser as [|[|parser]]; try discriminate L; injection L as <-.
    - left. split; [done|].
      repeat (apply elem_of_cons in I as [[= _ ->]|I]; [done|]).
      by apply elem_of_nil in I.
    - right. split; [done|].
      repeat (apply elem_of_cons in I as [[= _ ->]|I]; [done|]).
      by apply elem_of_nil in I. }
  assert (Ch : forall parser c, child h parser c -> parser = 0 /\ c = 1).
  { intros parser c (p & k & L & I).
    destruct parser as [|[|parser]]; try discriminate L; injection L as <-.
    - repeat (apply elem_of_cons in I as [[= _ ->]|I]; [done|]).
      by apply elem_of_nil in I.
    - by apply elem_of_nil in I. }
  assert (T : tree h).
  { split; [|split; [|split]].
    - intros parser opt [[-> ->]|[-> ->]]%Ow; simpl; lia.
    - intros parser c [-> ->]%Ch. simpl. lia.
    - intros parser1 parser2 opt [[-> ->]|[-> ->]]%Ow [[-> E]|[-> E]]%Ow;
        done.
    - by intros parser1 parser2 c [-> _]%Ch [-> _]%Ch. }
  exact (ap_free_frees_every_block_once h 0 T ltac:(simpl; lia)).
Defined.



#[local] Existing Instance no_stdio.

Lemma option_str_text_witness :
  let o := fresh_option INTEGER false [int_val 1; int_val 22] in
  let h := plain_heap [o] [("n", 0)] in
  option_str h 0 = Ret (Some (option_text o)).
Proof.
  intros o h.
  exact (proj1 (option_str_text h 0 o eq_refl ltac:(repeat constructor)) eq_refl).
Defined.

Lemma ap_print_text_witness :
  let o := fresh_option INTEGER false [int_val 1; int_val 22] in
  let h := plain_heap [o] [("n", 0)] in
  exists lines,
    Forall2 (option_line h) [("n", 0)] lines
    /\ ap_print h 0
       = Ret ("Options:" ++ newline ++ lines_text lines ++ newline
              ++ "Arguments:" ++ newline ++ "  [none]" ++ newline
              ++ newline ++ "Command:" ++ newline ++ "  [none]" ++ newline).
Proof.
  intros o h.
  assert (T : tree h).
  { split; [|split; [|split]].
    - intros parser opt (p & k & L & I).
      destruct parser as [|parser]; try discriminate L; injection L as <-.
      apply list_elem_of_singleton in I as [= _ ->]. simpl. lia.
    - intros parser c (p & k & L & I).
      destruct parser as [|parser]; try discriminate L; injection L as <-.
      by apply elem_of_nil in I.
    - intros parser1 parser2 opt (p1 & k1 & L1 & _) (p2 & k2 & L2 & _).
      destruct parser1 as [|?]; try discriminate L1.
      by destruct parser2 as [|?]; try discriminate L2.
    - intros parser1 parser2 c (p1 & k1 & L1 & _) (p2 & k2 & L2 & _).
      destruct parser1 as [|?]; try discriminate L1.
      by destruct parser2 as [|?]; try discriminate L2. }
  assert (Ty : typed_heap h).
  { intros opt o' L. destruct opt as [|opt]; try discriminate L.
    injection L as <-. repeat constructor. }
  exact (ap_print_text h 0 (plain_parser [("n", 0)]) eq_refl T Ty eq_refl).
Defined.
